(** * s3sync: the synchronisation engine of [s3sync.go], embedded in Rocq

    The Go program lists an S3 prefix and a local directory concurrently,
    keeps the remote files that are missing, of a different size or newer,
    downloads them in one goroutine each and joins the failures into one
    error.

    Channels are modelled by the list of the values sent on them before
    they are closed, Go's [error] by a record carrying its message,
    [map[string]*fileInfo] by stdpp's [gmap string fileInfo], the S3
    client and the file system by a record of functions ([Env]), and the
    goroutines of the fetch stage by an interleaving relation.  The
    functions of Go's [strings] and [path/filepath] that the program calls
    are written out after their Go sources in their Unix form, since what
    the program lists and downloads depends on them; for [Rel], the two
    cases in which its result decides what is listed are spelled out at its
    definition. *)

From Stdlib Require Import ZArith Lia Ascii String List.
From stdpp Require Import base option list strings gmap fin_maps.
Import ListNotations.

Local Open Scope string_scope.
Local Open Scope list_scope.
Local Open Scope Z_scope.

(** ** Errors and timestamps *)

(** Go's [error] interface: what the program observes of an error value is
    its [Error()] text and whether [os.IsNotExist] holds of it. *)
Record error : Type := mkError {
  Error : string;
  IsNotExist : bool
}.

(** [errors.New]. *)
Definition errors_New (text : string) : error :=
  {| Error := text; IsNotExist := false |}.

(** [time.Time] without a monotonic clock reading (file modification times
    and S3 timestamps carry none): seconds since year 1 and nanoseconds
    within the second.  The zero value is [time.Time{}]. *)
Record Time : Type := mkTime {
  sec : Z;
  nsec : Z
}.

Definition zeroTime : Time := {| sec := 0; nsec := 0 |}.

(** [t.After(u)]: [ts > us || ts == us && t.nsec() > u.nsec()]. *)
Definition time_After (t u : Time) : bool :=
  (sec u <? sec t) || ((sec t =? sec u) && (nsec u <? nsec t)).

(** [t.Before(u)]: [ts < us || ts == us && t.nsec() < u.nsec()]. *)
Definition time_Before (t u : Time) : bool :=
  (sec t <? sec u) || ((sec t =? sec u) && (nsec t <? nsec u)).

(** ** The data model *)

Record s3Path : Type := mkS3Path {
  bucket : string;
  bucketPrefix : string
}.

Record fileInfo : Type := mkFileInfo {
  err : option error;
  name : string;
  path : string;
  size : Z;
  lastModified : Time
}.

(** The record built by [sendErrorInfoToChannel]: only [err] is set, every
    other field keeps Go's zero value. *)
Definition errorInfo (e : error) : fileInfo :=
  {| err := Some e; name := ""; path := ""; size := 0;
     lastModified := zeroTime |}.

(** [sendErrorInfoToChannel c err]: the values it sends on [c]. *)
Definition sendErrorInfoToChannel (e : error) : list fileInfo :=
  [errorInfo e].

(** ** The diff filter *)

(** [fileInfoChanToMap]: the loop over the channel, with the map built so
    far.  On the first record carrying an error the Go code returns
    [nil, file.err]; a nil map reads as the empty map. *)
Fixpoint fileInfoChanToMap_loop (result : gmap string fileInfo)
    (files : list fileInfo) : gmap string fileInfo * option error :=
  match files with
  | [] => (result, None)
  | file :: rest =>
      match err file with
      | Some e => (∅, Some e)
      | None => fileInfoChanToMap_loop (<[name file := file]> result) rest
      end
  end.

Definition fileInfoChanToMap (files : list fileInfo)
    : gmap string fileInfo * option error :=
  fileInfoChanToMap_loop ∅ files.

(** The condition of the [if] in [filterFilesForSync]:
    [!ok || sourceInfo.size != destInfo.size ||
     sourceInfo.lastModified.After(destInfo.lastModified)]. *)
Definition needsSync (destFiles : gmap string fileInfo)
    (sourceInfo : fileInfo) : bool :=
  match destFiles !! name sourceInfo with
  | None => true
  | Some destInfo =>
      negb (size sourceInfo =? size destInfo)
      || time_After (lastModified sourceInfo) (lastModified destInfo)
  end.

(** [for sourceInfo := range sourceFileChan { if ... { c <- sourceInfo } }] *)
Fixpoint filterLoop (destFiles : gmap string fileInfo)
    (sourceFileChan : list fileInfo) : list fileInfo :=
  match sourceFileChan with
  | [] => []
  | sourceInfo :: rest =>
      if needsSync destFiles sourceInfo
      then sourceInfo :: filterLoop destFiles rest
      else filterLoop destFiles rest
  end.

(** [filterFilesForSync]: the values sent on the returned channel. *)
Definition filterFilesForSync (sourceFileChan destFileChan : list fileInfo)
    : list fileInfo :=
  let '(destFiles, e) := fileInfoChanToMap destFileChan in
  match e with
  | Some e => sendErrorInfoToChannel e
  | None => filterLoop destFiles sourceFileChan
  end.

(** ** Go's [strings] and [path/filepath], as the program uses them

    These are the library functions the engine calls, in their Unix form
    (separator [/], no volume names, [ToSlash] and [FromSlash] the
    identity), working on the bytes of the string. *)

Local Open Scope nat_scope.

(** [strings.Join(elems, sep)]. *)
Fixpoint strings_Join (elems : list string) (sep : string) : string :=
  match elems with
  | [] => ""
  | [e] => e
  | e :: rest => e +:+ sep +:+ strings_Join rest sep
  end.

(** [strings.TrimPrefix(s, "/")]. *)
Definition trimSlashPrefix (s : string) : string :=
  match s with
  | String "/" rest => rest
  | _ => s
  end.

Definition Separator : ascii := "/"%char.

Definition isPathSeparator (c : ascii) : bool := Ascii.eqb c Separator.

Definition isDot (c : ascii) : bool := Ascii.eqb c "."%char.

(** Is [rest] at the end of a path element: [r == n] or a separator at
    [path[r]]. *)
Definition atElemEnd (rest : list ascii) : bool :=
  match rest with
  | [] => true
  | c :: _ => isPathSeparator c
  end.

(** The output buffer of [Clean] ([lazybuf]) is kept with its last byte
    first, so [out.w] is its length and [out.append c] is [c :: out]. *)

(** [for out.w > dotdot && !os.IsPathSeparator(out.index(out.w)) { out.w-- }]
    where [last] is the byte at [out.index(out.w)]. *)
Fixpoint backtrackLoop (dotdot : nat) (last : ascii) (out : list ascii)
    : list ascii :=
  match out with
  | [] => []
  | c :: out' =>
      if (dotdot <? length out) && negb (isPathSeparator last)
      then backtrackLoop dotdot c out'
      else out
  end.

(** [out.w--] followed by the loop above. *)
Definition backtrack (dotdot : nat) (out : list ascii) : list ascii :=
  match out with
  | [] => []
  | c :: out' => backtrackLoop dotdot c out'
  end.

(** The element starting at [rest] (up to the next separator) and what
    follows it. *)
Fixpoint splitElem (rest : list ascii) : list ascii * list ascii :=
  match rest with
  | [] => ([], [])
  | c :: rest' =>
      if isPathSeparator c then ([], rest)
      else let '(el, rest'') := splitElem rest' in (c :: el, rest'')
  end.

(** The main loop of [Clean]: [rest] is [path[r:]]; one unit of [fuel] per
    iteration, and every iteration consumes at least one byte. *)
Fixpoint cleanLoop (fuel : nat) (rooted : bool) (rest : list ascii)
    (out : list ascii) (dotdot : nat) : list ascii :=
  match fuel with
  | O => out
  | S fuel' =>
      match rest with
      | [] => out
      | c :: rest1 =>
          if isPathSeparator c then
            (* empty path element *)
            cleanLoop fuel' rooted rest1 out dotdot
          else if isDot c && atElemEnd rest1 then
            (* . element *)
            cleanLoop fuel' rooted rest1 out dotdot
          else if isDot c
                  && match rest1 with
                     | c1 :: rest2 => isDot c1 && atElemEnd rest2
                     | [] => false
                     end then
            (* .. element: remove to last separator *)
            let rest2 := tl rest1 in
            if dotdot <? length out then
              cleanLoop fuel' rooted rest2 (backtrack dotdot out) dotdot
            else if negb rooted then
              let out1 := if 0 <? length out then Separator :: out else out in
              let out2 := "."%char :: "."%char :: out1 in
              cleanLoop fuel' rooted rest2 out2 (length out2)
            else
              cleanLoop fuel' rooted rest2 out dotdot
          else
            (* real path element: add slash if needed, copy element *)
            let out1 :=
              if (rooted && negb (length out =? 1))
                 || (negb rooted && negb (length out =? 0))
              then Separator :: out else out in
            let '(el, rest') := splitElem rest in
            cleanLoop fuel' rooted rest' (rev el ++ out1) dotdot
      end
  end.

(** [filepath.Clean]. *)
Definition filepath_Clean (path : string) : string :=
  match list_ascii_of_string path with
  | [] => "."
  | c :: rest =>
      let rooted := isPathSeparator c in
      let out :=
        if rooted
        then cleanLoop (length rest) rooted rest [Separator] 1
        else cleanLoop (S (length rest)) rooted (c :: rest) [] 0 in
      match out with
      | [] => "."
      | _ => string_of_list_ascii (rev out)
      end
  end.

(** [filepath.Join]: empty elements are ignored, the rest is joined with
    the separator and cleaned. *)
Fixpoint filepath_Join (elem : list string) : string :=
  match elem with
  | [] => ""
  | e :: rest =>
      if String.eqb e "" then filepath_Join rest
      else filepath_Clean (strings_Join elem "/")
  end.

(** [filepath.Dir]: everything up to the last separator, cleaned. *)
Fixpoint lastSepEnd (l : list ascii) : nat :=
  match l with
  | [] => 0
  | c :: l' =>
      let k := lastSepEnd l' in
      if 0 <? k then S k else if isPathSeparator c then 1 else 0
  end.

Definition filepath_Dir (path : string) : string :=
  let l := list_ascii_of_string path in
  filepath_Clean (string_of_list_ascii (firstn (lastSepEnd l) l)).

(** Number of leading bytes of [l] that are not separators. *)
Fixpoint wordLen (l : list ascii) : nat :=
  match l with
  | [] => 0
  | c :: l' => if isPathSeparator c then 0 else S (wordLen l')
  end.

(** [for i < len(s) && s[i] != Separator { i++ }]: the final [i]. *)
Definition scanWord (s : list ascii) (i : nat) : nat :=
  i + wordLen (skipn i s).

(** [s[a:b]]. *)
Definition slice (s : list ascii) (a b : nat) : list ascii :=
  firstn (b - a) (skipn a s).

Definition bytes_eqb (a b : list ascii) : bool :=
  String.eqb (string_of_list_ascii a) (string_of_list_ascii b).

(** The loop of [Rel] that positions [base[b0:bi]] and [targ[t0:ti]] at the
    first differing elements; it returns the final [(b0, bi, t0, ti)]. *)
Fixpoint relLoop (fuel : nat) (base targ : list ascii)
    (b0 bi t0 ti : nat) : nat * nat * nat * nat :=
  match fuel with
  | O => (b0, bi, t0, ti)
  | S fuel' =>
      if (bi <? length base) && (ti <? length targ) then
        let bi1 := scanWord base bi in
        let ti1 := scanWord targ ti in
        if negb (bytes_eqb (slice targ t0 ti1) (slice base b0 bi1)) then
          (b0, bi1, t0, ti1)
        else
          let bi2 := if bi1 <? length base then S bi1 else bi1 in
          let ti2 := if ti1 <? length targ then S ti1 else ti1 in
          relLoop fuel' base targ bi2 bi2 ti2 ti2
      else (b0, bi, t0, ti)
  end.

(** [strings.Count(s, "/")]. *)
Definition countSep (s : list ascii) : nat :=
  length (List.filter isPathSeparator s).

(** [".."] followed by [seps] copies of ["/.."]. *)
Fixpoint upDirs (seps : nat) : list ascii :=
  match seps with
  | O => []
  | S n => Separator :: "."%char :: "."%char :: upDirs n
  end.

Definition relError (basepath targpath : string) : error :=
  errors_New ("Rel: can't make " +:+ targpath +:+ " relative to " +:+ basepath).

(** [filepath.Rel]: the path and the error it returns.  A target that
    cleans to [.] is walked as the empty path, as the base is, and after
    the loop it is the element of the base at [b0] that is looked at: a
    base with a [..] left is refused also when the elements of the target
    ran out first.  So [Rel("a", ".")] is [..], and [Rel("../..", "..")] is
    an error. *)
Definition filepath_Rel (basepath targpath : string)
    : string * option error :=
  let base := filepath_Clean basepath in
  let targ := filepath_Clean targpath in
  if String.eqb targ base then (".", None)
  else
    let base := if String.eqb base "." then "" else base in
    let targ := if String.eqb targ "." then "" else targ in
    let b := list_ascii_of_string base in
    let t := list_ascii_of_string targ in
    let baseSlashed := match b with c :: _ => isPathSeparator c | [] => false end in
    let targSlashed := match t with c :: _ => isPathSeparator c | [] => false end in
    if negb (Bool.eqb baseSlashed targSlashed) then
      ("", Some (relError basepath targpath))
    else
      let bl := length b in
      let tlen := length t in
      let '(b0, bi, t0, ti) := relLoop (S bl) b t 0 0 0 0 in
      if bytes_eqb (slice b b0 (scanWord b b0)) [ "."%char; "."%char ] then
        ("", Some (relError basepath targpath))
      else if negb (b0 =? bl) then
        let seps := countSep (slice b b0 bl) in
        let up := "."%char :: "."%char :: upDirs seps in
        let buf := if negb (t0 =? tlen) then up ++ Separator :: skipn t0 t else up in
        (string_of_list_ascii buf, None)
      else (string_of_list_ascii (skipn t0 t), None).

(** ** The elements of a path

    What follows is not part of the program: it describes a path by its
    elements, and is what the properties of [Clean], [Join] and [Rel] are
    stated and proved with. *)

(** The bytes of a path split at its separators. *)
Fixpoint comps (s : list ascii) : list (list ascii) :=
  match s with
  | [] => [[]]
  | c :: s' =>
      if isPathSeparator c then [] :: comps s'
      else match comps s' with
           | w :: ws => (c :: w) :: ws
           | [] => [[c]]
           end
  end.

(** What [Clean] has built so far: the number of leading [..] elements and
    the names after them, the last one first. *)
Record CleanState : Type := mkCleanState {
  ups : nat;
  names : list (list ascii)
}.

(** The effect of one element on what has been built. *)
Definition cleanStep (rooted : bool) (st : CleanState) (w : list ascii)
    : CleanState :=
  let push := {| ups := ups st; names := w :: names st |} in
  let up :=
    match names st with
    | _ :: ns => {| ups := ups st; names := ns |}
    | [] => if rooted then st else {| ups := S (ups st); names := [] |}
    end in
  match w with
  | [] => st
  | [d] => if isDot d then st else push
  | [d1; d2] => if isDot d1 && isDot d2 then up else push
  | _ => push
  end.

(** The bytes of [u] leading [..] elements, last byte first. *)
Fixpoint upsBuf (u : nat) : list ascii :=
  match u with
  | O => []
  | S u' =>
      match u' with
      | O => ["."%char; "."%char]
      | S _ => "."%char :: "."%char :: Separator :: upsBuf u'
      end
  end.

Definition rootBuf (rooted : bool) (u : nat) : list ascii :=
  if rooted then [Separator] else upsBuf u.

Definition needSep (rooted : bool) (below : list ascii) : bool :=
  (rooted && negb (length below =? 1))
  || (negb rooted && negb (length below =? 0)).

(** The output buffer that holds a state, last byte first. *)
Fixpoint stateBuf (rooted : bool) (u : nat) (ns : list (list ascii))
    : list ascii :=
  match ns with
  | [] => rootBuf rooted u
  | n :: ns' =>
      let below := stateBuf rooted u ns' in
      rev n ++ (if needSep rooted below then Separator :: below else below)
  end.

Definition noSep (w : list ascii) : Prop :=
  Forall (fun c => isPathSeparator c = false) w.

Definition dotdot : list ascii := ["."%char; "."%char].

(** A real path element: not empty, without separator, neither [.] nor
    [..]. *)
Definition isName (w : list ascii) : Prop :=
  w <> [] /\ noSep w /\ w <> ["."%char] /\ w <> dotdot.

(** A path element, real or [..]. *)
Definition isElem (w : list ascii) : Prop := w <> [] /\ noSep w.

(** The elements joined by separators. *)
Fixpoint joinSep (L : list (list ascii)) : list ascii :=
  match L with
  | [] => []
  | w :: L' =>
      match L' with
      | [] => w
      | _ :: _ => w ++ Separator :: joinSep L'
      end
  end.

(** The elements of a state, in path order. *)
Definition elems (st : CleanState) : list (list ascii) :=
  repeat dotdot (ups st) ++ rev (names st).

Definition initState : CleanState := {| ups := 0; names := [] |}.

Definition isRooted (l : list ascii) : bool :=
  match l with
  | c :: _ => isPathSeparator c
  | [] => false
  end.

(** The state [Clean] ends in on the bytes [l]. *)
Definition cleanState (l : list ascii) : CleanState :=
  foldl (cleanStep (isRooted l)) initState (comps l).

(** The bytes [Clean] returns for a state. *)
Definition renderState (rooted : bool) (st : CleanState) : list ascii :=
  if rooted then Separator :: joinSep (elems st)
  else match elems st with
       | [] => ["."%char]
       | _ :: _ => joinSep (elems st)
       end.


(** ** The elements [Rel] walks over *)

(** The first element of [s] and what follows its separator. *)
Definition takeWord (s : list ascii) : list ascii := firstn (wordLen s) s.

Definition afterWord (s : list ascii) : list ascii := skipn (S (wordLen s)) s.

(** The loop of [Rel] on what is left of the two paths: it returns
    [base[b0:]], [base[b0:bi]] and [targ[t0:]]. *)
Fixpoint relWalk (fuel : nat) (sb st : list ascii)
    : list ascii * list ascii * list ascii :=
  match fuel with
  | O => (sb, [], st)
  | S fuel' =>
      match sb, st with
      | _ :: _, _ :: _ =>
          if negb (bytes_eqb (takeWord st) (takeWord sb))
          then (sb, takeWord sb, st)
          else relWalk fuel' (afterWord sb) (afterWord st)
      | _, _ => (sb, [], st)
      end
  end.

(** Two lists of elements without their longest common prefix. *)
Fixpoint stripCommon (Lb Lt : list (list ascii))
    : list (list ascii) * list (list ascii) :=
  match Lb, Lt with
  | b :: Lb', t :: Lt' =>
      if bytes_eqb t b then stripCommon Lb' Lt' else (Lb, Lt)
  | _, _ => (Lb, Lt)
  end.

(** What [Rel] returns on the elements of the cleaned base and of the
    cleaned target, when it returns a path: as many [..] as the base has
    elements left after the common ones, then what is left of the target;
    no path when the first element left of the base is [..]. *)
Definition relSpec (Eb T : list (list ascii)) : option (list ascii) :=
  let Rb := (stripCommon Eb T).1 in
  let Rt := (stripCommon Eb T).2 in
  match Rb with
  | b :: _ =>
      if bytes_eqb b dotdot then None
      else Some (joinSep (repeat dotdot (length Rb) ++ Rt))
  | [] => Some (joinSep Rt)
  end.

(** The states [Clean] can be in: real names only and, for a rooted path,
    no leading [..]. *)
Definition stateWf (r : bool) (st : CleanState) : Prop :=
  Forall isName (names st) /\ (r = true -> ups st = 0).

(** The leading separator of a rooted path. *)
Definition rootPrefix (r : bool) : list ascii := if r then [Separator] else [].

(** ** The capabilities the engine consumes *)

(** [url.URL], the fields the program reads. *)
Record URL : Type := mkURL {
  Scheme : string;
  Host : string;
  Path : string
}.

(** One entry of [ListObjectsV2Output.Contents]. *)
Record s3Object : Type := mkS3Object {
  Key : string;
  Size : Z;
  LastModified : Time
}.

Record ListObjectsV2Output : Type := mkListOutput {
  Contents : list s3Object;
  NextContinuationToken : option string
}.

(** [os.FileInfo], the methods the program calls. *)
Record FileStat : Type := mkFileStat {
  IsDir : bool;
  statSize : Z;
  ModTime : Time
}.

(** One call of the [filepath.Walk] callback: [(path, stat, err)]. *)
Record Visit : Type := mkVisit {
  visitPath : string;
  visitStat : option FileStat;
  visitErr : option error
}.

(** The I/O the engine performs, for the log kept by the model. *)
Inductive IOEvent : Type :=
  | IOListObjectsV2 (p : s3Path) (token : option string)
  | IOStat (p : string)
  | IOWalk (p : string)
  | IOMkdirAll (dir : string)
  | IOCreate (file : string)
  | IOGetObject (bkt key : string).

(** The world around the engine: URL parsing, the S3 client, the file
    system, and the order in which the download goroutines reach the lock
    that guards [errMsgs]. *)
Record Env : Type := mkEnv {
  url_Parse : string -> URL + error;
  s3_ListObjectsV2 : s3Path -> option string -> ListObjectsV2Output + error;
  os_Stat : string -> FileStat + error;
  filepath_Walk : string -> list Visit;
  os_MkdirAll : string -> option error;
  os_Create : string -> option error;
  s3_Download : string -> string -> string -> option error;
  goroutineOrder : list fileInfo -> list fileInfo
}.

(** ** The remote lister *)

(** The body of [for _, object := range list.Contents]: what one object
    sends on the channel. *)
Definition sendObject (p : s3Path) (object : s3Object) : list fileInfo :=
  match filepath_Rel (bucketPrefix p) (Key object) with
  | (_, Some e) => sendErrorInfoToChannel e
  | (relName, None) =>
      [ {| err := None; name := relName; path := Key object;
           size := Size object; lastModified := LastModified object |} ]
  end.

(** [listS3FileWithToken]: the values sent and the token returned. *)
Definition listS3FileWithToken (env : Env) (p : s3Path)
    (token : option string) : list fileInfo * option string :=
  match s3_ListObjectsV2 env p token with
  | inr e => (sendErrorInfoToChannel e, None)
  | inl list =>
      (flat_map (sendObject p) (Contents list), NextContinuationToken list)
  end.

(** What a lister run produced: the values sent on its channel and the
    continuation tokens it requested pages with, in order. *)
Record Listing : Type := mkListing {
  sent : list fileInfo;
  requests : list (option string)
}.

(** The loop of [listS3Files], started with [token]; one unit of [fuel]
    per page request, [None] when the fuel runs out before the listing
    ends. *)
Fixpoint listS3FilesFrom (fuel : nat) (env : Env) (p : s3Path)
    (token : option string) : option Listing :=
  match fuel with
  | O => None
  | S fuel' =>
      let '(out, next) := listS3FileWithToken env p token in
      match next with
      | None => Some {| sent := out; requests := [token] |}
      | Some _ =>
          match listS3FilesFrom fuel' env p next with
          | None => None
          | Some l =>
              Some {| sent := out ++ sent l; requests := token :: requests l |}
          end
      end
  end.

(** [listS3Files]: [var token *string] starts as nil. *)
Definition listS3Files (fuel : nat) (env : Env) (p : s3Path)
    : option Listing :=
  listS3FilesFrom fuel env p None.

(** ** The local lister *)

(** [filepath.ToSlash] on Unix. *)
Definition filepath_ToSlash (p : string) : string := p.

Definition sendFileInfoToChannel (basePath path : string)
    (stat : option FileStat) : list fileInfo :=
  match stat with
  | None => []
  | Some st =>
      if IsDir st then []
      else
        let '(relPath, _) := filepath_Rel basePath path in
        [ {| err := None; name := relPath; path := path;
             size := statSize st; lastModified := ModTime st |} ]
  end.

(** [filepath.Walk] with the callback of [listLocalFiles]: the callback
    returns the error it is given, which stops the walk; otherwise it sends
    the file.  The result is what was sent and the error of the walk. *)
Fixpoint walkLoop (basePath : string) (visits : list Visit)
    : list fileInfo * option error :=
  match visits with
  | [] => ([], None)
  | v :: rest =>
      match visitErr v with
      | Some e => ([], Some e)
      | None =>
          let '(out, e) := walkLoop basePath rest in
          (sendFileInfoToChannel basePath (visitPath v) (visitStat v) ++ out, e)
      end
  end.

(** [listLocalFiles]: the values sent on the returned channel. *)
Definition listLocalFiles (env : Env) (basePath : string) : list fileInfo :=
  let basePath := filepath_ToSlash basePath in
  match os_Stat env basePath with
  | inr e =>
      if IsNotExist e then [] else sendErrorInfoToChannel e
  | inl stat =>
      sendFileInfoToChannel basePath basePath (Some stat)
      ++ (if negb (IsDir stat) then []
          else
            let '(out, e) := walkLoop basePath (filepath_Walk env basePath) in
            out ++ match e with
                   | Some e => sendErrorInfoToChannel e
                   | None => []
                   end)
  end.

(** The file-system calls of [listLocalFiles]. *)
Definition listLocalFilesIO (env : Env) (basePath : string) : list IOEvent :=
  let basePath := filepath_ToSlash basePath in
  IOStat basePath ::
  match os_Stat env basePath with
  | inl stat => if IsDir stat then [IOWalk basePath] else []
  | inr _ => []
  end.

(** What [filepath.Walk] hands to its function: the root as it was given
    and, for the entries of the directories below it, [Join(dir, name)],
    which is the root joined with real path elements. *)
Definition walksBelow (env : Env) (basePath : string) : Prop :=
  forall v, v ∈ filepath_Walk env basePath ->
    visitPath v = basePath
    \/ exists N, Forall isName N /\ N <> []
         /\ visitPath v
            = filepath_Join [basePath; string_of_list_ascii (joinSep N)].

(** ** The fetch pipeline *)

(** The bucket and key of the [s3.GetObjectInput] built by [download]. *)
Definition getObjectInput (file : fileInfo) (sourcePath : s3Path)
    : string * string :=
  (bucket sourcePath, filepath_Join [bucketPrefix sourcePath; name file]).

(** [download]: its error and the I/O it performed. *)
Definition download (env : Env) (file : fileInfo) (sourcePath : s3Path)
    (destPath : string) : option error * list IOEvent :=
  let targetFilename := filepath_Join [destPath; name file] in
  let targetDir := filepath_Dir targetFilename in
  match os_MkdirAll env targetDir with
  | Some e => (Some e, [IOMkdirAll targetDir])
  | None =>
      match os_Create env targetFilename with
      | Some e => (Some e, [IOMkdirAll targetDir; IOCreate targetFilename])
      | None =>
          let '(b, k) := getObjectInput file sourcePath in
          (s3_Download env b k targetFilename,
           [IOMkdirAll targetDir; IOCreate targetFilename; IOGetObject b k])
      end
  end.

(** The state shared by the goroutines of [syncS3ToLocal]: the slice
    [errMsgs], appended to under the mutex, and the I/O log of the model. *)
Record FetchState : Type := mkFetchState {
  errMsgs : list string;
  ioLog : list IOEvent
}.

(** The goroutine started for [source], run on the shared state. *)
Definition goroutine (env : Env) (sourcePath : s3Path) (destPath : string)
    (source : fileInfo) (st : FetchState) : FetchState :=
  match err source with
  | Some e => {| errMsgs := errMsgs st ++ [Error e]; ioLog := ioLog st |}
  | None =>
      match download env source sourcePath destPath with
      | (Some e, evs) =>
          {| errMsgs := errMsgs st ++ [Error e]; ioLog := ioLog st ++ evs |}
      | (None, evs) =>
          {| errMsgs := errMsgs st; ioLog := ioLog st ++ evs |}
      end
  end.

(** The goroutines run to completion in the given order. *)
Fixpoint runGoroutines (env : Env) (sourcePath : s3Path) (destPath : string)
    (order : list fileInfo) (st : FetchState) : FetchState :=
  match order with
  | [] => st
  | source :: rest =>
      runGoroutines env sourcePath destPath rest
        (goroutine env sourcePath destPath source st)
  end.

Definition newline : string := String "010"%char "".

(** The end of [syncS3ToLocal], after [wg.Wait()]. *)
Definition joinErrors (msgs : list string) : option error :=
  if (0 <? length msgs)%nat
  then Some (errors_New (strings_Join msgs newline))
  else None.

(** What a call returned and the I/O it performed. *)
Record Outcome : Type := mkOutcome {
  result : option error;
  io : list IOEvent
}.

(** [syncS3ToLocal], for runs in which the remote listing ends within
    [fuel] page requests. *)
Definition syncS3ToLocal (fuel : nat) (env : Env) (sourcePath : s3Path)
    (destPath : string) : option Outcome :=
  match listS3Files fuel env sourcePath with
  | None => None
  | Some remote =>
      let dispatched :=
        filterFilesForSync (sent remote) (listLocalFiles env destPath) in
      let st :=
        runGoroutines env sourcePath destPath (goroutineOrder env dispatched)
          {| errMsgs := []; ioLog := [] |} in
      Some {| result := joinErrors (errMsgs st);
              io := map (IOListObjectsV2 sourcePath) (requests remote)
                    ++ listLocalFilesIO env destPath ++ ioLog st |}
  end.

(** The failure message a dispatched record contributes, if any. *)
Definition failureOf (env : Env) (sourcePath : s3Path) (destPath : string)
    (source : fileInfo) : option string :=
  match err source with
  | Some e => Some (Error e)
  | None => Error <$> fst (download env source sourcePath destPath)
  end.



(** The file-system and bucket calls of [download]. *)
Definition isDownloadEvent (ev : IOEvent) : bool :=
  match ev with
  | IOMkdirAll _ | IOCreate _ | IOGetObject _ _ => true
  | _ => false
  end.

(** The I/O the goroutine started for [source] performs. *)
Definition goroutineIO (env : Env) (sourcePath : s3Path) (destPath : string)
    (source : fileInfo) : list IOEvent :=
  match err source with
  | Some _ => []
  | None => snd (download env source sourcePath destPath)
  end.

(** ** The sync manager *)

Definition isS3URL (u : URL) : bool := String.eqb (Scheme u) "s3".

Definition urlToS3Path (u : URL) : s3Path + error :=
  if String.eqb (Host u) ""
  then inr (errors_New "s3 url is missing bucket name")
  else inl {| bucket := Host u; bucketPrefix := trimSlashPrefix (Path u) |}.

Definition syncS3ToS3 (sourcePath destPath : s3Path) : option error :=
  Some (errors_New "S3 to S3 sync feature is not implemented").

Definition syncLocalToS3 (sourcePath : string) (destPath : s3Path)
    : option error :=
  Some (errors_New "Local to S3 sync feature is not implemented").

(** A return that involved no I/O. *)
Definition returns (e : option error) : option Outcome :=
  Some {| result := e; io := [] |}.

(** [Manager.Sync]. *)
Definition Sync (fuel : nat) (env : Env) (source dest : string)
    : option Outcome :=
  match url_Parse env source with
  | inr e => returns (Some e)
  | inl sourceURL =>
      match url_Parse env dest with
      | inr e => returns (Some e)
      | inl destURL =>
          if isS3URL sourceURL then
            match urlToS3Path sourceURL with
            | inr e => returns (Some e)
            | inl sourceS3Path =>
                if isS3URL destURL then
                  match urlToS3Path destURL with
                  | inr e => returns (Some e)
                  | inl destS3Path =>
                      returns (syncS3ToS3 sourceS3Path destS3Path)
                  end
                else syncS3ToLocal fuel env sourceS3Path dest
            end
          else if isS3URL destURL then
            match urlToS3Path destURL with
            | inr e => returns (Some e)
            | inl destS3Path => returns (syncLocalToS3 source destS3Path)
            end
          else returns (Some (errors_New "local to local sync is not supported"))
      end
  end.

(** ** Pages fetched before a listing ends *)

(** [pagesFetched env p tok outs last]: starting with token [tok], the
    requests of the lister succeed with the pages [outs], each page handing
    out the token of the next request; [last] is the token the lister asks
    for after them. *)
Inductive pagesFetched (env : Env) (p : s3Path)
    : option string -> list ListObjectsV2Output -> option string -> Prop :=
  | pagesFetched_nil tok : pagesFetched env p tok [] tok
  | pagesFetched_cons tok out next outs last :
      s3_ListObjectsV2 env p tok = inl out ->
      NextContinuationToken out = Some next ->
      pagesFetched env p (Some next) outs last ->
      pagesFetched env p tok (out :: outs) last.

(** The records of one page. *)
Definition pageRecords (p : s3Path) (out : ListObjectsV2Output)
    : list fileInfo :=
  flat_map (sendObject p) (Contents out).

(** ** Sample data *)

Module Sample.

Definition t100 : Time := {| sec := 63000000100; nsec := 0 |}.
Definition t200 : Time := {| sec := 63000000200; nsec := 0 |}.

Definition remoteA : fileInfo :=
  {| err := None; name := "a.txt"; path := "a.txt"; size := 10;
     lastModified := t100 |}.
Definition remoteB : fileInfo :=
  {| err := None; name := "dir/b.txt"; path := "dir/b.txt"; size := 20;
     lastModified := t200 |}.
Definition localA : fileInfo :=
  {| err := None; name := "a.txt"; path := "/local/a.txt"; size := 10;
     lastModified := t100 |}.
Definition localB : fileInfo :=
  {| err := None; name := "dir/b.txt"; path := "/local/dir/b.txt";
     size := 20; lastModified := t100 |}.
Definition localB' : fileInfo :=
  {| err := None; name := "dir/b.txt"; path := "/local/dir/b.txt";
     size := 20; lastModified := t200 |}.

Definition listFailed : error := errors_New "RequestError: send request failed".
Definition walkFailed : error := errors_New "lstat /local/dir: permission denied".

Definition notExist : error :=
  {| Error := "stat /missing: no such file or directory"; IsNotExist := true |}.

Definition page1 : ListObjectsV2Output :=
  {| Contents := [ {| Key := "a.txt"; Size := 10; LastModified := t100 |};
                   {| Key := "dir/b.txt"; Size := 20; LastModified := t200 |} ];
     NextContinuationToken := Some "t1" |}.

Definition dirStat : FileStat :=
  {| IsDir := true; statSize := 4096; ModTime := t200 |}.
Definition fileStat : FileStat :=
  {| IsDir := false; statSize := 10; ModTime := t100 |}.

(** Host and path of the text after [s3://]. *)
Fixpoint splitHost (s : string) : string * string :=
  match s with
  | "" => ("", "")
  | String c rest =>
      if Ascii.eqb c "/" then ("", s)
      else let '(h, p) := splitHost rest in (String c h, p)
  end.

(** A stand-in for [url.Parse] on the addresses used below. *)
Definition parse (s : string) : URL + error :=
  match s with
  | String "s" (String "3" (String ":" (String "/" (String "/" rest)))) =>
      let '(h, p) := splitHost rest in
      inl {| Scheme := "s3"; Host := h; Path := p |}
  | _ => inl {| Scheme := ""; Host := ""; Path := s |}
  end.

(** A bucket whose listing hands out one page and then fails, next to a
    local disk with the directory [/local], the regular file
    [/local/file.txt] and nothing else. *)
Definition env : Env :=
  {| url_Parse := parse;
     s3_ListObjectsV2 := fun _ token =>
       match token with
       | None => inl page1
       | Some _ => inr listFailed
       end;
     os_Stat := fun p =>
       if String.eqb p "/local" then inl dirStat
       else if String.eqb p "/local/file.txt" then inl fileStat
       else inr notExist;
     filepath_Walk := fun p =>
       if String.eqb p "/local"
       then [ {| visitPath := "/local"; visitStat := Some dirStat;
                 visitErr := None |};
              {| visitPath := "/local/file.txt"; visitStat := Some fileStat;
                 visitErr := None |} ]
       else [];
     os_MkdirAll := fun _ => None;
     os_Create := fun _ => None;
     s3_Download := fun _ key _ =>
       if String.eqb key "dir/b.txt"
       then Some (errors_New "NoSuchKey: dir/b.txt") else None;
     goroutineOrder := fun l => rev l |}.

Definition source : s3Path := {| bucket := "bucket"; bucketPrefix := "" |}.

(** Three dispatched records, and the order in which their goroutines
    complete. *)
Definition dispatched : list fileInfo :=
  [remoteA; remoteB; errorInfo listFailed].

Definition completed : list fileInfo :=
  [errorInfo listFailed; remoteB; remoteA].

(** An object whose key is not clean, under the prefix [dir], and the
    record the lister sends for it. *)
Definition dirSource : s3Path := {| bucket := "bucket"; bucketPrefix := "dir" |}.

Definition objectB' : s3Object :=
  {| Key := "dir//b.txt"; Size := 20; LastModified := t200 |}.

Definition remoteB' : fileInfo :=
  {| err := None; name := "b.txt"; path := "dir//b.txt"; size := 20;
     lastModified := t200 |}.

(** A bucket listed under the prefix [../..], holding one object whose key
    starts with the prefix and cleans to [..]. *)
Definition upSource : s3Path := {| bucket := "bucket"; bucketPrefix := "../.." |}.

Definition upEnv : Env :=
  {| url_Parse := parse;
     s3_ListObjectsV2 := fun _ _ =>
       inl {| Contents := [ {| Key := "../..x/.."; Size := 1;
                               LastModified := t100 |} ];
              NextContinuationToken := None |};
     os_Stat := fun _ => inr notExist;
     filepath_Walk := fun _ => [];
     os_MkdirAll := fun _ => None;
     os_Create := fun _ => None;
     s3_Download := fun _ _ _ => None;
     goroutineOrder := fun l => l |}.

End Sample.

(** ** More sample data *)

Module Store.

Definition page2 : ListObjectsV2Output :=
  {| Contents := [ {| Key := "c.txt"; Size := 30%Z;
                      LastModified := Sample.t200 |} ];
     NextContinuationToken := None |}.

Definition deniedFile : FileStat :=
  {| IsDir := false; statSize := 7%Z; ModTime := Sample.t100 |}.

(** A bucket whose listing ends after two pages, next to a local disk with
    the directory [/local] of [Sample.env] and the directory [/denied],
    whose walk fails at its second entry. *)
Definition env : Env :=
  {| url_Parse := Sample.parse;
     s3_ListObjectsV2 := fun _ token =>
       match token with
       | None => inl Sample.page1
       | Some _ => inl page2
       end;
     os_Stat := fun p =>
       if String.eqb p "/denied" then inl Sample.dirStat
       else os_Stat Sample.env p;
     filepath_Walk := fun p =>
       if String.eqb p "/denied"
       then [ {| visitPath := "/denied"; visitStat := Some Sample.dirStat;
                 visitErr := None |};
              {| visitPath := "/denied/a.txt"; visitStat := Some deniedFile;
                 visitErr := None |};
              {| visitPath := "/denied/dir"; visitStat := None;
                 visitErr := Some Sample.walkFailed |};
              {| visitPath := "/denied/z.txt"; visitStat := Some deniedFile;
                 visitErr := None |} ]
       else filepath_Walk Sample.env p;
     os_MkdirAll := fun _ => None;
     os_Create := fun p =>
       if String.eqb p "/missing/c.txt"
       then Some (errors_New "open /missing/c.txt: no space left on device")
       else None;
     s3_Download := fun _ _ _ => None;
     goroutineOrder := fun l => l |}.

Definition remoteC : fileInfo :=
  {| err := None; name := "c.txt"; path := "c.txt"; size := 30%Z;
     lastModified := Sample.t200 |}.

(** What the lister sends for this bucket, and its page requests. *)
Definition listing : Listing :=
  {| sent := [Sample.remoteA; Sample.remoteB; remoteC];
     requests := [None; Some "t1"] |}.

(** The call [Sync("s3://bucket", "/local")] on this bucket and disk. *)
Definition synced : Outcome :=
  {| result := None;
     io := [ IOListObjectsV2 Sample.source None;
             IOListObjectsV2 Sample.source (Some "t1");
             IOStat "/local"; IOWalk "/local";
             IOMkdirAll "/local"; IOCreate "/local/a.txt";
             IOGetObject "bucket" "a.txt";
             IOMkdirAll "/local/dir"; IOCreate "/local/dir/b.txt";
             IOGetObject "bucket" "dir/b.txt";
             IOMkdirAll "/local"; IOCreate "/local/c.txt";
             IOGetObject "bucket" "c.txt" ] |}.

(** The records of [/denied] and of [/local]. *)
Definition deniedA : fileInfo :=
  {| err := None; name := "a.txt"; path := "/denied/a.txt"; size := 7%Z;
     lastModified := Sample.t100 |}.

Definition localFile : fileInfo :=
  {| err := None; name := "file.txt"; path := "/local/file.txt";
     size := 10%Z; lastModified := Sample.t100 |}.

(** A record of the bucket for the file of [/local]. *)
Definition remoteFile : fileInfo :=
  {| err := None; name := "file.txt"; path := "file.txt"; size := 10%Z;
     lastModified := Sample.t100 |}.

(** A bucket that holds the key [foobar] next to the keys under the
    prefix [foo], and a key that starts with a separator. *)
Definition fooSource : s3Path := {| bucket := "bucket"; bucketPrefix := "foo" |}.

Definition foobar : s3Object :=
  {| Key := "foobar"; Size := 5%Z; LastModified := Sample.t100 |}.

Definition rootedKey : s3Object :=
  {| Key := "/abs.txt"; Size := 5%Z; LastModified := Sample.t100 |}.

(** A page with that key between two others. *)
Definition mixedPage : ListObjectsV2Output :=
  {| Contents := [ {| Key := "a.txt"; Size := 10%Z;
                      LastModified := Sample.t100 |};
                   rootedKey;
                   {| Key := "c.txt"; Size := 30%Z;
                      LastModified := Sample.t200 |} ];
     NextContinuationToken := None |}.

Definition objectB : s3Object :=
  {| Key := "dir/b.txt"; Size := 20%Z; LastModified := Sample.t200 |}.

End Store.

(** * Properties *)

(** ** Timestamps *)

Lemma time_After_Before (t u : Time) : time_After t u = time_Before u t.
Proof.
  unfold time_After, time_Before.
  destruct (Z.eqb_spec (sec t) (sec u)) as [Heq|Hne];
    destruct (Z.eqb_spec (sec u) (sec t)) as [Heq'|Hne']; try congruence.
Qed.

Lemma time_After_irrefl (t : Time) : time_After t t = false.
Proof.
  unfold time_After. rewrite !Z.ltb_irrefl, Z.eqb_refl. reflexivity.
Qed.

(** ** Go's [path/filepath]: what [Clean], [Rel] and [Join] compute *)

Example Clean_examples :
  map filepath_Clean
    [ ""; "abc//def//ghi"; "abc/./def"; "abc/def/../ghi/../jkl";
      "abc/def/../../.."; "/abc/def/../../.."; "/../abc"; "abc/";
      "abc/def/../../../ghi/jkl/../../../mno" ]
  = [ "."; "abc/def/ghi"; "abc/def"; "abc/jkl"; ".."; "/"; "/abc"; "abc";
      "../../mno" ].
Proof. reflexivity. Qed.

Example Rel_examples :
  map (fun bt => (filepath_Rel bt.1 bt.2).1)
    [ ("a/b", "a/b/."); ("ab/cd", "ab/cde"); ("a/b", "a/b/c/d");
      ("a/b/../c", "a/b"); ("a/b/c", "a/c/d"); ("a/b/c/d", "a/b/");
      ("../../a/b", "../../a/b/c/d"); ("/a/b/c", "/a/c/d");
      (".", "a/b"); (".", ".."); ("", "a.txt"); ("dir", "dir/");
      ("a", "."); ("a/b", "") ]
  = [ "."; "../cde"; "c/d"; "../b"; "../../c/d"; "../.."; "c/d";
      "../../c/d"; "a/b"; ".."; "a.txt"; "."; ".."; "../.." ].
Proof. reflexivity. Qed.

Example Rel_errors :
  map (fun bt => Error <$> (filepath_Rel bt.1 bt.2).2)
    [ ("..", "."); ("..", "a"); ("../..", ".."); ("a", "/a"); ("/a", "a") ]
  = [ Some "Rel: can't make . relative to ..";
      Some "Rel: can't make a relative to ..";
      Some "Rel: can't make .. relative to ../..";
      Some "Rel: can't make /a relative to a";
      Some "Rel: can't make a relative to /a" ].
Proof. reflexivity. Qed.

Example Join_Dir_examples :
  filepath_Join ["/local"; "dir/b.txt"] = "/local/dir/b.txt"
  /\ filepath_Join [""; "a.txt"] = "a.txt"
  /\ filepath_Dir "/local/dir/b.txt" = "/local/dir"
  /\ filepath_Dir "b.txt" = ".".
Proof. repeat split. Qed.

Lemma filepath_Rel_same_Clean (basepath targpath : string) :
  filepath_Clean targpath = filepath_Clean basepath ->
  filepath_Rel basepath targpath = (".", None).
Proof.
  intros H. unfold filepath_Rel. rewrite H, String.eqb_refl. reflexivity.
Qed.

Lemma isDot_not_sep c : isDot c = true -> isPathSeparator c = false.
Proof.
  unfold isDot, isPathSeparator. intros H. apply Ascii.eqb_eq in H. subst. reflexivity.
Qed.

Lemma comps_nonempty s : comps s <> [].
Proof.
  destruct s as [|c s]; simpl; [discriminate|].
  destruct (isPathSeparator c); [discriminate|].
  destruct (comps s); discriminate.
Qed.

Lemma comps_cons_word c s :
  isPathSeparator c = false ->
  comps (c :: s) = (c :: hd [] (comps s)) :: tl (comps s).
Proof.
  intros H. simpl. rewrite H.
  destruct (comps s) eqn:E; [|reflexivity].
  exfalso. exact (comps_nonempty s E).
Qed.

Lemma comps_sep s : comps (Separator :: s) = [] :: comps s.
Proof. reflexivity. Qed.

Lemma comps_word w : noSep w -> comps w = [w].
Proof.
  induction 1 as [|c w Hc Hw IH]; [reflexivity|].
  rewrite comps_cons_word by exact Hc. rewrite IH. reflexivity.
Qed.

Lemma comps_app_sep s1 s2 :
  comps (s1 ++ Separator :: s2) = comps s1 ++ comps s2.
Proof.
  induction s1 as [|c s1 IH]; [reflexivity|].
  simpl app. destruct (isPathSeparator c) eqn:Hc.
  - simpl. rewrite Hc. rewrite <- IH. reflexivity.
  - rewrite !comps_cons_word by exact Hc. rewrite IH.
    destruct (comps s1) eqn:E; [exfalso; exact (comps_nonempty s1 E)|].
    reflexivity.
Qed.

(** [splitElem] cuts the bytes at the end of their first element. *)
Lemma splitElem_spec rest :
  let '(el, rest') := splitElem rest in
  rest = el ++ rest' /\ noSep el /\ atElemEnd rest' = true.
Proof.
  induction rest as [|c rest IH]; simpl.
  - repeat split. constructor.
  - destruct (isPathSeparator c) eqn:Hc.
    + repeat split; [constructor|]. simpl. exact Hc.
    + destruct (splitElem rest) as [el rest']. destruct IH as (-> & Hel & Hend).
      repeat split; [|exact Hend]. constructor; assumption.
Qed.

Lemma foldl_comps_word {A} (f : A -> list ascii -> A) (Hnil : forall a, f a [] = a)
    (a : A) (w rest : list ascii) :
  noSep w -> atElemEnd rest = true ->
  foldl f a (comps (w ++ rest)) = foldl f (f a w) (comps rest).
Proof.
  intros Hw Hend. destruct rest as [|c rest].
  - rewrite app_nil_r, comps_word by exact Hw. simpl. rewrite Hnil. reflexivity.
  - simpl in Hend. unfold isPathSeparator in Hend. apply Ascii.eqb_eq in Hend. subst c.
    rewrite comps_app_sep, comps_word by exact Hw. rewrite comps_sep. simpl.
    rewrite Hnil. reflexivity.
Qed.

(** The output buffer of [Clean] on a state, and backing up in it. *)

Lemma stateBuf_length_ge r u ns :
  length (rootBuf r u) <= length (stateBuf r u ns).
Proof.
  induction ns as [|n ns IH]; simpl; [lia|].
  rewrite length_app. destruct (needSep r (stateBuf r u ns)); simpl; lia.
Qed.

Lemma backtrackLoop_word dotdot last cs tail :
  noSep cs -> isPathSeparator last = false ->
  dotdot <= length tail ->
  exists last', isPathSeparator last' = false
    /\ backtrackLoop dotdot last (cs ++ tail) = backtrackLoop dotdot last' tail.
Proof.
  intros Hcs. revert last. induction Hcs as [|c cs Hc Hcs IH]; intros last Hlast Hdd.
  - exists last. split; [exact Hlast|reflexivity].
  - cbn [app backtrackLoop].
    replace (dotdot <? length (c :: cs ++ tail)) with true
      by (symmetry; apply Nat.ltb_lt; simpl; rewrite length_app; lia).
    rewrite Hlast. cbn [andb negb]. apply IH; assumption.
Qed.

Lemma noSep_rev w : noSep w -> noSep (rev w).
Proof. unfold noSep. rewrite !List.Forall_forall. intros H c Hc. apply H. apply in_rev. exact Hc. Qed.

Lemma backtrack_stateBuf r u n ns :
  isName n -> (r = true -> u = 0) ->
  backtrack (length (rootBuf r u)) (stateBuf r u (n :: ns)) = stateBuf r u ns.
Proof.
  intros (Hne & Hn & _) Hr. cbn [stateBuf].
  pose proof (stateBuf_length_ge r u ns) as Hlen.
  set (below := stateBuf r u ns) in *.
  apply noSep_rev in Hn.
  destruct (rev n) as [|c cs] eqn:Hrev.
  { exfalso. apply Hne. apply (f_equal (@rev _)) in Hrev. rewrite rev_involutive in Hrev. exact Hrev. }
  inversion Hn as [|? ? Hc Hcs]; subst.
  cbn [app backtrack].
  destruct (needSep r below) eqn:Hsep.
  - destruct (backtrackLoop_word (length (rootBuf r u)) c cs (Separator :: below) Hcs Hc)
      as (l' & Hl' & ->); [simpl; lia|].
    cbn [backtrackLoop].
    replace (length (rootBuf r u) <? length (Separator :: below)) with true
      by (symmetry; apply Nat.ltb_lt; simpl; lia).
    rewrite Hl'. cbn [andb negb].
    destruct below; [reflexivity|]. cbn [backtrackLoop].
    rewrite andb_false_r. reflexivity.
  - destruct (backtrackLoop_word (length (rootBuf r u)) c cs below Hcs Hc)
      as (l' & Hl' & ->); [lia|].
    unfold needSep in Hsep. destruct r; simpl in Hsep.
    + rewrite orb_false_r in Hsep. apply negb_false_iff, Nat.eqb_eq in Hsep.
      destruct below as [|b [|b' below']]; try discriminate.
      simpl. reflexivity.
    + apply negb_false_iff, Nat.eqb_eq in Hsep.
      destruct below; [reflexivity|discriminate].
Qed.

Lemma cleanStep_nil r st : cleanStep r st [] = st.
Proof. reflexivity. Qed.

Lemma cleanStep_wf r st w :
  noSep w -> stateWf r st -> stateWf r (cleanStep r st w).
Proof.
  intros Hw [Hns Hr].
  assert (Hpush : w <> [] -> w <> ["."%char] -> w <> dotdot ->
                  stateWf r {| ups := ups st; names := w :: names st |}).
  { intros Hne H1 H2. split; [constructor; [repeat split; assumption|exact Hns]|exact Hr]. }
  assert (Hup : stateWf r
            match names st with
            | _ :: ns => {| ups := ups st; names := ns |}
            | [] => if r then st else {| ups := S (ups st); names := [] |}
            end).
  { destruct (names st) as [|n ns] eqn:E.
    - destruct r; split; simpl; try rewrite E; try constructor; auto. discriminate.
    - split; simpl; [inversion Hns; assumption|exact Hr]. }
  unfold cleanStep. destruct w as [|d1 [|d2 [|d3 w]]].
  - split; assumption.
  - destruct (isDot d1) eqn:E; [split; assumption|apply Hpush; try discriminate].
    intros [= ->]. discriminate.
  - destruct (isDot d1 && isDot d2) eqn:E; [exact Hup|apply Hpush; try discriminate].
    intros [= -> ->]. discriminate.
  - apply Hpush; discriminate.
Qed.

Lemma cleanStep_dotdot r st c c1 :
  isDot c = true -> isDot c1 = true ->
  cleanStep r st [c; c1]
  = match names st with
    | _ :: ns => {| ups := ups st; names := ns |}
    | [] => if r then st else {| ups := S (ups st); names := [] |}
    end.
Proof. intros H H1. unfold cleanStep. rewrite H, H1. reflexivity. Qed.

Lemma upsBuf_S u :
  upsBuf (S u)
  = "."%char :: "."%char
    :: (if 0 <? length (upsBuf u) then Separator :: upsBuf u else upsBuf u).
Proof. destruct u as [|[|u]]; reflexivity. Qed.

Lemma cleanLoop_spec fuel : forall rest r u ns,
  length rest <= fuel ->
  stateWf r {| ups := u; names := ns |} ->
  cleanLoop fuel r rest (stateBuf r u ns) (length (rootBuf r u))
  = stateBuf r
      (ups (foldl (cleanStep r) {| ups := u; names := ns |} (comps rest)))
      (names (foldl (cleanStep r) {| ups := u; names := ns |} (comps rest))).
Proof.
  induction fuel as [|fuel IH]; intros rest r u ns Hlen Hwf.
  { destruct rest; [reflexivity|simpl in Hlen; lia]. }
  destruct rest as [|c rest1]; [reflexivity|].
  simpl in Hlen. cbn [cleanLoop].
  destruct (isPathSeparator c) eqn:Hc.
  { (* empty element *)
    rewrite IH by (try lia; exact Hwf).
    simpl comps. rewrite Hc. reflexivity. }
  destruct (isDot c && atElemEnd rest1) eqn:Hdot.
  { (* . *)
    apply andb_true_iff in Hdot as [Hd Hend].
    rewrite IH by (try lia; exact Hwf).
    change (c :: rest1) with ([c] ++ rest1).
    rewrite (foldl_comps_word (cleanStep r) (cleanStep_nil r)); [|repeat constructor; exact Hc|exact Hend].
    simpl. rewrite Hd. reflexivity. }
  destruct (isDot c && match rest1 with
                       | [] => false
                       | c1 :: rest2 => isDot c1 && atElemEnd rest2
                       end) eqn:Hdd.
  { (* .. *)
    apply andb_true_iff in Hdd as [Hd Hdd].
    destruct rest1 as [|c1 rest2]; [discriminate|].
    apply andb_true_iff in Hdd as [Hd1 Hend].
    cbn [tl]. simpl in Hlen.
    change (c :: c1 :: rest2) with ([c; c1] ++ rest2).
    rewrite (foldl_comps_word (cleanStep r) (cleanStep_nil r));
      [|repeat constructor; [exact Hc|apply isDot_not_sep; exact Hd1]|exact Hend].
    pose proof (cleanStep_wf r {| ups := u; names := ns |} [c; c1]) as Hwf'.
    specialize (Hwf' ltac:(repeat constructor; [exact Hc|apply isDot_not_sep; exact Hd1]) Hwf).
    rewrite (cleanStep_dotdot _ _ _ _ Hd Hd1) in *. cbn [names ups] in *.
    destruct ns as [|n ns'].
    - replace (length (rootBuf r u) <? length (stateBuf r u [])) with false
        by (symmetry; apply Nat.ltb_ge; simpl; lia).
      destruct r; cbn [negb].
      + apply (IH rest2 true u []); [lia|exact Hwf].
      + change (rootBuf false u) with (upsBuf u). cbn [stateBuf rootBuf].
        rewrite <- upsBuf_S.
        apply (IH rest2 false (S u) []); [lia|exact Hwf'].
    - destruct Hwf as [Hns Hr]. inversion Hns as [|? ? Hn Hns']; subst.
      replace (length (rootBuf r u) <? length (stateBuf r u (n :: ns'))) with true.
      2:{ symmetry. apply Nat.ltb_lt. cbn [stateBuf]. rewrite length_app, length_rev.
          pose proof (stateBuf_length_ge r u ns'). destruct Hn as [Hne _].
          destruct n; [congruence|]. destruct (needSep r (stateBuf r u ns')); simpl; lia. }
      rewrite backtrack_stateBuf by assumption.
      apply (IH rest2 r u ns'); [lia|exact Hwf']. }
  (* real element *)
  destruct (splitElem rest1) as [el' rest'] eqn:Hsplit.
  pose proof (splitElem_spec rest1) as Hspec. rewrite Hsplit in Hspec.
  destruct Hspec as (-> & Hel' & Hend).
  assert (Hsp : splitElem (c :: el' ++ rest') = (c :: el', rest')).
  { simpl. rewrite Hc, Hsplit. reflexivity. }
  rewrite Hsp.
  change (c :: el' ++ rest') with ((c :: el') ++ rest').
  rewrite (foldl_comps_word (cleanStep r) (cleanStep_nil r));
    [|constructor; assumption|exact Hend].
  assert (Hpush : cleanStep r {| ups := u; names := ns |} (c :: el')
                  = {| ups := u; names := (c :: el') :: ns |}).
  { unfold cleanStep. destruct el' as [|d2 [|d3 el'']]; cbn [app] in *.
    - rewrite Hend, andb_true_r in Hdot. rewrite Hdot. reflexivity.
    - cbn [app] in Hdd. rewrite Hend, andb_true_r in Hdd. rewrite Hdd. reflexivity.
    - reflexivity. }
  rewrite Hpush.
  rewrite length_app in Hlen. 
  rewrite <- (IH rest' r u ((c :: el') :: ns)).
  - reflexivity.
  - lia.
  - destruct Hwf as [Hns Hr]. split; [|exact Hr].
    constructor; [|exact Hns].
    assert (Hst : stateWf r (cleanStep r {| ups := u; names := ns |} (c :: el'))).
    { apply cleanStep_wf; [constructor; assumption|split; assumption]. }
    rewrite Hpush in Hst. destruct Hst as [Hst _]. inversion Hst; assumption.
Qed.

Lemma isName_isElem w : isName w -> isElem w.
Proof. intros (H1 & H2 & _). split; assumption. Qed.

Lemma dotdot_isElem : isElem dotdot.
Proof.
  split; [discriminate|]. repeat constructor.
Qed.

Lemma joinSep_cons w L :
  L <> [] -> joinSep (w :: L) = w ++ Separator :: joinSep L.
Proof. destruct L; [congruence|reflexivity]. Qed.

Lemma joinSep_snoc L w :
  joinSep (L ++ [w])
  = match L with [] => w | _ :: _ => joinSep L ++ Separator :: w end.
Proof.
  induction L as [|x L IH]; [reflexivity|].
  destruct L as [|y L]; [reflexivity|].
  change ((x :: y :: L) ++ [w]) with (x :: ((y :: L) ++ [w])).
  rewrite joinSep_cons by (simpl; discriminate). rewrite IH.
  rewrite (joinSep_cons x (y :: L)) by discriminate.
  rewrite <- app_assoc. reflexivity.
Qed.

Lemma joinSep_nil L : Forall isElem L -> joinSep L = [] -> L = [].
Proof.
  intros HL H. destruct L as [|w L]; [reflexivity|].
  inversion HL as [|? ? [Hw _] _]; subst.
  destruct L; simpl in H; [congruence|].
  destruct w; [congruence|discriminate].
Qed.

Lemma repeat_snoc {A} (x : A) n : repeat x (S n) = repeat x n ++ [x].
Proof. induction n as [|n IH]; [reflexivity|]. simpl in *. rewrite <- IH. reflexivity. Qed.

Lemma rev_upsBuf u : rev (upsBuf u) = joinSep (repeat dotdot u).
Proof.
  induction u as [|u IH]; [reflexivity|].
  rewrite upsBuf_S, repeat_snoc, joinSep_snoc.
  destruct u as [|u]; [reflexivity|].
  replace (0 <? length (upsBuf (S u))) with true by (destruct u; reflexivity).
  change (rev ("."%char :: "."%char :: Separator :: upsBuf (S u)))
    with (((rev (upsBuf (S u)) ++ [Separator]) ++ ["."%char]) ++ ["."%char]).
  rewrite IH, <- !app_assoc. reflexivity.
Qed.

Lemma Forall_isElem_ups_app u L :
  Forall isElem L -> Forall isElem (repeat dotdot u ++ L).
Proof.
  intros H. apply Forall_app. split; [|exact H].
  apply Forall_forall. intros x Hx.
  apply list_elem_of_In, repeat_spec in Hx. subst. exact dotdot_isElem.
Qed.

Lemma Forall_isElem_elems u ns :
  Forall isName ns -> Forall isElem (repeat dotdot u ++ rev ns).
Proof.
  intros H. apply Forall_isElem_ups_app, Forall_rev.
  eapply Forall_impl; [exact H|]. apply isName_isElem.
Qed.

Lemma rev_stateBuf_false u ns :
  Forall isName ns ->
  rev (stateBuf false u ns) = joinSep (repeat dotdot u ++ rev ns).
Proof.
  induction 1 as [|n ns Hn Hns IH].
  - simpl. rewrite app_nil_r. apply rev_upsBuf.
  - cbn [stateBuf]. pose proof (Forall_isElem_elems u ns Hns) as HE.
    change (rev (n :: ns)) with (rev ns ++ [n]).
    rewrite app_assoc, joinSep_snoc, rev_app_distr, rev_involutive.
    unfold needSep. cbn [andb negb orb].
    destruct (stateBuf false u ns) as [|b below] eqn:Eb.
    + simpl in IH. symmetry in IH. apply joinSep_nil in IH; [|exact HE].
      rewrite IH. reflexivity.
    + cbn [length Nat.eqb negb].
      destruct (repeat dotdot u ++ rev ns) as [|e E] eqn:EE.
      * simpl in IH. apply (f_equal (@length _)) in IH.
        rewrite length_app in IH. simpl in IH. lia.
      * rewrite <- IH.
        change (rev (Separator :: b :: below)) with (rev (b :: below) ++ [Separator]).
        rewrite <- app_assoc. reflexivity.
Qed.

Lemma rev_stateBuf_true ns :
  Forall isName ns ->
  rev (stateBuf true 0 ns) = Separator :: joinSep (rev ns).
Proof.
  induction 1 as [|n ns Hn Hns IH]; [reflexivity|].
  cbn [stateBuf]. change (rev (n :: ns)) with (rev ns ++ [n]).
  rewrite joinSep_snoc.
  unfold needSep. cbn [andb negb orb]. rewrite orb_false_r.
  assert (HE : Forall isElem (rev ns)).
  { apply Forall_rev. eapply Forall_impl; [exact Hns|]. apply isName_isElem. }
  rewrite rev_app_distr, rev_involutive.
  set (below := stateBuf true 0 ns) in *.
  assert (Hlen : length below = S (length (joinSep (rev ns))))
    by (rewrite <- length_rev, IH; reflexivity).
  destruct (rev ns) as [|e E] eqn:EE.
  - simpl in Hlen. rewrite Hlen. simpl. rewrite IH. reflexivity.
  - assert (Hne : joinSep (e :: E) <> []).
    { intros H0. apply joinSep_nil in H0; [discriminate|exact HE]. }
    replace (length below =? 1) with false.
    2:{ symmetry. apply Nat.eqb_neq. destruct (joinSep (e :: E)); [congruence|simpl in Hlen; lia]. }
    cbn [negb]. change (rev (Separator :: below)) with (rev below ++ [Separator]).
    rewrite IH. rewrite <- app_assoc. reflexivity.
Qed.

Lemma comps_noSep l : Forall noSep (comps l).
Proof.
  induction l as [|c l IH]; [repeat constructor|].
  simpl. destruct (isPathSeparator c) eqn:Hc.
  - constructor; [constructor|exact IH].
  - destruct (comps l) as [|w ws]; [repeat constructor; exact Hc|].
    inversion IH; subst. constructor; [constructor; assumption|assumption].
Qed.

Lemma foldl_cleanStep_wf r st L :
  Forall noSep L -> stateWf r st -> stateWf r (foldl (cleanStep r) st L).
Proof.
  intros HL. revert st. induction HL as [|w L Hw HL IH]; intros st Hst; [exact Hst|].
  simpl. apply IH. apply cleanStep_wf; assumption.
Qed.

Lemma initState_wf r : stateWf r initState.
Proof. split; [constructor|reflexivity]. Qed.

Lemma cleanState_wf l : stateWf (isRooted l) (cleanState l).
Proof. apply foldl_cleanStep_wf; [apply comps_noSep|apply initState_wf]. Qed.

Lemma stateBuf_render r st :
  stateWf r st ->
  match stateBuf r (ups st) (names st) with
  | [] => ["."%char]
  | out => rev out
  end = renderState r st.
Proof.
  intros [Hns Hr]. unfold renderState, elems. destruct r.
  - rewrite (Hr eq_refl). simpl repeat. cbn [app].
    rewrite <- rev_stateBuf_true by exact Hns.
    destruct (stateBuf true 0 (names st)) eqn:E; [|reflexivity].
    pose proof (stateBuf_length_ge true 0 (names st)) as H. rewrite E in H. simpl in H. lia.
  - pose proof (rev_stateBuf_false (ups st) (names st) Hns) as H.
    pose proof (Forall_isElem_elems (ups st) (names st) Hns) as HE.
    destruct (stateBuf false (ups st) (names st)) as [|a l] eqn:E.
    + symmetry in H. apply joinSep_nil in H; [|exact HE]. rewrite H. reflexivity.
    + destruct (repeat dotdot (ups st) ++ rev (names st)) as [|e E'] eqn:EE.
      * apply (f_equal (@length _)) in H. rewrite length_rev in H. discriminate.
      * exact H.
Qed.

Lemma string_match_nil (out : list ascii) :
  match out with
  | [] => "."
  | _ :: _ => string_of_list_ascii (rev out)
  end
  = string_of_list_ascii match out with [] => ["."%char] | _ => rev out end.
Proof. destruct out; reflexivity. Qed.

(** [Clean] returns the rendering of the state its elements lead to. *)
Lemma filepath_Clean_spec path :
  let l := list_ascii_of_string path in
  filepath_Clean path
  = string_of_list_ascii (renderState (isRooted l) (cleanState l)).
Proof.
  intros l. unfold filepath_Clean. fold l.
  rewrite <- (stateBuf_render _ _ (cleanState_wf l)).
  destruct l as [|c rest]; [reflexivity|].
  unfold cleanState. cbn [isRooted].
  destruct (isPathSeparator c) eqn:Hc.
  - pose proof (cleanLoop_spec (length rest) rest true 0 [] (le_n _)
                  (initState_wf true)) as H.
    change (stateBuf true 0 []) with [Separator] in H.
    change (length (rootBuf true 0)) with 1 in H.
    rewrite H. simpl comps. rewrite Hc. cbn [foldl cleanStep]. fold initState.
    destruct (stateBuf true _ _); reflexivity.
  - pose proof (cleanLoop_spec (S (length rest)) (c :: rest) false 0 []
                  (le_n _) (initState_wf false)) as H.
    change (stateBuf false 0 []) with (@nil ascii) in H.
    change (length (rootBuf false 0)) with 0 in H.
    rewrite H. fold initState.
    destruct (stateBuf false _ _); reflexivity.
Qed.

Lemma comps_joinSep L :
  Forall isElem L -> L <> [] -> comps (joinSep L) = L.
Proof.
  induction 1 as [|w L [Hne Hw] HL IH]; [congruence|]. intros _.
  destruct L as [|w' L]; [apply comps_word; exact Hw|].
  rewrite joinSep_cons by discriminate.
  rewrite comps_app_sep, comps_word by exact Hw.
  rewrite IH by discriminate. reflexivity.
Qed.

Lemma cleanStep_name r st n :
  isName n -> cleanStep r st n = {| ups := ups st; names := n :: names st |}.
Proof.
  intros (Hne & _ & H1 & H2). unfold cleanStep.
  destruct n as [|d1 [|d2 [|d3 n]]]; [congruence| | |reflexivity].
  - destruct (isDot d1) eqn:E; [|reflexivity].
    apply Ascii.eqb_eq in E. subst. congruence.
  - destruct (isDot d1 && isDot d2) eqn:E; [|reflexivity].
    apply andb_true_iff in E as [E1 E2].
    apply Ascii.eqb_eq in E1, E2. subst. unfold dotdot in H2. congruence.
Qed.

Lemma cleanStep_up r st :
  cleanStep r st dotdot
  = match names st with
    | _ :: ns => {| ups := ups st; names := ns |}
    | [] => if r then st else {| ups := S (ups st); names := [] |}
    end.
Proof. reflexivity. Qed.

Lemma foldl_cleanStep_names r st N :
  Forall isName N ->
  foldl (cleanStep r) st N = {| ups := ups st; names := rev N ++ names st |}.
Proof.
  intros HN. revert st. induction HN as [|n N Hn HN IH]; intros st.
  - destruct st; reflexivity.
  - cbn [foldl]. rewrite cleanStep_name by exact Hn. rewrite IH.
    cbn [ups names rev]. rewrite <- app_assoc. reflexivity.
Qed.

Lemma foldl_cleanStep_ups u j :
  foldl (cleanStep false) {| ups := u; names := [] |} (repeat dotdot j)
  = {| ups := u + j; names := [] |}.
Proof.
  revert u. induction j as [|j IH]; intros u.
  - simpl. rewrite Nat.add_0_r. reflexivity.
  - cbn [repeat foldl]. rewrite cleanStep_up. cbn [names ups].
    rewrite IH. f_equal. lia.
Qed.

Lemma foldl_cleanStep_pops r u S ns :
  foldl (cleanStep r) {| ups := u; names := S ++ ns |}
    (repeat dotdot (length S))
  = {| ups := u; names := ns |}.
Proof.
  induction S as [|s S IH]; [reflexivity|].
  cbn [length repeat foldl]. rewrite cleanStep_up. cbn [names ups app].
  exact IH.
Qed.

Lemma foldl_cleanStep_elems r st :
  stateWf r st -> foldl (cleanStep r) initState (elems st) = st.
Proof.
  intros [Hns Hr]. unfold elems. rewrite foldl_app.
  assert (H : foldl (cleanStep r) initState (repeat dotdot (ups st))
              = {| ups := ups st; names := [] |}).
  { destruct r.
    - rewrite Hr by reflexivity. reflexivity.
    - apply (foldl_cleanStep_ups 0). }
  rewrite H, foldl_cleanStep_names by (apply Forall_rev; exact Hns).
  cbn [ups names]. rewrite rev_involutive, app_nil_r. destruct st; reflexivity.
Qed.

Lemma isRooted_joinSep L :
  Forall isElem L -> isRooted (joinSep L) = false.
Proof.
  intros HL. destruct L as [|w L]; [reflexivity|].
  inversion HL as [|? ? [Hne Hw] _]; subst.
  destruct w as [|c w]; [congruence|]. inversion Hw; subst.
  destruct L; simpl; assumption.
Qed.

Lemma elems_isElem r st : stateWf r st -> Forall isElem (elems st).
Proof. intros [H _]. apply Forall_isElem_elems. exact H. Qed.

Lemma isRooted_renderState r st :
  stateWf r st -> isRooted (renderState r st) = r.
Proof.
  intros Hwf. unfold renderState. destruct r; [reflexivity|].
  pose proof (isRooted_joinSep _ (elems_isElem _ _ Hwf)) as H.
  destruct (elems st); [reflexivity|exact H].
Qed.

(** Cleaning what [Clean] returned leads to the same state. *)
Lemma cleanState_renderState r st :
  stateWf r st -> cleanState (renderState r st) = st.
Proof.
  intros Hwf. unfold cleanState. rewrite (isRooted_renderState _ _ Hwf).
  pose proof (elems_isElem _ _ Hwf) as HE.
  rewrite <- (foldl_cleanStep_elems r st Hwf) at 2.
  unfold renderState. destruct r.
  - rewrite comps_sep. cbn [foldl]. rewrite cleanStep_nil.
    destruct (elems st) as [|e E] eqn:EE; [reflexivity|].
    rewrite comps_joinSep; [reflexivity|exact HE|discriminate].
  - destruct (elems st) as [|e E] eqn:EE; [reflexivity|].
    rewrite comps_joinSep; [reflexivity|exact HE|discriminate].
Qed.

Lemma wordLen_le s : wordLen s <= length s.
Proof. induction s as [|c s IH]; simpl; [lia|]. destruct (isPathSeparator c); simpl; lia. Qed.

Lemma skipn_nil_ge {A} (l : list A) n : length l <= n -> skipn n l = [].
Proof. intros H. apply skipn_all2. exact H. Qed.

Lemma skipn_cons_lt {A} (l : list A) n :
  n < length l -> exists x, skipn n l = x :: skipn (S n) l.
Proof.
  revert l. induction n as [|n IH]; intros [|x l] H; simpl in H; try lia.
  - exists x. reflexivity.
  - destruct (IH l) as [y Hy]; [lia|]. exists y. exact Hy.
Qed.

Lemma bytes_eqb_eq a b : bytes_eqb a b = true <-> a = b.
Proof.
  unfold bytes_eqb. rewrite String.eqb_eq. split; [|congruence].
  intros H. apply (f_equal list_ascii_of_string) in H.
  rewrite !list_ascii_of_string_of_list_ascii in H. exact H.
Qed.

Lemma bytes_eqb_refl a : bytes_eqb a a = true.
Proof. apply bytes_eqb_eq. reflexivity. Qed.

(** The loop of [Rel] on indices agrees with the walk on what is left of
    the two paths. *)
Lemma relLoop_relWalk base targ fuel : forall bi ti,
  bi <= length base -> ti <= length targ ->
  let '(b0, bi', t0, ti') := relLoop fuel base targ bi bi ti ti in
  b0 <= length base /\ t0 <= length targ
  /\ relWalk fuel (skipn bi base) (skipn ti targ)
     = (skipn b0 base, slice base b0 bi', skipn t0 targ).
Proof.
  induction fuel as [|fuel IH]; intros bi ti Hb Ht.
  { simpl. unfold slice. rewrite Nat.sub_diag. auto. }
  cbn [relLoop relWalk].
  destruct (bi <? length base) eqn:Eb; cbn [andb].
  2:{ apply Nat.ltb_ge in Eb. rewrite (skipn_nil_ge base bi Eb).
      unfold slice. rewrite Nat.sub_diag. auto. }
  apply Nat.ltb_lt in Eb. destruct (skipn_cons_lt base bi Eb) as [cb Hcb].
  destruct (ti <? length targ) eqn:Et.
  2:{ apply Nat.ltb_ge in Et. rewrite (skipn_nil_ge targ ti Et), Hcb.
      unfold slice. rewrite Nat.sub_diag. rewrite <- Hcb. auto. }
  apply Nat.ltb_lt in Et. destruct (skipn_cons_lt targ ti Et) as [ct Hct].
  rewrite Hcb, Hct. rewrite <- Hcb, <- Hct.
  unfold scanWord. 
  set (sb := skipn bi base) in *. set (st := skipn ti targ) in *.
  assert (Hsb : slice base bi (bi + wordLen sb) = takeWord sb).
  { unfold slice, takeWord. fold sb. f_equal. lia. }
  assert (Hst : slice targ ti (ti + wordLen st) = takeWord st).
  { unfold slice, takeWord. fold st. f_equal. lia. }
  rewrite Hsb, Hst.
  destruct (negb (bytes_eqb (takeWord st) (takeWord sb))).
  { rewrite Hsb. auto. }
  pose proof (wordLen_le sb) as Hwb. pose proof (wordLen_le st) as Hwt.
  assert (Hlb : length sb = length base - bi) by (unfold sb; apply length_skipn).
  assert (Hlt : length st = length targ - ti) by (unfold st; apply length_skipn).
  set (bi2 := if bi + wordLen sb <? length base then S (bi + wordLen sb) else bi + wordLen sb).
  set (ti2 := if ti + wordLen st <? length targ then S (ti + wordLen st) else ti + wordLen st).
  assert (Hb2 : bi2 <= length base /\ skipn bi2 base = afterWord sb).
  { unfold bi2, afterWord. subst sb. rewrite skipn_skipn.
    set (n := wordLen (skipn bi base)) in *.
    destruct (bi + n <? length base) eqn:E.
    - apply Nat.ltb_lt in E. split; [lia|]. f_equal. lia.
    - apply Nat.ltb_ge in E. split; [lia|].
      rewrite !skipn_nil_ge; [reflexivity| |]; lia. }
  assert (Ht2 : ti2 <= length targ /\ skipn ti2 targ = afterWord st).
  { unfold ti2, afterWord. subst st. rewrite skipn_skipn.
    set (n := wordLen (skipn ti targ)) in *.
    destruct (ti + n <? length targ) eqn:E.
    - apply Nat.ltb_lt in E. split; [lia|]. f_equal. lia.
    - apply Nat.ltb_ge in E. split; [lia|].
      rewrite !skipn_nil_ge; [reflexivity| |]; lia. }
  destruct Hb2 as [Hb2 Hb2'], Ht2 as [Ht2 Ht2'].
  specialize (IH bi2 ti2 Hb2 Ht2). rewrite Hb2', Ht2' in IH. exact IH.
Qed.

Lemma wordLen_app w rest :
  noSep w -> atElemEnd rest = true -> wordLen (w ++ rest) = length w.
Proof.
  intros Hw Hend. induction Hw as [|c w Hc Hw IH]; cbn [app wordLen length].
  - destruct rest; [reflexivity|]. cbn [atElemEnd] in Hend. cbn [wordLen].
    rewrite Hend. reflexivity.
  - rewrite Hc, IH. reflexivity.
Qed.

Lemma joinSep_split b L :
  exists rest, joinSep (b :: L) = b ++ rest /\ atElemEnd rest = true
               /\ skipn 1 rest = joinSep L.
Proof.
  destruct L as [|b' L].
  - exists []. simpl. rewrite app_nil_r. auto.
  - exists (Separator :: joinSep (b' :: L)). rewrite joinSep_cons by discriminate. auto.
Qed.

Lemma takeWord_joinSep b L : noSep b -> takeWord (joinSep (b :: L)) = b.
Proof.
  intros Hb. destruct (joinSep_split b L) as (rest & -> & Hend & _).
  unfold takeWord. rewrite wordLen_app by assumption.
  rewrite firstn_app, Nat.sub_diag, firstn_all. simpl. apply app_nil_r.
Qed.

Lemma afterWord_joinSep b L : noSep b -> afterWord (joinSep (b :: L)) = joinSep L.
Proof.
  intros Hb. destruct (joinSep_split b L) as (rest & -> & Hend & Hrest).
  unfold afterWord. rewrite wordLen_app by assumption.
  rewrite <- Hrest. change (S (length b)) with (1 + length b).
  rewrite <- skipn_skipn. f_equal.
  rewrite skipn_app, Nat.sub_diag, skipn_all. reflexivity.
Qed.

Lemma joinSep_cons_nonempty b L : isElem b -> exists c s, joinSep (b :: L) = c :: s.
Proof.
  intros [Hne _]. destruct b as [|c b]; [congruence|].
  destruct L; simpl; eauto.
Qed.

(** On joined elements the walk strips the common leading elements. *)
Lemma relWalk_joinSep fuel : forall Lb Lt,
  Forall isElem Lb -> Forall isElem Lt -> length Lb < fuel ->
  relWalk fuel (joinSep Lb) (joinSep Lt)
  = (joinSep (stripCommon Lb Lt).1,
     match (stripCommon Lb Lt).1, (stripCommon Lb Lt).2 with
     | b :: _, _ :: _ => b
     | _, _ => []
     end,
     joinSep (stripCommon Lb Lt).2).
Proof.
  induction fuel as [|fuel IH]; intros Lb Lt HLb HLt Hfuel; [lia|].
  destruct Lb as [|b Lb]; [destruct Lt; reflexivity|].
  destruct Lt as [|t Lt].
  { cbn [relWalk stripCommon fst snd]. destruct (joinSep (b :: Lb)); reflexivity. }
  inversion HLb as [|? ? Hb HLb']; inversion HLt as [|? ? Ht HLt']; subst.
  destruct (joinSep_cons_nonempty b Lb Hb) as (cb & sb & Hsb).
  destruct (joinSep_cons_nonempty t Lt Ht) as (ct & st & Hst).
  cbn [relWalk]. rewrite Hsb, Hst. rewrite <- Hsb, <- Hst.
  rewrite !takeWord_joinSep, !afterWord_joinSep by (apply Hb || apply Ht).
  cbn [stripCommon]. destruct (bytes_eqb t b) eqn:E; cbn [negb fst snd].
  - apply IH; [assumption|assumption|simpl in Hfuel; lia].
  - reflexivity.
Qed.

Lemma joinSep_eq_dot L :
  Forall isElem L -> joinSep L = ["."%char] -> L = [["."%char]].
Proof.
  intros HL H. destruct L as [|w [|w' L]]; simpl in H; [discriminate|congruence|].
  inversion HL as [|? ? [Hne _] _]; subst.
  destruct w as [|c [|c' w]]; [congruence| |]; simpl in H; discriminate.
Qed.

Lemma elems_not_dot r st : stateWf r st -> ~ In ["."%char] (elems st).
Proof.
  intros [Hns _] Hin. unfold elems in Hin. apply in_app_or in Hin as [Hin|Hin].
  - apply repeat_spec in Hin. discriminate.
  - apply in_rev in Hin. rewrite List.Forall_forall in Hns.
    destruct (Hns _ Hin) as (_ & _ & H & _). congruence.
Qed.

Lemma string_bytes (l : list ascii) :
  list_ascii_of_string (string_of_list_ascii l) = l.
Proof. apply list_ascii_of_string_of_list_ascii. Qed.

Lemma string_eqb_bytes (a b : list ascii) :
  String.eqb (string_of_list_ascii a) (string_of_list_ascii b) = bytes_eqb a b.
Proof. reflexivity. Qed.

Lemma base_bytes r st :
  stateWf r st ->
  list_ascii_of_string
    (if String.eqb (string_of_list_ascii (renderState r st)) "."
     then "" else string_of_list_ascii (renderState r st))
  = (if r then [Separator] else []) ++ joinSep (elems st).
Proof.
  intros Hwf. unfold renderState. destruct r.
  - replace (String.eqb (string_of_list_ascii (Separator :: joinSep (elems st))) ".")
      with false by reflexivity.
    apply string_bytes.
  - destruct (elems st) as [|e E] eqn:EE; [reflexivity|].
    change "." with (string_of_list_ascii ["."%char]).
    rewrite string_eqb_bytes.
    destruct (bytes_eqb (joinSep (e :: E)) ["."%char]) eqn:Eq.
    + exfalso. apply bytes_eqb_eq in Eq. rewrite <- EE in Eq.
      apply joinSep_eq_dot in Eq; [|exact (elems_isElem _ _ Hwf)].
      apply (elems_not_dot _ _ Hwf). rewrite Eq. left. reflexivity.
    + apply string_bytes.
Qed.

Lemma dot_isElem : isElem ["."%char].
Proof. split; [discriminate|repeat constructor]. Qed.

Lemma length_joinSep_ge L : Forall isElem L -> length L <= length (joinSep L).
Proof.
  induction 1 as [|w L [Hne _] HL IH]; [reflexivity|].
  destruct w as [|c w]; [congruence|].
  destruct L as [|w' L]; [simpl; lia|].
  rewrite joinSep_cons by discriminate. rewrite length_app. simpl in *. lia.
Qed.

Lemma stripCommon_suffix Lb Lt :
  (exists C, Lb = C ++ (stripCommon Lb Lt).1 /\ Lt = C ++ (stripCommon Lb Lt).2).
Proof.
  revert Lt. induction Lb as [|b Lb IH]; intros Lt; [exists []; auto|].
  destruct Lt as [|t Lt]; [exists []; auto|].
  cbn [stripCommon]. destruct (bytes_eqb t b) eqn:E; [|exists []; auto].
  apply bytes_eqb_eq in E. subst t.
  destruct (IH Lt) as (C & H1 & H2). exists (b :: C). simpl. split; congruence.
Qed.

Lemma stripCommon_isElem Lb Lt :
  Forall isElem Lb -> Forall isElem Lt ->
  Forall isElem (stripCommon Lb Lt).1 /\ Forall isElem (stripCommon Lb Lt).2.
Proof.
  intros Hb Ht. destruct (stripCommon_suffix Lb Lt) as (C & H1 & H2).
  rewrite H1 in Hb. rewrite H2 in Ht.
  apply Forall_app in Hb as [_ Hb]. apply Forall_app in Ht as [_ Ht]. auto.
Qed.

Lemma countSep_noSep w : noSep w -> countSep w = 0.
Proof.
  unfold countSep. induction 1 as [|c w Hc Hw IH]; [reflexivity|].
  cbn [List.filter]. rewrite Hc. exact IH.
Qed.

Lemma countSep_app a b : countSep (a ++ b) = countSep a + countSep b.
Proof. unfold countSep. rewrite List.filter_app, length_app. reflexivity. Qed.

Lemma countSep_joinSep L :
  Forall isElem L -> countSep (joinSep L) = pred (length L).
Proof.
  induction 1 as [|w L [_ Hw] HL IH]; [reflexivity|].
  destruct L as [|w' L]; [simpl; apply countSep_noSep; exact Hw|].
  rewrite joinSep_cons by discriminate.
  rewrite countSep_app, countSep_noSep by exact Hw.
  change (countSep (Separator :: joinSep (w' :: L)))
    with (S (countSep (joinSep (w' :: L)))).
  rewrite IH. reflexivity.
Qed.

Lemma upDirs_joinSep n :
  "."%char :: "."%char :: upDirs n = joinSep (repeat dotdot (S n)).
Proof.
  induction n as [|n IH]; [reflexivity|].
  change (repeat dotdot (S (S n))) with (dotdot :: repeat dotdot (S n)).
  rewrite joinSep_cons by discriminate. rewrite <- IH. reflexivity.
Qed.

Lemma joinSep_app A B :
  A <> [] -> B <> [] ->
  joinSep (A ++ B) = joinSep A ++ Separator :: joinSep B.
Proof.
  intros HA HB. induction A as [|a A IH]; [congruence|].
  destruct A as [|a' A].
  - simpl app. rewrite joinSep_cons by exact HB. reflexivity.
  - change ((a :: a' :: A) ++ B) with (a :: ((a' :: A) ++ B)).
    rewrite joinSep_cons by (simpl; discriminate).
    rewrite IH by discriminate.
    rewrite (joinSep_cons a (a' :: A)) by discriminate.
    rewrite <- app_assoc. reflexivity.
Qed.

Lemma isRooted_rootPrefix r L :
  Forall isElem L -> isRooted (rootPrefix r ++ joinSep L) = r.
Proof.
  intros HL. destruct r; [reflexivity|]. apply isRooted_joinSep. exact HL.
Qed.

Lemma relWalk_sep fuel X Y :
  relWalk (S fuel) (Separator :: X) (Separator :: Y) = relWalk fuel X Y.
Proof. reflexivity. Qed.

Lemma relWalk_rootPrefix r Lb Lt :
  Forall isElem Lb -> Forall isElem Lt ->
  relWalk (S (length (rootPrefix r ++ joinSep Lb)))
    (rootPrefix r ++ joinSep Lb) (rootPrefix r ++ joinSep Lt)
  = (joinSep (stripCommon Lb Lt).1,
     match (stripCommon Lb Lt).1, (stripCommon Lb Lt).2 with
     | b :: _, _ :: _ => b
     | _, _ => []
     end,
     joinSep (stripCommon Lb Lt).2).
Proof.
  intros HLb HLt. pose proof (length_joinSep_ge Lb HLb) as Hlen.
  destruct r; cbn [rootPrefix app].
  - rewrite relWalk_sep.
    apply relWalk_joinSep; [assumption|assumption|simpl; lia].
  - apply relWalk_joinSep; [assumption|assumption|lia].
Qed.

Lemma eqb_length_skipn {A} (l : list A) n :
  n <= length l ->
  (n =? length l) = match skipn n l with [] => true | _ :: _ => false end.
Proof.
  intros H. destruct (Nat.eqb_spec n (length l)) as [->|Hne].
  - rewrite skipn_all. reflexivity.
  - destruct (skipn_cons_lt l n) as [x ->]; [lia|reflexivity].
Qed.

Lemma slice_to_end {A : Type} (l : list ascii) n :
  slice l n (length l) = skipn n l.
Proof.
  unfold slice. rewrite <- (length_skipn n l). apply firstn_all.
Qed.

Lemma joinSep_cons_ne b L : isElem b -> joinSep (b :: L) <> [].
Proof.
  intros Hb H. destruct (joinSep_cons_nonempty b L Hb) as (c & s & E). congruence.
Qed.

(** [Rel] on the elements of the cleaned base and target. *)
Lemma filepath_Rel_spec p k :
  filepath_Rel p k
  = if String.eqb (filepath_Clean k) (filepath_Clean p) then (".", None)
    else if negb (Bool.eqb (isRooted (list_ascii_of_string p))
                    (isRooted (list_ascii_of_string k)))
    then ("", Some (relError p k))
    else match relSpec (elems (cleanState (list_ascii_of_string p)))
                 (elems (cleanState (list_ascii_of_string k))) with
         | None => ("", Some (relError p k))
         | Some n => (string_of_list_ascii n, None)
         end.
Proof.
  cbv beta zeta delta [filepath_Rel].
  destruct (String.eqb (filepath_Clean k) (filepath_Clean p)); [reflexivity|].
  pose proof (filepath_Clean_spec p) as Hp. pose proof (filepath_Clean_spec k) as Hk.
  cbv zeta in Hp, Hk. rewrite Hp, Hk. clear Hp Hk.
  set (lp := list_ascii_of_string p). set (lk := list_ascii_of_string k).
  pose proof (cleanState_wf lp) as Hwp. pose proof (cleanState_wf lk) as Hwk.
  set (rp := isRooted lp) in *. set (rk := isRooted lk) in *.
  set (sp := cleanState lp) in *. set (sk := cleanState lk) in *.
  rewrite (base_bytes _ _ Hwp), (base_bytes _ _ Hwk).
  pose proof (elems_isElem _ _ Hwp) as HEb.
  pose proof (elems_isElem _ _ Hwk) as HEt.
  fold (rootPrefix rp). fold (rootPrefix rk).
  set (Eb := elems sp) in *. set (T := elems sk) in *.
  change (match rootPrefix rp ++ joinSep Eb with
          | [] => false | c :: _ => isPathSeparator c end)
    with (isRooted (rootPrefix rp ++ joinSep Eb)).
  change (match rootPrefix rk ++ joinSep T with
          | [] => false | c :: _ => isPathSeparator c end)
    with (isRooted (rootPrefix rk ++ joinSep T)).
  rewrite !isRooted_rootPrefix by assumption.
  destruct (Bool.eqb rp rk) eqn:Hr; cbn [negb]; [|reflexivity].
  apply Bool.eqb_prop in Hr. rewrite <- Hr. clear Hr.
  set (b := rootPrefix rp ++ joinSep Eb). set (t := rootPrefix rp ++ joinSep T).
  pose proof (relLoop_relWalk b t (S (length b)) 0 0 (Nat.le_0_l _) (Nat.le_0_l _)) as Hloop.
  destruct (relLoop (S (length b)) b t 0 0 0 0) as [[[b0 bi] t0] ti].
  destruct Hloop as (Hb0 & Ht0 & Hwalk).
  unfold b, t in Hwalk. rewrite !skipn_O in Hwalk.
  rewrite relWalk_rootPrefix in Hwalk by assumption.
  change (rootPrefix rp ++ joinSep Eb) with b in Hwalk.
  change (rootPrefix rp ++ joinSep T) with t in Hwalk.
  destruct (stripCommon_isElem Eb T HEb HEt) as [HRb HRt].
  unfold relSpec.
  set (Rb := (stripCommon Eb T).1) in *. set (Rt := (stripCommon Eb T).2) in *.
  injection Hwalk as Hrb _ Hrt.
  assert (Hword : slice b b0 (scanWord b b0) = takeWord (joinSep Rb)).
  { rewrite Hrb. unfold slice, scanWord, takeWord. f_equal. lia. }
  rewrite Hword, (eqb_length_skipn b b0 Hb0), (eqb_length_skipn t t0 Ht0).
  rewrite (slice_to_end (A := ascii)), <- Hrb, <- Hrt.
  destruct Rb as [|b1 Rb'].
  - reflexivity.
  - pose proof HRb as HRb0. apply Forall_cons in HRb0 as [Hb1 HRb'].
    rewrite (takeWord_joinSep b1 Rb') by apply Hb1.
    change ["."%char; "."%char] with dotdot.
    destruct (bytes_eqb b1 dotdot); [reflexivity|].
    pose proof (joinSep_cons_ne b1 Rb' Hb1) as Hne.
    destruct (joinSep (b1 :: Rb')) as [|c s] eqn:EJ; [congruence|]. rewrite <- EJ.
    cbn [negb]. rewrite (countSep_joinSep _ HRb). cbn [length pred].
    rewrite upDirs_joinSep.
    destruct Rt as [|t1 Rt'].
    + cbn [joinSep negb]. rewrite app_nil_r. reflexivity.
    + apply Forall_cons in HRt as [Ht1 HRt'].
      pose proof (joinSep_cons_ne t1 Rt' Ht1) as Hnet.
      destruct (joinSep (t1 :: Rt')) as [|c' s'] eqn:EJt; [congruence|]. rewrite <- EJt.
      cbn [negb]. rewrite <- joinSep_app by discriminate. reflexivity.
Qed.

Lemma Clean_bytes x :
  list_ascii_of_string (filepath_Clean x)
  = renderState (isRooted (list_ascii_of_string x))
      (cleanState (list_ascii_of_string x)).
Proof.
  pose proof (filepath_Clean_spec x) as H. cbv zeta in H. rewrite H.
  apply string_bytes.
Qed.

Lemma bytes_string (s : string) :
  string_of_list_ascii (list_ascii_of_string s) = s.
Proof. apply string_of_list_ascii_of_string. Qed.

(** [Clean] gives the same result on two paths of the same kind that lead
    to the same state. *)
Lemma filepath_Clean_of_state x r st :
  isRooted (list_ascii_of_string x) = r ->
  cleanState (list_ascii_of_string x) = st ->
  filepath_Clean x = string_of_list_ascii (renderState r st).
Proof.
  intros <- <-. pose proof (filepath_Clean_spec x) as H. exact H.
Qed.

Lemma filepath_Clean_idem x :
  filepath_Clean (filepath_Clean x) = filepath_Clean x.
Proof.
  pose proof (cleanState_wf (list_ascii_of_string x)) as Hwf.
  rewrite (filepath_Clean_of_state (filepath_Clean x)
             (isRooted (list_ascii_of_string x))
             (cleanState (list_ascii_of_string x))).
  - symmetry. apply filepath_Clean_spec.
  - rewrite Clean_bytes. apply isRooted_renderState. exact Hwf.
  - rewrite Clean_bytes. apply cleanState_renderState. exact Hwf.
Qed.

Lemma bytes_append (a b : string) :
  list_ascii_of_string (a +:+ b)
  = list_ascii_of_string a ++ list_ascii_of_string b.
Proof. induction a as [|c a IH]; [reflexivity|]. simpl. rewrite IH. reflexivity. Qed.

(** The state [Clean] reaches on [p/n], for a [p] that is not empty. *)
Lemma cleanState_join lp ln :
  lp <> [] ->
  isRooted (lp ++ Separator :: ln) = isRooted lp
  /\ cleanState (lp ++ Separator :: ln)
     = foldl (cleanStep (isRooted lp)) (cleanState lp) (comps ln).
Proof.
  intros Hne. assert (Hr : isRooted (lp ++ Separator :: ln) = isRooted lp)
    by (destruct lp; [congruence|reflexivity]).
  split; [exact Hr|]. unfold cleanState. rewrite Hr, comps_app_sep, foldl_app.
  reflexivity.
Qed.

Lemma filepath_Join_two p n :
  p <> "" ->
  filepath_Join [p; n] = filepath_Clean (p +:+ "/" +:+ n).
Proof.
  intros Hne. cbn [filepath_Join]. destruct (String.eqb_spec p ""); [congruence|].
  reflexivity.
Qed.

Lemma filepath_Join_empty n :
  n <> "" -> filepath_Join [""; n] = filepath_Clean n.
Proof.
  intros Hne. cbn [filepath_Join]. cbn [String.eqb].
  destruct (String.eqb_spec n ""); [congruence|]. reflexivity.
Qed.

Lemma names_suffix u N C R :
  Forall isName N ->
  repeat dotdot u ++ N = C ++ R ->
  match R with [] => True | b :: _ => b <> dotdot end ->
  Forall isName R.
Proof.
  intros HN. revert C. induction u as [|u IH]; intros C H Hhd.
  - simpl in H. rewrite H in HN. apply Forall_app in HN as [_ HN]. exact HN.
  - destruct C as [|c C].
    + simpl in H. subst R. simpl in Hhd. congruence.
    + simpl in H. injection H as _ H. exact (IH C H Hhd).
Qed.

Lemma elems_nil st : elems st = [] -> st = initState.
Proof.
  unfold elems. intros H. apply app_eq_nil in H as [Hu Hn].
  destruct st as [u ns]. simpl in *.
  destruct u; [|discriminate].
  apply (f_equal (@rev _)) in Hn. rewrite rev_involutive in Hn. subst. reflexivity.
Qed.

Lemma stripCommon_nil_eq Lb Lt :
  (stripCommon Lb Lt).1 = [] -> (stripCommon Lb Lt).2 = [] -> Lb = Lt.
Proof.
  intros H1 H2. destruct (stripCommon_suffix Lb Lt) as (C & Hb & Ht).
  rewrite H1 in Hb. rewrite H2 in Ht. congruence.
Qed.

Lemma relSpec_Some Eb T nl :
  relSpec Eb T = Some nl ->
  nl = joinSep (repeat dotdot (length (stripCommon Eb T).1) ++ (stripCommon Eb T).2)
  /\ (forall b Rb', (stripCommon Eb T).1 = b :: Rb' -> b <> dotdot).
Proof.
  unfold relSpec. destruct (stripCommon Eb T).1 as [|b Rb'].
  - intros [= <-]. split; [reflexivity|]. discriminate.
  - destruct (bytes_eqb b dotdot) eqn:E; [discriminate|].
    intros [= <-]. split; [reflexivity|].
    intros b0 Rb0 [= <- <-] ->. rewrite bytes_eqb_refl in E. discriminate.
Qed.

(** The heart of the matter: joining the base with what [Rel] returned
    leads [Clean] to the state of the target. *)
Lemma foldl_cleanStep_rel r sp sk nl :
  stateWf r sp -> stateWf r sk ->
  relSpec (elems sp) (elems sk) = Some nl ->
  elems sp <> elems sk ->
  nl <> [] /\ foldl (cleanStep r) sp (comps nl) = sk.
Proof.
  intros Hwp Hwk Hspec Hne.
  apply relSpec_Some in Hspec as [-> Hdd].
  destruct (stripCommon_suffix (elems sp) (elems sk)) as (C & HEb & HT).
  destruct (stripCommon_isElem _ _ (elems_isElem _ _ Hwp) (elems_isElem _ _ Hwk))
    as [HRb HRt].
  set (Rb := (stripCommon (elems sp) (elems sk)).1) in *.
  set (Rt := (stripCommon (elems sp) (elems sk)).2) in *.
  assert (HNb : Forall isName Rb).
  { destruct Hwp as [Hns _].
    apply (names_suffix (ups sp) (rev (names sp)) C); [apply Forall_rev; exact Hns|exact HEb|].
    destruct Rb as [|b Rb'] eqn:ERb; [exact I|].
    exact (Hdd b Rb' eq_refl). }
  assert (HNL : repeat dotdot (length Rb) ++ Rt <> []).
  { intros H. apply app_eq_nil in H as [H1 H2].
    destruct Rb; [|discriminate]. apply Hne. rewrite HEb, HT, H2. reflexivity. }
  assert (HE : Forall isElem (repeat dotdot (length Rb) ++ Rt)).
  { apply Forall_isElem_ups_app. exact HRt. }
  split.
  { intros H. apply joinSep_nil in H; [congruence|exact HE]. }
  rewrite comps_joinSep by assumption. rewrite foldl_app.
  set (sC := foldl (cleanStep r) initState C).
  assert (Hsp : sp = {| ups := ups sC; names := rev Rb ++ names sC |}).
  { rewrite <- (foldl_cleanStep_elems r sp Hwp) at 1. rewrite HEb, foldl_app.
    fold sC. apply foldl_cleanStep_names. exact HNb. }
  rewrite Hsp. rewrite <- (length_rev Rb), foldl_cleanStep_pops.
  replace {| ups := ups sC; names := names sC |} with sC by (destruct sC; reflexivity).
  unfold sC. rewrite <- foldl_app, <- HT. apply foldl_cleanStep_elems. exact Hwk.
Qed.

Lemma renderState_elems r st st' :
  elems st = elems st' -> renderState r st = renderState r st'.
Proof. unfold renderState. intros ->. reflexivity. Qed.

Lemma dotdot_not_rooted st : stateWf true st -> ~ In dotdot (elems st).
Proof.
  intros [Hns Hu] Hin. unfold elems in Hin. rewrite (Hu eq_refl) in Hin.
  simpl in Hin. apply in_rev in Hin. rewrite List.Forall_forall in Hns.
  destruct (Hns _ Hin) as (_ & _ & _ & H). congruence.
Qed.

Lemma relSpec_nil T : relSpec [] T = Some (joinSep T).
Proof. reflexivity. Qed.

(** What [Rel] has to say about a target that does not clean to the
    base: the two begin alike, and [Rel] returns the path of [relSpec] on
    their elements. *)
Lemma filepath_Rel_elems p k n :
  filepath_Rel p k = (n, None) ->
  filepath_Clean k <> filepath_Clean p ->
  isRooted (list_ascii_of_string k) = isRooted (list_ascii_of_string p)
  /\ elems (cleanState (list_ascii_of_string p))
     <> elems (cleanState (list_ascii_of_string k))
  /\ exists nl,
       relSpec (elems (cleanState (list_ascii_of_string p)))
         (elems (cleanState (list_ascii_of_string k))) = Some nl
       /\ n = string_of_list_ascii nl.
Proof.
  intros HRel Hne. rewrite filepath_Rel_spec in HRel.
  apply String.eqb_neq in Hne as Heq. rewrite Heq in HRel.
  destruct (negb (Bool.eqb (isRooted (list_ascii_of_string p))
                    (isRooted (list_ascii_of_string k)))) eqn:Hr;
    [discriminate|].
  apply negb_false_iff, Bool.eqb_prop in Hr.
  split; [symmetry; exact Hr|]. split.
  - intros HE. apply Hne.
    rewrite (filepath_Clean_spec p), (filepath_Clean_spec k). cbv zeta.
    rewrite <- Hr. f_equal. symmetry. apply renderState_elems. exact HE.
  - destruct (relSpec _ _) as [nl|]; [|discriminate].
    injection HRel as <-. exists nl. auto.
Qed.

(** Joining a base with the path [Rel] made of a target gives the cleaned
    target back. *)
Theorem filepath_Join_Rel p k n :
  filepath_Rel p k = (n, None) ->
  filepath_Join [p; n] = filepath_Clean k.
Proof.
  intros HRel.
  pose proof (cleanState_wf (list_ascii_of_string p)) as Hwp.
  pose proof (cleanState_wf (list_ascii_of_string k)) as Hwk.
  pose proof (filepath_Clean_spec p) as HCp. pose proof (filepath_Clean_spec k) as HCk.
  cbv zeta in HCp, HCk.
  destruct (String.eqb_spec (filepath_Clean k) (filepath_Clean p)) as [Heq|Hne].
  - (* the target cleans to the base *)
    rewrite (filepath_Rel_same_Clean _ _ Heq) in HRel.
    injection HRel as <-. rewrite Heq.
    destruct (String.eqb_spec p "") as [->|Hp]; [reflexivity|].
    assert (Hlp : list_ascii_of_string p <> []).
    { destruct p; [congruence|discriminate]. }
    rewrite filepath_Join_two by exact Hp.
    destruct (cleanState_join (list_ascii_of_string p) ["."%char] Hlp) as [H1 H2].
    rewrite (filepath_Clean_of_state (p +:+ "/" +:+ ".")
               (isRooted (list_ascii_of_string p))
               (cleanState (list_ascii_of_string p))).
    + symmetry. exact HCp.
    + rewrite !bytes_append. exact H1.
    + rewrite !bytes_append. exact H2.
  - destruct (filepath_Rel_elems p k n HRel Hne) as (Hr & HE & nl & Hspec & ->).
    rewrite Hr in Hwk.
    destruct (foldl_cleanStep_rel _ _ _ nl Hwp Hwk Hspec HE) as [Hnl Hfold].
    destruct (String.eqb_spec p "") as [->|Hp].
    + (* an empty base: [Join] cleans what [Rel] returned *)
      assert (Hn : string_of_list_ascii nl <> "").
      { intros H. apply Hnl. rewrite <- (string_bytes nl), H. reflexivity. }
      rewrite filepath_Join_empty by exact Hn.
      change (isRooted (list_ascii_of_string "")) with false in *.
      change (cleanState (list_ascii_of_string "")) with initState in *.
      assert (Hrn : isRooted nl = false).
      { change (elems initState) with (@nil (list ascii)) in Hspec.
        rewrite relSpec_nil in Hspec. injection Hspec as <-.
        apply isRooted_joinSep. apply (elems_isElem _ _ Hwk). }
      rewrite HCk, Hr. apply filepath_Clean_of_state.
      * rewrite string_bytes. exact Hrn.
      * rewrite string_bytes. unfold cleanState at 1. rewrite Hrn.
        exact Hfold.
    + assert (Hlp : list_ascii_of_string p <> []).
      { destruct p; [congruence|discriminate]. }
      rewrite filepath_Join_two by exact Hp.
      destruct (cleanState_join (list_ascii_of_string p) nl Hlp) as [H1 H2].
      rewrite (filepath_Clean_of_state (p +:+ "/" +:+ string_of_list_ascii nl)
                 (isRooted (list_ascii_of_string p))
                 (cleanState (list_ascii_of_string k))).
      * rewrite HCk, Hr. reflexivity.
      * rewrite !bytes_append, string_bytes. exact H1.
      * rewrite !bytes_append, string_bytes. exact (eq_trans H2 Hfold).
Qed.

(** [Rel] returns [.] only for a target that cleans to the base. *)
Lemma filepath_Rel_dot p k :
  filepath_Rel p k = (".", None) <-> filepath_Clean k = filepath_Clean p.
Proof.
  split; [|apply filepath_Rel_same_Clean].
  intros HRel.
  destruct (String.eqb_spec (filepath_Clean k) (filepath_Clean p))
    as [Heq|Hne]; [exact Heq|exfalso].
  destruct (filepath_Rel_elems p k "." HRel Hne) as (Hr & HE & nl & Hspec & Hn).
  pose proof (cleanState_wf (list_ascii_of_string p)) as Hwp.
  pose proof (cleanState_wf (list_ascii_of_string k)) as Hwk.
  apply (f_equal list_ascii_of_string) in Hn. rewrite string_bytes in Hn.
  simpl in Hn. subst nl.
  apply relSpec_Some in Hspec as [Hnl _].
  destruct (stripCommon_suffix (elems (cleanState (list_ascii_of_string p)))
              (elems (cleanState (list_ascii_of_string k))))
    as (C & HEb & HT).
  destruct (stripCommon_isElem _ _ (elems_isElem _ _ Hwp) (elems_isElem _ _ Hwk))
    as [HRb HRt].
  symmetry in Hnl. apply joinSep_eq_dot in Hnl.
  2:{ apply Forall_isElem_ups_app. exact HRt. }
  destruct (stripCommon _ _).1 as [|b Rb']; [|discriminate]. simpl in Hnl.
  apply (elems_not_dot _ _ Hwk). rewrite HT, Hnl.
  apply in_or_app. right. left. reflexivity.
Qed.

(** A path returned by [Rel] is never empty. *)
Lemma filepath_Rel_nonempty p k n :
  filepath_Rel p k = (n, None) -> n <> "".
Proof.
  intros HRel.
  destruct (String.eqb_spec (filepath_Clean k) (filepath_Clean p))
    as [Heq|Hne].
  - rewrite (filepath_Rel_same_Clean _ _ Heq) in HRel.
    injection HRel as <-. discriminate.
  - destruct (filepath_Rel_elems p k n HRel Hne) as (Hr & HE & nl & Hspec & ->).
    pose proof (cleanState_wf (list_ascii_of_string p)) as Hwp.
    pose proof (cleanState_wf (list_ascii_of_string k)) as Hwk.
    rewrite Hr in Hwk.
    destruct (foldl_cleanStep_rel _ _ _ nl Hwp Hwk Hspec HE) as [Hnl _].
    intros H. apply Hnl. rewrite <- (string_bytes nl), H. reflexivity.
Qed.

(** ** The local index *)

Lemma fileInfoChanToMap_loop_app (m : gmap string fileInfo)
    (pre post : list fileInfo) :
  Forall (fun f => err f = None) pre ->
  fileInfoChanToMap_loop m (pre ++ post)
  = fileInfoChanToMap_loop (foldl (fun acc f => <[name f := f]> acc) m pre) post.
Proof.
  intros Hpre. revert m.
  induction Hpre as [|f pre Hf _ IH]; intros m; simpl; [reflexivity|].
  rewrite Hf. apply IH.
Qed.

Lemma fileInfoChanToMap_loop_ok (m m' : gmap string fileInfo)
    (files : list fileInfo) :
  fileInfoChanToMap_loop m files = (m', None) ->
  Forall (fun f => err f = None) files
  /\ m' = foldl (fun acc f => <[name f := f]> acc) m files.
Proof.
  revert m. induction files as [|f files IH]; intros m; simpl.
  - intros [= <-]. split; [constructor|reflexivity].
  - destruct (err f) eqn:Hf; [discriminate|].
    intros H. destruct (IH _ H) as [Hall ->].
    split; [constructor; assumption|reflexivity].
Qed.

Lemma foldl_insert_lookup_None (m : gmap string fileInfo)
    (files : list fileInfo) (n : string) :
  foldl (fun acc f => <[name f := f]> acc) m files !! n = None
  <-> m !! n = None /\ forall d, d ∈ files -> name d <> n.
Proof.
  revert m. induction files as [|f files IH]; intros m; simpl.
  - split; [intros H; split; [exact H|intros d Hd; inversion Hd]|tauto].
  - rewrite IH, lookup_insert_None. split.
    + intros [[Hm Hf] Hall]. split; [exact Hm|].
      intros d Hd. apply elem_of_cons in Hd as [->|Hd]; [exact Hf|auto].
    + intros [Hm Hall]. split; [split; [exact Hm|]|].
      * apply Hall. left.
      * intros d Hd. apply Hall. right. exact Hd.
Qed.

Lemma foldl_insert_lookup_Some (m : gmap string fileInfo)
    (files : list fileInfo) (n : string) (d : fileInfo) :
  foldl (fun acc f => <[name f := f]> acc) m files !! n = Some d ->
  m !! n = Some d \/ (d ∈ files /\ name d = n).
Proof.
  revert m. induction files as [|f files IH]; intros m; simpl; [auto|].
  intros H. destruct (IH _ H) as [Hm|[Hin Hn]].
  - apply lookup_insert_Some in Hm as [[Hn <-]|[_ Hm]].
    + right. split; [left|exact Hn].
    + left. exact Hm.
  - right. split; [right; exact Hin|exact Hn].
Qed.

(** The index has no record under a name exactly when no record of the
    drained sequence carries that name, and every record it holds comes
    from the sequence. *)
Lemma fileInfoChanToMap_lookup_None (files : list fileInfo)
    (destFiles : gmap string fileInfo) (n : string) :
  fileInfoChanToMap files = (destFiles, None) ->
  destFiles !! n = None <-> forall d, d ∈ files -> name d <> n.
Proof.
  intros H. apply fileInfoChanToMap_loop_ok in H as [_ ->].
  rewrite foldl_insert_lookup_None, lookup_empty. tauto.
Qed.

Lemma fileInfoChanToMap_lookup_Some (files : list fileInfo)
    (destFiles : gmap string fileInfo) (n : string) (d : fileInfo) :
  fileInfoChanToMap files = (destFiles, None) ->
  destFiles !! n = Some d -> d ∈ files /\ name d = n.
Proof.
  intros H Hd. apply fileInfoChanToMap_loop_ok in H as [_ ->].
  apply foldl_insert_lookup_Some in Hd as [Hd|Hd]; [|exact Hd].
  rewrite lookup_empty in Hd. discriminate.
Qed.

(** ** The diff condition and the filter loop *)

Lemma needsSync_true (destFiles : gmap string fileInfo) (s : fileInfo) :
  needsSync destFiles s = true
  <-> destFiles !! name s = None
      \/ (exists d, destFiles !! name s = Some d /\ size s <> size d)
      \/ (exists d, destFiles !! name s = Some d
                    /\ time_After (lastModified s) (lastModified d) = true).
Proof.
  unfold needsSync. destruct (destFiles !! name s) as [d|] eqn:Hd.
  - rewrite orb_true_iff, negb_true_iff, Z.eqb_neq. split.
    + intros [H|H]; right; [left|right]; exists d; auto.
    + intros [H|[[d' [[= <-] H]]|[d' [[= <-] H]]]]; [discriminate|auto|auto].
  - split; [auto|reflexivity].
Qed.

Lemma elem_of_filterLoop (destFiles : gmap string fileInfo)
    (src : list fileInfo) (s : fileInfo) :
  s ∈ filterLoop destFiles src <-> s ∈ src /\ needsSync destFiles s = true.
Proof.
  induction src as [|x src IH]; simpl.
  - split; [intros H; inversion H|intros [H _]; inversion H].
  - destruct (needsSync destFiles x) eqn:Hx; rewrite ?elem_of_cons, IH;
      split; intros H.
    + destruct H as [->|[H1 H2]]; auto.
    + destruct H as [[->|H1] H2]; auto.
    + destruct H as [H1 H2]; auto.
    + destruct H as [[->|H1] H2]; [congruence|auto].
Qed.

Lemma filterFilesForSync_ok (src dst : list fileInfo)
    (destFiles : gmap string fileInfo) :
  fileInfoChanToMap dst = (destFiles, None) ->
  filterFilesForSync src dst = filterLoop destFiles src.
Proof. intros H. unfold filterFilesForSync. rewrite H. reflexivity. Qed.

(** The filter keeps the order and the multiplicity of what it forwards. *)
Lemma filterLoop_filter (destFiles : gmap string fileInfo)
    (src : list fileInfo) :
  filterLoop destFiles src = List.filter (needsSync destFiles) src.
Proof.
  induction src as [|x src IH]; simpl; [reflexivity|].
  rewrite IH. reflexivity.
Qed.

(** C1.  Once the local sequence has been drained into the index, a remote
    record without an error is forwarded if and only if the index holds no
    record under its name, or the record held there has a different size,
    or the remote [lastModified] is strictly after the local one. *)
Theorem filter_forwards_iff (sourceFileChan destFileChan : list fileInfo)
    (destFiles : gmap string fileInfo) (r : fileInfo) :
  fileInfoChanToMap destFileChan = (destFiles, None) ->
  r ∈ sourceFileChan ->
  err r = None ->
  r ∈ filterFilesForSync sourceFileChan destFileChan
  <-> destFiles !! name r = None
      \/ (exists d, destFiles !! name r = Some d /\ size r <> size d)
      \/ (exists d, destFiles !! name r = Some d
                    /\ time_After (lastModified r) (lastModified d) = true).
Proof.
  intros Hmap Hin _.
  rewrite (filterFilesForSync_ok _ _ _ Hmap), elem_of_filterLoop.
  rewrite <- needsSync_true. tauto.
Qed.

Lemma filter_forwards_iff_witness :
  Sample.remoteB
    ∈ filterFilesForSync [Sample.remoteA; Sample.remoteB]
        [Sample.localA; Sample.localB]
  <-> (fileInfoChanToMap [Sample.localA; Sample.localB]).1
        !! name Sample.remoteB = None
      \/ (exists d, (fileInfoChanToMap [Sample.localA; Sample.localB]).1
                      !! name Sample.remoteB = Some d
                    /\ size Sample.remoteB <> size d)
      \/ (exists d, (fileInfoChanToMap [Sample.localA; Sample.localB]).1
                      !! name Sample.remoteB = Some d
                    /\ time_After (lastModified Sample.remoteB)
                         (lastModified d) = true).
Proof.
  apply (filter_forwards_iff [Sample.remoteA; Sample.remoteB]
           [Sample.localA; Sample.localB]).
  - reflexivity.
  - right. left.
  - reflexivity.
Defined.

(** C2, as amended.  When the local sequence drains into an index that
    holds, for every remote record without an error, a record of the same
    name and size whose [lastModified] is not before the remote one, the
    filter forwards no record without an error: whatever it forwards is an
    error sentinel of the remote sequence, and it forwards nothing at all
    when the remote sequence carries no sentinel. *)
Theorem in_sync_forwards_only_sentinels
    (sourceFileChan destFileChan : list fileInfo)
    (destFiles : gmap string fileInfo) :
  fileInfoChanToMap destFileChan = (destFiles, None) ->
  (forall r, r ∈ sourceFileChan -> err r = None ->
     exists d, destFiles !! name r = Some d
               /\ size d = size r
               /\ time_Before (lastModified d) (lastModified r) = false) ->
  (forall r, r ∈ filterFilesForSync sourceFileChan destFileChan ->
     r ∈ sourceFileChan /\ err r <> None)
  /\ (Forall (fun r => err r = None) sourceFileChan ->
      filterFilesForSync sourceFileChan destFileChan = []).
Proof.
  intros Hmap Hsync.
  rewrite (filterFilesForSync_ok _ _ _ Hmap).
  assert (Hkeep : forall r, r ∈ sourceFileChan -> err r = None ->
                    needsSync destFiles r = false).
  { intros r Hin Hr. destruct (Hsync r Hin Hr) as (d & Hd & Hsz & Hlm).
    unfold needsSync. rewrite Hd, Hsz, Z.eqb_refl, time_After_Before, Hlm.
    reflexivity. }
  split.
  - intros r Hr. apply elem_of_filterLoop in Hr as [Hin Hneed].
    split; [exact Hin|]. intros Hr. rewrite (Hkeep r Hin Hr) in Hneed.
    discriminate.
  - intros Hall. clear Hsync Hmap.
    induction sourceFileChan as [|x l IH]; [reflexivity|].
    inversion Hall as [|? ? Hx Hl]; subst. simpl.
    rewrite (Hkeep x); [|left|exact Hx].
    apply IH; [|exact Hl]. intros r Hr. apply Hkeep. right. exact Hr.
Qed.

Lemma in_sync_forwards_only_sentinels_witness :
  (forall r,
     r ∈ filterFilesForSync [Sample.remoteA; Sample.remoteB]
           [Sample.localA; Sample.localB'] ->
     r ∈ [Sample.remoteA; Sample.remoteB] /\ err r <> None)
  /\ (Forall (fun r => err r = None) [Sample.remoteA; Sample.remoteB] ->
      filterFilesForSync [Sample.remoteA; Sample.remoteB]
        [Sample.localA; Sample.localB'] = []).
Proof.
  apply (in_sync_forwards_only_sentinels [Sample.remoteA; Sample.remoteB]
           [Sample.localA; Sample.localB']
           (fileInfoChanToMap [Sample.localA; Sample.localB']).1).
  - reflexivity.
  - intros r Hr _.
    apply elem_of_cons in Hr as [->|Hr];
      [|apply elem_of_cons in Hr as [->|Hr]; [|inversion Hr]].
    + exists Sample.localA. repeat split; reflexivity.
    + exists Sample.localB'. repeat split; reflexivity.
Defined.

(** C2 as stated fails: with the local tree in sync with every remote
    record that carries no error, a remote error sentinel is still
    forwarded, so the filter does not forward "no records at all". *)
Lemma in_sync_still_forwards_sentinel :
  (forall r, r ∈ [Sample.remoteA; errorInfo Sample.listFailed] ->
     err r = None ->
     exists d, d ∈ [Sample.localA]
               /\ name d = name r /\ size d = size r
               /\ time_Before (lastModified d) (lastModified r) = false)
  /\ filterFilesForSync [Sample.remoteA; errorInfo Sample.listFailed]
       [Sample.localA]
     = [errorInfo Sample.listFailed].
Proof.
  split.
  - intros r Hr Herr.
    apply elem_of_cons in Hr as [->|Hr].
    + exists Sample.localA. repeat split; try reflexivity. left.
    + apply elem_of_cons in Hr as [->|Hr]; [discriminate|inversion Hr].
  - reflexivity.
Qed.

(** C4.  When the local sequence carries a record with an error, the
    filter sends one error sentinel, carrying the first such error, and
    nothing else: no remote record is forwarded. *)
Theorem local_error_aborts (sourceFileChan pre post : list fileInfo)
    (bad : fileInfo) (e : error) :
  Forall (fun f => err f = None) pre ->
  err bad = Some e ->
  filterFilesForSync sourceFileChan (pre ++ bad :: post) = [errorInfo e].
Proof.
  intros Hpre Hbad. unfold filterFilesForSync, fileInfoChanToMap.
  rewrite (fileInfoChanToMap_loop_app _ _ _ Hpre). simpl.
  rewrite Hbad. reflexivity.
Qed.

Lemma local_error_aborts_witness :
  filterFilesForSync [Sample.remoteA; Sample.remoteB]
    ([Sample.localA] ++ errorInfo Sample.walkFailed :: [Sample.localB])
  = [errorInfo Sample.walkFailed].
Proof.
  apply local_error_aborts.
  - repeat constructor.
  - reflexivity.
Defined.

(** The filter never looks at [sourceInfo.err]: an error sentinel of the
    remote sequence is judged by the diff condition under the empty name,
    size 0 and the zero time. *)
Lemma sentinel_forwarded_iff (sourceFileChan destFileChan : list fileInfo)
    (destFiles : gmap string fileInfo) (e : error) :
  fileInfoChanToMap destFileChan = (destFiles, None) ->
  errorInfo e ∈ sourceFileChan ->
  errorInfo e ∈ filterFilesForSync sourceFileChan destFileChan
  <-> destFiles !! "" = None
      \/ (exists d, destFiles !! "" = Some d
                    /\ (size d <> 0%Z
                        \/ time_After zeroTime (lastModified d) = true)).
Proof.
  intros Hmap Hin.
  rewrite (filterFilesForSync_ok _ _ _ Hmap), elem_of_filterLoop,
    needsSync_true.
  simpl. split.
  - intros [_ [H|[(d & Hd & Hs)|(d & Hd & Ht)]]]; [left; exact H| |];
      right; exists d; split; auto.
  - intros [H|(d & Hd & [Hs|Ht])]; (split; [exact Hin|]); [left; exact H| |].
    + right; left; exists d; split; [exact Hd|]. intros Heq. apply Hs.
      symmetry. exact Heq.
    + right; right; exists d; split; assumption.
Qed.

(** ** The remote lister *)

Lemma listS3FilesFrom_failed (fuel : nat) (env : Env) (p : s3Path)
    (token : option string) (e : error) :
  s3_ListObjectsV2 env p token = inr e ->
  listS3FilesFrom (S fuel) env p token
  = Some {| sent := [errorInfo e]; requests := [token] |}.
Proof.
  intros H. simpl. unfold listS3FileWithToken. rewrite H. reflexivity.
Qed.

Lemma listS3FilesFrom_page (fuel : nat) (env : Env) (p : s3Path)
    (token : option string) (out : ListObjectsV2Output) (next : string) :
  s3_ListObjectsV2 env p token = inl out ->
  NextContinuationToken out = Some next ->
  listS3FilesFrom (S fuel) env p token
  = match listS3FilesFrom fuel env p (Some next) with
    | None => None
    | Some l => Some {| sent := pageRecords p out ++ sent l;
                        requests := token :: requests l |}
    end.
Proof.
  intros H Hnext. simpl. unfold listS3FileWithToken. rewrite H, Hnext.
  reflexivity.
Qed.

Lemma listing_from_stops_at_failed_page (env : Env) (p : s3Path)
    (token last : option string) (outs : list ListObjectsV2Output)
    (e : error) :
  pagesFetched env p token outs last ->
  s3_ListObjectsV2 env p last = inr e ->
  forall fuel, (length outs < fuel)%nat ->
  listS3FilesFrom fuel env p token
  = Some {| sent := flat_map (pageRecords p) outs ++ [errorInfo e];
            requests := token :: map NextContinuationToken outs |}.
Proof.
  intros Hpages Hfail.
  induction Hpages as [tok|tok out next outs last Hout Hnext _ IH];
    intros fuel Hfuel; (destruct fuel as [|fuel]; [simpl in Hfuel; lia|]).
  - apply listS3FilesFrom_failed. exact Hfail.
  - rewrite (listS3FilesFrom_page _ _ _ _ _ _ Hout Hnext).
    rewrite (IH Hfail fuel) by (simpl in Hfuel; lia).
    simpl. rewrite Hnext, <- app_assoc. reflexivity.
Qed.

Lemma pagesFetched_last (env : Env) (p : s3Path)
    (token last : option string) (outs : list ListObjectsV2Output) :
  pagesFetched env p token outs last ->
  List.last (token :: map NextContinuationToken outs) None = last.
Proof.
  induction 1 as [tok|tok out next outs last Hout Hnext _ IH];
    [reflexivity|].
  rewrite <- IH. simpl map. rewrite Hnext. reflexivity.
Qed.

(** C6.  When the pages [outs] have been fetched and the next page request
    fails with [e], the lister has sent the records of those pages followed
    by one error sentinel carrying [e], and its last request is the failed
    one: no page is requested and no record is sent after it. *)
Theorem listing_stops_at_failed_page (env : Env) (p : s3Path)
    (outs : list ListObjectsV2Output) (last : option string) (e : error)
    (fuel : nat) :
  pagesFetched env p None outs last ->
  s3_ListObjectsV2 env p last = inr e ->
  (length outs < fuel)%nat ->
  listS3Files fuel env p
  = Some {| sent := flat_map (pageRecords p) outs ++ [errorInfo e];
            requests := None :: map NextContinuationToken outs |}
  /\ List.last (None :: map NextContinuationToken outs) None = last.
Proof.
  intros Hpages Hfail Hfuel. split.
  - apply (listing_from_stops_at_failed_page _ _ _ _ _ _ Hpages Hfail).
    exact Hfuel.
  - apply (pagesFetched_last env p). exact Hpages.
Qed.

Lemma listing_stops_at_failed_page_witness :
  listS3Files 2 Sample.env Sample.source
  = Some {| sent := flat_map (pageRecords Sample.source) [Sample.page1]
                    ++ [errorInfo Sample.listFailed];
            requests := None :: map NextContinuationToken [Sample.page1] |}
  /\ List.last (None :: map NextContinuationToken [Sample.page1]) None
     = Some "t1".
Proof.
  apply listing_stops_at_failed_page.
  - apply (pagesFetched_cons _ _ None Sample.page1 "t1" [] (Some "t1"));
      [reflexivity|reflexivity|apply pagesFetched_nil].
  - reflexivity.
  - simpl. lia.
Defined.

(** ** The local lister *)

Lemma filterLoop_empty (src : list fileInfo) : filterLoop ∅ src = src.
Proof.
  induction src as [|x src IH]; simpl; [reflexivity|].
  unfold needsSync. rewrite lookup_empty, IH. reflexivity.
Qed.

(** A record of the local lister has an empty name only when [Rel] failed
    on its path. *)
Lemma sendFileInfoToChannel_nameless (basePath path : string)
    (stat : option FileStat) (r : fileInfo) :
  r ∈ sendFileInfoToChannel basePath path stat ->
  name r = "" ->
  (filepath_Rel basePath path).2 <> None.
Proof.
  unfold sendFileInfoToChannel. destruct stat as [st|]; [|intros H; inversion H].
  destruct (IsDir st); [intros H; inversion H|].
  destruct (filepath_Rel basePath path) as [relPath e] eqn:HRel.
  intros Hr Hname. apply list_elem_of_singleton in Hr. subst r.
  simpl in Hname. subst relPath. destruct e; [discriminate|].
  exfalso. exact (filepath_Rel_nonempty _ _ _ HRel eq_refl).
Qed.

(** C7.  When [os.Stat] reports that the root does not exist, the local
    lister sends nothing, no error sentinel either; the filter then works
    from an empty index and forwards the whole remote sequence. *)
Theorem missing_root_lists_nothing (env : Env) (basePath : string)
    (e : error) :
  os_Stat env basePath = inr e ->
  IsNotExist e = true ->
  listLocalFiles env basePath = []
  /\ forall sourceFileChan,
       filterFilesForSync sourceFileChan (listLocalFiles env basePath)
       = sourceFileChan.
Proof.
  intros Hstat Hne.
  assert (Hnil : listLocalFiles env basePath = []).
  { unfold listLocalFiles, filepath_ToSlash. rewrite Hstat, Hne. reflexivity. }
  split; [exact Hnil|].
  intros src. rewrite Hnil. apply filterLoop_empty.
Qed.

Lemma missing_root_lists_nothing_witness :
  listLocalFiles Sample.env "/missing" = []
  /\ forall sourceFileChan,
       filterFilesForSync sourceFileChan (listLocalFiles Sample.env "/missing")
       = sourceFileChan.
Proof.
  apply (missing_root_lists_nothing Sample.env "/missing" Sample.notExist);
    reflexivity.
Defined.

(** ** The sync manager *)

(** An address that does not parse ends the call before any I/O. *)
Lemma Sync_parse_failure_source (fuel : nat) (env : Env)
    (source dest : string) (e : error) :
  url_Parse env source = inr e ->
  Sync fuel env source dest = returns (Some e).
Proof. intros H. unfold Sync. rewrite H. reflexivity. Qed.

(** C8.  When both addresses parse, and the source and the destination are
    both remote, or both local, or local and remote, [Sync] returns an
    error, one of four fixed texts, and has performed no I/O at all. *)
Theorem unsupported_direction_fails_without_io (fuel : nat) (env : Env)
    (source dest : string) (sourceURL destURL : URL) :
  url_Parse env source = inl sourceURL ->
  url_Parse env dest = inl destURL ->
  (isS3URL sourceURL = true /\ isS3URL destURL = true)
  \/ (isS3URL sourceURL = false /\ isS3URL destURL = false)
  \/ (isS3URL sourceURL = false /\ isS3URL destURL = true) ->
  exists e,
    Sync fuel env source dest = Some {| result := Some e; io := [] |}
    /\ Error e
       ∈ [ "S3 to S3 sync feature is not implemented";
           "local to local sync is not supported";
           "Local to S3 sync feature is not implemented";
           "s3 url is missing bucket name" ].
Proof.
  intros Hs Hd Hdir. unfold Sync. rewrite Hs, Hd.
  destruct Hdir as [[H1 H2]|[[H1 H2]|[H1 H2]]]; rewrite H1, H2.
  - unfold urlToS3Path.
    destruct (String.eqb (Host sourceURL) ""); [|destruct (String.eqb (Host destURL) "")];
      eexists; (split; [reflexivity|]); simpl; set_solver.
  - eexists; (split; [reflexivity|]); simpl; set_solver.
  - unfold urlToS3Path. destruct (String.eqb (Host destURL) "");
      eexists; (split; [reflexivity|]); simpl; set_solver.
Qed.

Lemma unsupported_direction_fails_without_io_witness :
  exists e,
    Sync 0 Sample.env "/local" "s3://bucket/backup"
    = Some {| result := Some e; io := [] |}
    /\ Error e
       ∈ [ "S3 to S3 sync feature is not implemented";
           "local to local sync is not supported";
           "Local to S3 sync feature is not implemented";
           "s3 url is missing bucket name" ].
Proof.
  apply (unsupported_direction_fails_without_io 0 Sample.env "/local"
           "s3://bucket/backup"
           {| Scheme := ""; Host := ""; Path := "/local" |}
           {| Scheme := "s3"; Host := "bucket"; Path := "/backup" |}).
  - reflexivity.
  - reflexivity.
  - right. right. split; reflexivity.
Defined.

(** ** The fetch pipeline *)

Lemma strings_Join_concat (msgs : list string) (sep : string) :
  strings_Join msgs sep = String.concat sep msgs.
Proof.
  induction msgs as [|m msgs IH]; [reflexivity|].
  destruct msgs as [|m' msgs]; [reflexivity|].
  change (m +:+ sep +:+ strings_Join (m' :: msgs) sep
          = m +:+ sep +:+ String.concat sep (m' :: msgs)).
  rewrite IH. reflexivity.
Qed.


Section FetchRuns.

Variables (env : Env) (sourcePath : s3Path) (destPath : string).

Lemma goroutine_errMsgs (source : fileInfo) (st : FetchState) :
  errMsgs (goroutine env sourcePath destPath source st)
  = errMsgs st ++ omap id [failureOf env sourcePath destPath source].
Proof.
  unfold goroutine, failureOf. destruct (err source) as [e|]; [reflexivity|].
  destruct (download env source sourcePath destPath) as [[e|] evs]; simpl;
    [reflexivity|]. rewrite app_nil_r. reflexivity.
Qed.




End FetchRuns.




(** The run above, evaluated: the listing failure was appended first, the
    failed download second, and the third record was fetched. *)
Example sample_run_result :
  joinErrors
    (errMsgs (runGoroutines Sample.env Sample.source "/local"
                Sample.completed {| errMsgs := []; ioLog := [] |}))
  = Some (errors_New ("RequestError: send request failed" +:+ newline
                      +:+ "NoSuchKey: dir/b.txt")).
Proof. vm_compute. reflexivity. Qed.

(** The call above, evaluated: the listing failure was appended first, the
    failed download second, and the third record was fetched. *)
Example sample_sync_result :
  result <$> syncS3ToLocal 2 Sample.env Sample.source "/missing"
  = Some (Some (errors_New ("RequestError: send request failed" +:+ newline
                            +:+ "NoSuchKey: dir/b.txt"))).
Proof. vm_compute. reflexivity. Qed.

(** ** A regular file as the local root *)

Lemma sendObject_record (p : s3Path) (object : s3Object) (r : fileInfo) :
  r ∈ sendObject p object ->
  err r = None ->
  filepath_Rel (bucketPrefix p) (Key object) = (name r, None)
  /\ r = {| err := None; name := name r; path := Key object;
            size := Size object; lastModified := LastModified object |}.
Proof.
  unfold sendObject.
  destruct (filepath_Rel (bucketPrefix p) (Key object)) as [n [e|]];
    intros Hr Herr; apply list_elem_of_singleton in Hr; subst r;
    [discriminate|]. split; reflexivity.
Qed.

(** C10, as amended.  When the local root is a regular file, the local
    lister sends exactly one record, named ["."] and not after the file;
    the index holds it under ["."] alone, so it matches the remote records
    whose own name is ["."], and these are the objects whose key cleans to
    the same path as the prefix, whether or not the key equals the
    prefix. *)
Theorem regular_file_root_is_named_dot (env : Env) (basePath : string)
    (stat : FileStat) :
  os_Stat env basePath = inl stat ->
  IsDir stat = false ->
  let root :=
    {| err := None; name := "."; path := basePath; size := statSize stat;
       lastModified := ModTime stat |} in
  listLocalFiles env basePath = [root]
  /\ fileInfoChanToMap (listLocalFiles env basePath) = ({[ "." := root ]}, None)
  /\ (forall r : fileInfo,
        is_Some (({[ "." := root ]} : gmap string fileInfo) !! name r)
        <-> name r = ".")
  /\ (forall (p : s3Path) (object : s3Object) (r : fileInfo),
        r ∈ sendObject p object -> err r = None ->
        name r = "."
        <-> filepath_Clean (Key object) = filepath_Clean (bucketPrefix p)).
Proof.
  intros Hstat Hdir root.
  assert (Hlist : listLocalFiles env basePath = [root]).
  { unfold listLocalFiles, filepath_ToSlash, sendFileInfoToChannel.
    rewrite Hstat, Hdir. simpl.
    rewrite (filepath_Rel_same_Clean basePath basePath eq_refl).
    reflexivity. }
  split; [exact Hlist|]. split; [rewrite Hlist; reflexivity|]. split.
  - intros r. rewrite lookup_singleton_is_Some. split; congruence.
  - intros p object r Hr Herr.
    destruct (sendObject_record p object r Hr Herr) as [HRel _].
    rewrite <- filepath_Rel_dot, HRel. split; [intros ->; reflexivity|].
    intros [= ->]. reflexivity.
Qed.

Lemma regular_file_root_is_named_dot_witness :
  let root :=
    {| err := None; name := "."; path := "/local/file.txt";
       size := statSize Sample.fileStat;
       lastModified := ModTime Sample.fileStat |} in
  listLocalFiles Sample.env "/local/file.txt" = [root]
  /\ fileInfoChanToMap (listLocalFiles Sample.env "/local/file.txt")
     = ({[ "." := root ]}, None)
  /\ (forall r : fileInfo,
        is_Some (({[ "." := root ]} : gmap string fileInfo) !! name r)
        <-> name r = ".")
  /\ (forall (p : s3Path) (object : s3Object) (r : fileInfo),
        r ∈ sendObject p object -> err r = None ->
        name r = "."
        <-> filepath_Clean (Key object) = filepath_Clean (bucketPrefix p)).
Proof.
  apply (regular_file_root_is_named_dot Sample.env "/local/file.txt"
           Sample.fileStat); reflexivity.
Defined.

(** C10 as stated fails in its last part: under the prefix [dir], the
    object with key [dir/] is listed under the name ["."] and so matches
    the record of a regular-file root, although its key is not the
    prefix. *)
Lemma regular_file_root_matches_other_key :
  let p := {| bucket := "bucket"; bucketPrefix := "dir" |} in
  let object := {| Key := "dir/"; Size := 0; LastModified := Sample.t100 |} in
  exists r,
    sendObject p object = [r]
    /\ Key object <> bucketPrefix p
    /\ is_Some ((fileInfoChanToMap
                   (listLocalFiles Sample.env "/local/file.txt")).1
                !! name r).
Proof.
  eexists. split; [reflexivity|]. split; [discriminate|].
  eexists. reflexivity.
Qed.

(** ** The key requested by a download *)

(** Every record without an error that the lister sent was sent for one of
    the objects of the listing. *)
Lemma listS3FilesFrom_sent (fuel : nat) (env : Env) (p : s3Path) :
  forall (token : option string) (listing : Listing) (r : fileInfo),
  listS3FilesFrom fuel env p token = Some listing ->
  r ∈ sent listing ->
  err r = None ->
  exists object, r ∈ sendObject p object.
Proof.
  induction fuel as [|fuel IH]; intros token listing r Hl Hr Herr;
    [discriminate|].
  cbn [listS3FilesFrom] in Hl. unfold listS3FileWithToken in Hl.
  assert (Hpage : forall out : ListObjectsV2Output,
            r ∈ flat_map (sendObject p) (Contents out) ->
            exists object, r ∈ sendObject p object).
  { intros out H. apply list_elem_of_In, in_flat_map in H as (object & _ & H).
    exists object. apply list_elem_of_In. exact H. }
  destruct (s3_ListObjectsV2 env p token) as [out|e].
  - destruct (NextContinuationToken out) as [next|].
    + destruct (listS3FilesFrom fuel env p (Some next)) as [l|] eqn:Hrest;
        [|discriminate].
      injection Hl as <-. cbn [sent] in Hr.
      apply elem_of_app in Hr as [Hr|Hr]; [exact (Hpage out Hr)|].
      exact (IH _ _ _ Hrest Hr Herr).
    + injection Hl as <-. exact (Hpage out Hr).
  - injection Hl as <-. cbn [sent sendErrorInfoToChannel] in Hr.
    apply list_elem_of_singleton in Hr. subst r. discriminate.
Qed.

(** An object request of [download] carries the bucket and the key of
    [getObjectInput]. *)
Lemma download_GetObject (env : Env) (file : fileInfo) (sp : s3Path)
    (dp b k : string) :
  IOGetObject b k ∈ (download env file sp dp).2 ->
  (b, k) = getObjectInput file sp.
Proof.
  unfold download, getObjectInput.
  destruct (os_MkdirAll env _);
    [intros H; apply list_elem_of_singleton in H; discriminate|].
  destruct (os_Create env _); simpl; intros H;
    repeat (apply elem_of_cons in H as [H|H]; [try discriminate|]);
    try (inversion H; fail).
  injection H as -> ->. reflexivity.
Qed.

(** C9.  For a record the remote lister sent for an object with key [k]
    (kept in the record's [path]) under the prefix [p], the key [download]
    asks for is [filepath.Join(p, filepath.Rel(p, k))], which is the
    cleaned form of [k]; so it is the listed key itself when that key is
    already clean, and every object request [download] makes for the
    record names the bucket of the source and the cleaned key. *)
Theorem download_key_is_cleaned_key (fuel : nat) (env : Env) (p : s3Path)
    (listing : Listing) (r : fileInfo) :
  listS3Files fuel env p = Some listing ->
  r ∈ sent listing ->
  err r = None ->
  getObjectInput r p
  = (bucket p,
     filepath_Join
       [bucketPrefix p; (filepath_Rel (bucketPrefix p) (path r)).1])
  /\ (getObjectInput r p).2 = filepath_Clean (path r)
  /\ (filepath_Clean (path r) = path r ->
      getObjectInput r p = (bucket p, path r))
  /\ (forall destPath b k,
        IOGetObject b k ∈ (download env r p destPath).2 ->
        b = bucket p /\ k = filepath_Clean (path r)).
Proof.
  intros Hl Hr Herr.
  destruct (listS3FilesFrom_sent _ _ _ _ _ _ Hl Hr Herr) as [object Hobj].
  destruct (sendObject_record p object r Hobj Herr) as [HRel Hrec].
  assert (Hpath : path r = Key object) by (rewrite Hrec; reflexivity).
  assert (Hkey : getObjectInput r p = (bucket p, filepath_Clean (path r))).
  { rewrite Hpath. unfold getObjectInput.
    rewrite <- (filepath_Join_Rel _ _ _ HRel). rewrite Hrec. reflexivity. }
  split; [|split; [|split]].
  - rewrite Hpath, HRel. unfold getObjectInput. rewrite Hrec. reflexivity.
  - rewrite Hkey. reflexivity.
  - intros Hclean. rewrite Hkey, Hclean. reflexivity.
  - intros destPath b k Hin. apply download_GetObject in Hin.
    rewrite Hkey in Hin. injection Hin as -> ->. auto.
Qed.

Lemma download_key_is_cleaned_key_witness :
  getObjectInput Sample.remoteB Sample.source
  = (bucket Sample.source,
     filepath_Join
       [bucketPrefix Sample.source;
        (filepath_Rel (bucketPrefix Sample.source)
           (path Sample.remoteB)).1])
  /\ (getObjectInput Sample.remoteB Sample.source).2
     = filepath_Clean (path Sample.remoteB)
  /\ (filepath_Clean (path Sample.remoteB) = path Sample.remoteB ->
      getObjectInput Sample.remoteB Sample.source
      = (bucket Sample.source, path Sample.remoteB))
  /\ (forall destPath b k,
        IOGetObject b k
          ∈ (download Sample.env Sample.remoteB Sample.source destPath).2 ->
        b = bucket Sample.source
        /\ k = filepath_Clean (path Sample.remoteB)).
Proof.
  apply (download_key_is_cleaned_key 2 Sample.env Sample.source
           {| sent := [Sample.remoteA; Sample.remoteB;
                       errorInfo Sample.listFailed];
              requests := [None; Some "t1"] |}).
  - reflexivity.
  - right. left.
  - reflexivity.
Defined.

(** An object whose key is not clean is asked for under its cleaned key. *)
Example download_key_of_unclean_key :
  Sample.remoteB' ∈ sendObject Sample.dirSource Sample.objectB'
  /\ getObjectInput Sample.remoteB' Sample.dirSource = ("bucket", "dir/b.txt").
Proof. split; [left|reflexivity]. Qed.

(** Under the prefix [../..] the object with key [../..x/..], which cleans
    to [..], lies above the prefix by an element [Rel] cannot name: the
    lister sends an error sentinel for it, and no record to download. *)
Example key_above_prefix_is_sentinel :
  listS3Files 1 Sample.upEnv Sample.upSource
  = Some {| sent := [errorInfo (relError "../.." "../..x/..")];
            requests := [None] |}.
Proof. reflexivity. Qed.

(** * Further properties *)

(** ** Names made of real path elements *)

Ltac solve_isName := cbv; repeat split; try discriminate; repeat constructor.
Ltac solve_names := repeat (constructor; [solve_isName|]); constructor.

Lemma stripCommon_app L R : stripCommon L (L ++ R) = ([], R).
Proof.
  induction L as [|w L IH]; simpl; [destruct R; reflexivity|].
  rewrite bytes_eqb_refl. exact IH.
Qed.

Lemma isName_Forall_isElem N : Forall isName N -> Forall isElem N.
Proof.
  intros H. eapply Forall_impl; [exact H|]. intros w. apply isName_isElem.
Qed.

(** Joining a path with real elements appends them to its elements. *)
Lemma filepath_Join_down d n N :
  Forall isName N -> N <> [] -> list_ascii_of_string n = joinSep N ->
  let r := isRooted (list_ascii_of_string d) in
  let st := cleanState (list_ascii_of_string d) in
  let st' := {| ups := ups st; names := rev N ++ names st |} in
  stateWf r st'
  /\ filepath_Join [d; n] = string_of_list_ascii (renderState r st').
Proof.
  intros HN Hne Hn r st st'.
  assert (Hwf : stateWf r st').
  { destruct (cleanState_wf (list_ascii_of_string d)) as [H1 H2].
    split; [|exact H2]. simpl. apply Forall_app. split; [|exact H1].
    apply Forall_rev. exact HN. }
  split; [exact Hwf|].
  assert (Hn0 : n <> "").
  { intros ->. simpl in Hn. destruct N as [|w [|w' N]]; [congruence| |].
    - simpl in Hn. apply Forall_cons in HN as [[Hw _] _]. congruence.
    - simpl in Hn. destruct w; discriminate. }
  assert (Hc : comps (list_ascii_of_string n) = N).
  { rewrite Hn. apply comps_joinSep; [apply isName_Forall_isElem, HN|exact Hne]. }
  destruct (String.eqb_spec d "") as [->|Hd].
  - rewrite filepath_Join_empty by exact Hn0.
    apply filepath_Clean_of_state.
    + rewrite Hn. apply isRooted_joinSep, isName_Forall_isElem, HN.
    + unfold cleanState at 1. rewrite Hc.
      replace (isRooted (list_ascii_of_string n)) with false
        by (rewrite Hn; symmetry; apply isRooted_joinSep, isName_Forall_isElem, HN).
      rewrite foldl_cleanStep_names by exact HN. reflexivity.
  - rewrite filepath_Join_two by exact Hd.
    assert (Hld : list_ascii_of_string d <> []).
    { intros H. apply Hd. rewrite <- (bytes_string d), H. reflexivity. }
    destruct (cleanState_join (list_ascii_of_string d) (list_ascii_of_string n) Hld)
      as [Hr Hs].
    apply filepath_Clean_of_state.
    + rewrite !bytes_append. exact Hr.
    + rewrite !bytes_append. change (list_ascii_of_string "/") with [Separator].
      simpl app at 2.
      rewrite Hs, Hc, foldl_cleanStep_names by exact HN. reflexivity.
Qed.

(** A path of real elements joined onto a directory is found again by
    [Rel] from that directory. *)
Lemma filepath_Rel_Join_down d n N :
  Forall isName N -> N <> [] -> list_ascii_of_string n = joinSep N ->
  filepath_Rel d (filepath_Join [d; n]) = (n, None).
Proof.
  intros HN Hne Hn.
  destruct (filepath_Join_down d n N HN Hne Hn) as [Hwf Hj].
  set (r := isRooted (list_ascii_of_string d)) in *.
  set (st := cleanState (list_ascii_of_string d)) in *.
  set (st' := {| ups := ups st; names := rev N ++ names st |}) in *.
  assert (Hb : list_ascii_of_string (filepath_Join [d; n]) = renderState r st')
    by (rewrite Hj; apply string_bytes).
  assert (Hr : isRooted (list_ascii_of_string (filepath_Join [d; n])) = r)
    by (rewrite Hb; apply isRooted_renderState, Hwf).
  assert (Hs : cleanState (list_ascii_of_string (filepath_Join [d; n])) = st')
    by (rewrite Hb; apply cleanState_renderState, Hwf).
  assert (He : elems st' = elems st ++ N).
  { unfold elems, st'. simpl. rewrite rev_app_distr, rev_involutive.
    rewrite <- app_assoc. reflexivity. }
  rewrite filepath_Rel_spec, Hr, Hs.
  rewrite (filepath_Clean_of_state _ _ _ Hr Hs).
  rewrite (filepath_Clean_spec d). cbv zeta. fold r st.
  destruct (String.eqb_spec (string_of_list_ascii (renderState r st'))
              (string_of_list_ascii (renderState r st))) as [Heq|_].
  - exfalso.
    apply (f_equal list_ascii_of_string) in Heq. rewrite !string_bytes in Heq.
    apply (f_equal cleanState) in Heq.
    rewrite (cleanState_renderState _ _ Hwf) in Heq.
    assert (H2 : cleanState (renderState r st) = st)
      by apply cleanState_renderState, cleanState_wf.
    rewrite H2 in Heq.
    apply (f_equal (fun s => length (names s))) in Heq.
    fold st in Heq. unfold st' in Heq. simpl in Heq.
    rewrite length_app, length_rev in Heq.
    destruct N; [congruence|simpl in Heq; lia].
  - destruct r; simpl negb; cbv iota.
    all: rewrite He; unfold relSpec; rewrite stripCommon_app; simpl.
    all: rewrite <- Hn, bytes_string; reflexivity.
Qed.

(** ** The sync manager: what reaches the fetch pipeline *)

(** X1.  A call of [Sync] that performed any I/O went from a bucket to a local
    path: both addresses parsed, the source has the scheme [s3] and a
    bucket name, the destination is not an [s3] address, and the call is
    the call of [syncS3ToLocal] on the bucket, on the path of the source
    without its leading separator, and on the destination as given. *)
Theorem sync_io_only_remote_to_local (fuel : nat) (env : Env)
    (source dest : string) (out : Outcome) :
  Sync fuel env source dest = Some out ->
  io out <> [] ->
  exists sourceURL destURL,
    url_Parse env source = inl sourceURL
    /\ url_Parse env dest = inl destURL
    /\ isS3URL sourceURL = true /\ Host sourceURL <> ""
    /\ isS3URL destURL = false
    /\ syncS3ToLocal fuel env
         {| bucket := Host sourceURL;
            bucketPrefix := trimSlashPrefix (Path sourceURL) |} dest
       = Some out.
Proof.
  unfold Sync, returns, urlToS3Path. intros H Hio.
  destruct (url_Parse env source) as [su|e] eqn:Hs;
    [|injection H as <-; contradiction Hio; reflexivity].
  destruct (url_Parse env dest) as [du|e] eqn:Hd;
    [|injection H as <-; contradiction Hio; reflexivity].
  destruct (isS3URL su) eqn:Hsu.
  - destruct (String.eqb_spec (Host su) "") as [Hh|Hh];
      [injection H as <-; contradiction Hio; reflexivity|].
    destruct (isS3URL du) eqn:Hdu.
    + destruct (String.eqb (Host du) "");
        injection H as <-; contradiction Hio; reflexivity.
    + exists su, du. auto 10.
  - destruct (isS3URL du); [destruct (String.eqb (Host du) "")|];
      injection H as <-; contradiction Hio; reflexivity.
Qed.

Lemma sync_io_only_remote_to_local_witness :
  exists sourceURL destURL,
    url_Parse Store.env "s3://bucket" = inl sourceURL
    /\ url_Parse Store.env "/local" = inl destURL
    /\ isS3URL sourceURL = true /\ Host sourceURL <> ""
    /\ isS3URL destURL = false
    /\ syncS3ToLocal 2 Store.env
         {| bucket := Host sourceURL;
            bucketPrefix := trimSlashPrefix (Path sourceURL) |} "/local"
       = Some Store.synced.
Proof.
  apply (sync_io_only_remote_to_local 2 Store.env "s3://bucket" "/local").
  - vm_compute. reflexivity.
  - discriminate.
Defined.

(** X2.  Once both addresses have parsed, an [s3] address without a bucket
    name, as source or as destination, makes [Sync] return the error of
    [urlToS3Path] before any I/O: the bucket names are checked before a
    direction is chosen or refused. *)
Theorem missing_bucket_fails_before_io (fuel : nat) (env : Env)
    (source dest : string) (sourceURL destURL : URL) :
  url_Parse env source = inl sourceURL ->
  url_Parse env dest = inl destURL ->
  (isS3URL sourceURL = true /\ Host sourceURL = "")
  \/ (isS3URL destURL = true /\ Host destURL = "") ->
  Sync fuel env source dest
  = Some {| result := Some (errors_New "s3 url is missing bucket name");
            io := [] |}.
Proof.
  intros Hs Hd H. unfold Sync, urlToS3Path. rewrite Hs, Hd.
  destruct H as [[Hs3 Hh]|[Hd3 Hh]].
  - rewrite Hs3, Hh. reflexivity.
  - rewrite Hd3, Hh.
    destruct (isS3URL sourceURL); [|reflexivity].
    destruct (String.eqb (Host sourceURL) ""); reflexivity.
Qed.

Lemma missing_bucket_fails_before_io_witness :
  Sync 0 Sample.env "/local" "s3:///backup"
  = Some {| result := Some (errors_New "s3 url is missing bucket name");
            io := [] |}.
Proof.
  apply (missing_bucket_fails_before_io 0 Sample.env "/local" "s3:///backup"
           {| Scheme := ""; Host := ""; Path := "/local" |}
           {| Scheme := "s3"; Host := ""; Path := "/backup" |});
    [reflexivity|reflexivity|].
  right. split; reflexivity.
Defined.

(** ** The local index *)

Lemma foldl_insert_lookup_other (m : gmap string fileInfo)
    (files : list fileInfo) (n : string) :
  (forall x, x ∈ files -> name x <> n) ->
  foldl (fun acc f => <[name f := f]> acc) m files !! n = m !! n.
Proof.
  revert m. induction files as [|f files IH]; intros m H; simpl; [reflexivity|].
  rewrite IH by (intros x Hx; apply H; right; exact Hx).
  apply lookup_insert_ne. apply H. left.
Qed.

Lemma foldl_insert_lookup_is_Some (m : gmap string fileInfo)
    (files : list fileInfo) (n : string) :
  is_Some (foldl (fun acc f => <[name f := f]> acc) m files !! n)
  <-> is_Some (m !! n) \/ exists d, d ∈ files /\ name d = n.
Proof.
  revert m. induction files as [|f files IH]; intros m; simpl.
  - split; [auto|]. intros [H|(d & Hd & _)]; [exact H|inversion Hd].
  - rewrite IH, lookup_insert_is_Some. split.
    + intros [[Hf|[_ H]]|(d & Hd & Hn)].
      * right. exists f. split; [left|exact Hf].
      * left. exact H.
      * right. exists d. split; [right; exact Hd|exact Hn].
    + intros [H|(d & Hd & Hn)].
      * destruct (decide (name f = n)); [left; left; assumption|].
        left. right. auto.
      * apply elem_of_cons in Hd as [->|Hd]; [left; left; exact Hn|].
        right. exists d. auto.
Qed.

(** X3.  When several records of the drained sequence carry the same name,
    the index holds the last of them: [result[file.name] = file]
    overwrites. *)
Theorem index_holds_last_record (pre post : list fileInfo) (d : fileInfo)
    (destFiles : gmap string fileInfo) :
  fileInfoChanToMap (pre ++ d :: post) = (destFiles, None) ->
  (forall x, x ∈ post -> name x <> name d) ->
  destFiles !! name d = Some d.
Proof.
  intros H Hpost. apply fileInfoChanToMap_loop_ok in H as [_ ->].
  rewrite foldl_app. simpl. rewrite foldl_insert_lookup_other by exact Hpost.
  apply lookup_insert_eq.
Qed.

Lemma index_holds_last_record_witness :
  (fileInfoChanToMap [Sample.localB; Sample.localB'; Sample.localA]).1
    !! name Sample.localB'
  = Some Sample.localB'.
Proof.
  apply (index_holds_last_record [Sample.localB] [Sample.localA]).
  - reflexivity.
  - intros x Hx. apply list_elem_of_singleton in Hx. subst x. discriminate.
Defined.

(** X4.  [fileInfoChanToMap] returns an index and no error exactly when no
    record of the sequence carries an error, and the names the index then
    holds are exactly the names of the records. *)
Theorem drain_succeeds_iff_no_error (files : list fileInfo) :
  Forall (fun f => err f = None) files
  <-> exists destFiles,
        fileInfoChanToMap files = (destFiles, None)
        /\ forall n, is_Some (destFiles !! n)
                     <-> exists d, d ∈ files /\ name d = n.
Proof.
  split.
  - intros Hall. exists (foldl (fun acc f => <[name f := f]> acc) ∅ files).
    split.
    + unfold fileInfoChanToMap. rewrite <- (app_nil_r files) at 1.
      rewrite fileInfoChanToMap_loop_app by exact Hall. reflexivity.
    + intros n. rewrite foldl_insert_lookup_is_Some, lookup_empty.
      split; [intros [[x Hx]|H]; [discriminate|exact H]|auto].
  - intros (m & H & _). apply fileInfoChanToMap_loop_ok in H as [H _].
    exact H.
Qed.

(** ** The diff filter *)

Lemma filterLoop_sublist (destFiles : gmap string fileInfo)
    (src : list fileInfo) :
  filterLoop destFiles src `sublist_of` src.
Proof.
  induction src as [|x src IH]; simpl; [constructor|].
  destruct (needsSync destFiles x); [apply sublist_skip|apply sublist_cons];
    exact IH.
Qed.

(** X5.  The filter sends either one error sentinel, carrying the error the
    draining of the local sequence ended with, or records of the remote
    sequence alone, in the order of the remote sequence and none of them
    more often than it occurs there. *)
Theorem filter_forwards_sublist_or_one_sentinel (src dst : list fileInfo) :
  (exists e, (fileInfoChanToMap dst).2 = Some e
             /\ filterFilesForSync src dst = [errorInfo e])
  \/ ((fileInfoChanToMap dst).2 = None
      /\ filterFilesForSync src dst `sublist_of` src).
Proof.
  unfold filterFilesForSync.
  destruct (fileInfoChanToMap dst) as [m [e|]]; simpl.
  - left. exists e. auto.
  - right. split; [reflexivity|apply filterLoop_sublist].
Qed.

Lemma filterLoop_app (destFiles : gmap string fileInfo)
    (src1 src2 : list fileInfo) :
  filterLoop destFiles (src1 ++ src2)
  = filterLoop destFiles src1 ++ filterLoop destFiles src2.
Proof.
  induction src1 as [|x src1 IH]; simpl; [reflexivity|].
  destruct (needsSync destFiles x); simpl; rewrite IH; reflexivity.
Qed.

(** X6.  Once the local sequence has drained without error, the filter
    decides on each remote record by itself: what it forwards of two
    remote sequences, one after the other, is what it forwards of the first
    followed by what it forwards of the second. *)
Theorem filter_decides_record_by_record (src1 src2 dst : list fileInfo) :
  Forall (fun f => err f = None) dst ->
  filterFilesForSync (src1 ++ src2) dst
  = filterFilesForSync src1 dst ++ filterFilesForSync src2 dst.
Proof.
  intros Hall. unfold filterFilesForSync, fileInfoChanToMap.
  rewrite <- (app_nil_r dst).
  rewrite fileInfoChanToMap_loop_app by exact Hall. simpl.
  apply filterLoop_app.
Qed.

Lemma filter_decides_record_by_record_witness :
  filterFilesForSync ([Sample.remoteA] ++ [Sample.remoteB]) [Sample.localA]
  = filterFilesForSync [Sample.remoteA] [Sample.localA]
    ++ filterFilesForSync [Sample.remoteB] [Sample.localA].
Proof.
  apply filter_decides_record_by_record.
  constructor; [reflexivity|constructor].
Defined.

(** ** The remote lister: listings that end *)

Lemma listS3FilesFrom_last (fuel : nat) (env : Env) (p : s3Path)
    (token : option string) (out : ListObjectsV2Output) :
  s3_ListObjectsV2 env p token = inl out ->
  NextContinuationToken out = None ->
  listS3FilesFrom (S fuel) env p token
  = Some {| sent := pageRecords p out; requests := [token] |}.
Proof.
  intros H Hnext. simpl. unfold listS3FileWithToken. rewrite H, Hnext.
  reflexivity.
Qed.

Lemma listing_from_ends_at_last_page (env : Env) (p : s3Path)
    (token last : option string) (outs : list ListObjectsV2Output)
    (final : ListObjectsV2Output) :
  pagesFetched env p token outs last ->
  s3_ListObjectsV2 env p last = inl final ->
  NextContinuationToken final = None ->
  forall fuel, (length outs < fuel)%nat ->
  listS3FilesFrom fuel env p token
  = Some {| sent := flat_map (pageRecords p) (outs ++ [final]);
            requests := token :: map NextContinuationToken outs |}.
Proof.
  intros Hpages Hfinal Hnone.
  induction Hpages as [tok|tok out next outs last Hout Hnext _ IH];
    intros fuel Hfuel; (destruct fuel as [|fuel]; [simpl in Hfuel; lia|]).
  - rewrite (listS3FilesFrom_last _ _ _ _ _ Hfinal Hnone). simpl.
    rewrite app_nil_r. reflexivity.
  - rewrite (listS3FilesFrom_page _ _ _ _ _ _ Hout Hnext).
    rewrite (IH Hfinal fuel) by (simpl in Hfuel; lia).
    simpl. rewrite Hnext. reflexivity.
Qed.

(** X7.  When every page request succeeds and the last page carries no
    continuation token, the lister has sent the records of all the pages,
    in order, and no sentinel for the listing; it has made one request per
    page, each with the token of the page before. *)
Theorem listing_ends_at_page_without_token (env : Env) (p : s3Path)
    (outs : list ListObjectsV2Output) (last : option string)
    (final : ListObjectsV2Output) (fuel : nat) :
  pagesFetched env p None outs last ->
  s3_ListObjectsV2 env p last = inl final ->
  NextContinuationToken final = None ->
  (length outs < fuel)%nat ->
  listS3Files fuel env p
  = Some {| sent := flat_map (pageRecords p) (outs ++ [final]);
            requests := None :: map NextContinuationToken outs |}
  /\ length (None :: map NextContinuationToken outs) = length (outs ++ [final]).
Proof.
  intros Hpages Hfinal Hnone Hfuel. split.
  - apply (listing_from_ends_at_last_page _ _ _ _ _ _ Hpages Hfinal Hnone).
    exact Hfuel.
  - simpl. rewrite length_map, length_app. simpl. lia.
Qed.

Lemma listing_ends_at_page_without_token_witness :
  listS3Files 2 Store.env Sample.source
  = Some {| sent := flat_map (pageRecords Sample.source)
                      ([Sample.page1] ++ [Store.page2]);
            requests := None :: map NextContinuationToken [Sample.page1] |}
  /\ length (None :: map NextContinuationToken [Sample.page1])
     = length ([Sample.page1] ++ [Store.page2]).
Proof.
  apply (listing_ends_at_page_without_token Store.env Sample.source
           [Sample.page1] (Some "t1")).
  - apply (pagesFetched_cons _ _ None Sample.page1 "t1" [] (Some "t1"));
      [reflexivity|reflexivity|apply pagesFetched_nil].
  - reflexivity.
  - reflexivity.
  - simpl. lia.
Defined.

(** ** The remote lister: one record per object *)

Lemma sendObject_length (p : s3Path) (object : s3Object) :
  length (sendObject p object) = 1.
Proof.
  unfold sendObject.
  destruct (filepath_Rel (bucketPrefix p) (Key object)) as [n [e|]];
    reflexivity.
Qed.

Lemma pageRecords_length (p : s3Path) (out : ListObjectsV2Output) :
  length (pageRecords p out) = length (Contents out).
Proof.
  unfold pageRecords. induction (Contents out) as [|o objs IH];
    [reflexivity|].
  simpl. rewrite length_app, sendObject_length, IH. reflexivity.
Qed.

(** X8.  An object of a page whose key [Rel] cannot relate to the prefix is
    sent as an error sentinel, in its place among the records of the page:
    the objects after it are still sent, and the page sends as many
    records as it has objects. *)
Theorem page_sends_one_record_per_object (p : s3Path)
    (out : ListObjectsV2Output) (objs1 objs2 : list s3Object)
    (bad : s3Object) (n : string) (e : error) :
  Contents out = objs1 ++ bad :: objs2 ->
  filepath_Rel (bucketPrefix p) (Key bad) = (n, Some e) ->
  pageRecords p out
  = flat_map (sendObject p) objs1
    ++ errorInfo e :: flat_map (sendObject p) objs2
  /\ length (pageRecords p out) = length (Contents out).
Proof.
  intros Hc HRel. split; [|apply pageRecords_length].
  unfold pageRecords. rewrite Hc, flat_map_app. simpl.
  unfold sendObject at 2. rewrite HRel. reflexivity.
Qed.

Lemma page_sends_one_record_per_object_witness :
  pageRecords Sample.source Store.mixedPage
  = flat_map (sendObject Sample.source)
      [ {| Key := "a.txt"; Size := 10%Z; LastModified := Sample.t100 |} ]
    ++ errorInfo (relError "" "/abs.txt")
       :: flat_map (sendObject Sample.source)
            [ {| Key := "c.txt"; Size := 30%Z;
                 LastModified := Sample.t200 |} ]
  /\ length (pageRecords Sample.source Store.mixedPage)
     = length (Contents Store.mixedPage).
Proof.
  apply (page_sends_one_record_per_object Sample.source Store.mixedPage
           _ _ Store.rootedKey "").
  - reflexivity.
  - vm_compute. reflexivity.
Defined.

(** ** The remote lister: where its records come from *)

Lemma listS3FilesFrom_from_objects (fuel : nat) (env : Env) (p : s3Path) :
  forall (token : option string) (listing : Listing) (r : fileInfo),
    listS3FilesFrom fuel env p token = Some listing ->
    r ∈ sent listing ->
    err r = None ->
    exists tok out object,
      tok ∈ requests listing
      /\ s3_ListObjectsV2 env p tok = inl out
      /\ object ∈ Contents out
      /\ r = {| err := None;
                name := (filepath_Rel (bucketPrefix p) (Key object)).1;
                path := Key object; size := Size object;
                lastModified := LastModified object |}.
Proof.
  induction fuel as [|fuel IH]; intros token listing r H Hr Herr;
    [discriminate|].
  simpl in H. unfold listS3FileWithToken in H.
  destruct (s3_ListObjectsV2 env p token) as [out|e] eqn:Hout.
  - assert (Hpage : r ∈ flat_map (sendObject p) (Contents out) ->
        exists object, object ∈ Contents out
          /\ r = {| err := None;
                    name := (filepath_Rel (bucketPrefix p) (Key object)).1;
                    path := Key object; size := Size object;
                    lastModified := LastModified object |}).
    { intros Hin. apply list_elem_of_In, in_flat_map in Hin as (o & Ho & Hin).
      exists o. split; [apply list_elem_of_In; exact Ho|].
      unfold sendObject in Hin.
      destruct (filepath_Rel (bucketPrefix p) (Key o)) as [n [e|]];
        simpl in Hin; destruct Hin as [<-|[]]; [discriminate|reflexivity]. }
    destruct (NextContinuationToken out) as [next|].
    + destruct (listS3FilesFrom fuel env p (Some next)) as [l|] eqn:Hl;
        [|discriminate].
      injection H as <-. simpl in *. apply elem_of_app in Hr as [Hr|Hr].
      * destruct (Hpage Hr) as (o & Ho & ->).
        exists token, out, o. repeat split; [left|exact Hout|exact Ho].
      * destruct (IH _ _ _ Hl Hr Herr) as (tok & out' & o & Ht & Ho' & Ho & ->).
        exists tok, out', o. repeat split; [right; exact Ht|exact Ho'|exact Ho].
    + injection H as <-. simpl in *.
      destruct (Hpage Hr) as (o & Ho & ->).
      exists token, out, o. repeat split; [left|exact Hout|exact Ho].
  - injection H as <-. simpl in Hr. apply list_elem_of_singleton in Hr.
    subst r. discriminate.
Qed.

(** X9.  Every record without an error that the remote lister sends
    describes an object of a page it requested: its path is the key of the
    object, its size and its time are those of the object, and its name is
    what [Rel] makes of the key under the prefix. *)
Theorem listing_records_come_from_objects (fuel : nat) (env : Env)
    (p : s3Path) (listing : Listing) (r : fileInfo) :
  listS3Files fuel env p = Some listing ->
  r ∈ sent listing ->
  err r = None ->
  exists token out object,
    token ∈ requests listing
    /\ s3_ListObjectsV2 env p token = inl out
    /\ object ∈ Contents out
    /\ r = {| err := None;
              name := (filepath_Rel (bucketPrefix p) (Key object)).1;
              path := Key object; size := Size object;
              lastModified := LastModified object |}.
Proof.
  unfold listS3Files. intros Hlisting Hr Herr.
  exact (listS3FilesFrom_from_objects fuel env p None listing r
           Hlisting Hr Herr).
Qed.

Lemma listing_records_come_from_objects_witness :
  exists token out object,
    token ∈ requests Store.listing
    /\ s3_ListObjectsV2 Store.env Sample.source token = inl out
    /\ object ∈ Contents out
    /\ Store.remoteC
       = {| err := None;
            name := (filepath_Rel (bucketPrefix Sample.source)
                       (Key object)).1;
            path := Key object; size := Size object;
            lastModified := LastModified object |}.
Proof.
  apply (listing_records_come_from_objects 2 Store.env Sample.source).
  - reflexivity.
  - right. right. left.
  - reflexivity.
Defined.

(** ** Keys that [Rel] cannot relate to the prefix *)

(** X10.  When exactly one of the prefix and the key of an object begins with
    a separator, the lister sends an error sentinel for the object, with
    the error of [Rel], and no record of the object. *)
Theorem key_of_other_rootedness_is_sentinel (p : s3Path)
    (object : s3Object) :
  isRooted (list_ascii_of_string (bucketPrefix p))
  <> isRooted (list_ascii_of_string (Key object)) ->
  sendObject p object
  = [errorInfo (relError (bucketPrefix p) (Key object))].
Proof.
  intros Hroot. unfold sendObject. rewrite filepath_Rel_spec.
  destruct (String.eqb_spec (filepath_Clean (Key object))
              (filepath_Clean (bucketPrefix p))) as [Heq|_].
  - exfalso. apply Hroot.
    apply (f_equal (fun s => isRooted (list_ascii_of_string s))) in Heq.
    rewrite !Clean_bytes in Heq.
    rewrite !isRooted_renderState in Heq by apply cleanState_wf.
    symmetry. exact Heq.
  - destruct (isRooted (list_ascii_of_string (bucketPrefix p))),
      (isRooted (list_ascii_of_string (Key object)));
      try reflexivity; contradiction Hroot; reflexivity.
Qed.

Lemma key_of_other_rootedness_is_sentinel_witness :
  sendObject Sample.source Store.rootedKey
  = [errorInfo (relError (bucketPrefix Sample.source)
                  (Key Store.rootedKey))].
Proof.
  apply key_of_other_rootedness_is_sentinel. discriminate.
Defined.

(** ** The local lister: the walk *)

Lemma walkLoop_clean (basePath : string) (visits : list Visit) :
  Forall (fun v => visitErr v = None) visits ->
  walkLoop basePath visits
  = (flat_map (fun v => sendFileInfoToChannel basePath (visitPath v)
                          (visitStat v)) visits, None).
Proof.
  induction 1 as [|v visits Hv _ IH]; simpl; [reflexivity|].
  rewrite Hv, IH. reflexivity.
Qed.

Lemma walkLoop_failed (basePath : string) (pre post : list Visit)
    (bad : Visit) (e : error) :
  Forall (fun v => visitErr v = None) pre ->
  visitErr bad = Some e ->
  walkLoop basePath (pre ++ bad :: post)
  = (flat_map (fun v => sendFileInfoToChannel basePath (visitPath v)
                          (visitStat v)) pre, Some e).
Proof.
  intros Hpre Hbad.
  induction Hpre as [|v pre Hv _ IH]; simpl.
  - rewrite Hbad. reflexivity.
  - rewrite Hv, IH. reflexivity.
Qed.

Lemma walkLoop_visited (basePath : string) (visits : list Visit)
    (r : fileInfo) :
  r ∈ (walkLoop basePath visits).1 ->
  exists v, v ∈ visits /\ visitErr v = None
    /\ r ∈ sendFileInfoToChannel basePath (visitPath v) (visitStat v).
Proof.
  induction visits as [|v visits IH]; simpl; [intros H; inversion H|].
  destruct (visitErr v) as [e|] eqn:Hv; [intros H; inversion H|].
  destruct (walkLoop basePath visits) as [out e]. simpl in *.
  intros H. apply elem_of_app in H as [H|H].
  - exists v. split; [left|auto].
  - destruct (IH H) as (v' & Hin & Hok & Hr).
    exists v'. split; [right; exact Hin|auto].
Qed.

Lemma sendFileInfoToChannel_record (basePath path : string)
    (stat : option FileStat) (r : fileInfo) :
  r ∈ sendFileInfoToChannel basePath path stat ->
  exists st, stat = Some st /\ IsDir st = false
    /\ r = {| err := None; name := (filepath_Rel basePath path).1;
              path := path; size := statSize st;
              lastModified := ModTime st |}.
Proof.
  unfold sendFileInfoToChannel.
  destruct stat as [st|]; [|intros H; inversion H].
  destruct (IsDir st) eqn:Hdir; [intros H; inversion H|].
  destruct (filepath_Rel basePath path) as [relPath e].
  intros H. apply list_elem_of_singleton in H. exists st. auto.
Qed.

(** X11.  When the walk of a directory fails at some entry, the local lister
    sends the files visited before that entry, then one error sentinel
    with the error of the walk, and nothing of the entries after it. *)
Theorem walk_error_ends_listing (env : Env) (basePath : string)
    (stat : FileStat) (pre post : list Visit) (bad : Visit) (e : error) :
  os_Stat env basePath = inl stat ->
  IsDir stat = true ->
  filepath_Walk env basePath = pre ++ bad :: post ->
  Forall (fun v => visitErr v = None) pre ->
  visitErr bad = Some e ->
  listLocalFiles env basePath
  = flat_map (fun v => sendFileInfoToChannel basePath (visitPath v)
                         (visitStat v)) pre
    ++ [errorInfo e].
Proof.
  intros Hstat Hdir Hwalk Hpre Hbad.
  unfold listLocalFiles, filepath_ToSlash. rewrite Hstat, Hwalk.
  rewrite (walkLoop_failed _ _ _ _ _ Hpre Hbad).
  unfold sendFileInfoToChannel at 1. rewrite Hdir. reflexivity.
Qed.

Lemma walk_error_ends_listing_witness :
  listLocalFiles Store.env "/denied"
  = flat_map (fun v => sendFileInfoToChannel "/denied" (visitPath v)
                         (visitStat v))
      [ {| visitPath := "/denied"; visitStat := Some Sample.dirStat;
           visitErr := None |};
        {| visitPath := "/denied/a.txt"; visitStat := Some Store.deniedFile;
           visitErr := None |} ]
    ++ [errorInfo Sample.walkFailed].
Proof.
  apply (walk_error_ends_listing Store.env "/denied" Sample.dirStat _
           [ {| visitPath := "/denied/z.txt";
                visitStat := Some Store.deniedFile; visitErr := None |} ]
           {| visitPath := "/denied/dir"; visitStat := None;
              visitErr := Some Sample.walkFailed |}).
  - reflexivity.
  - reflexivity.
  - reflexivity.
  - repeat constructor.
  - reflexivity.
Defined.

(** X12.  When the walk of a directory reports no error, the local lister
    sends what the visits send, in the order of the walk, and none of its
    records carries an error. *)
Theorem clean_walk_lists_files_only (env : Env) (basePath : string)
    (stat : FileStat) :
  os_Stat env basePath = inl stat ->
  IsDir stat = true ->
  Forall (fun v => visitErr v = None) (filepath_Walk env basePath) ->
  listLocalFiles env basePath
  = flat_map (fun v => sendFileInfoToChannel basePath (visitPath v)
                         (visitStat v)) (filepath_Walk env basePath)
  /\ Forall (fun r => err r = None) (listLocalFiles env basePath).
Proof.
  intros Hstat Hdir Hwalk.
  assert (H : listLocalFiles env basePath
    = flat_map (fun v => sendFileInfoToChannel basePath (visitPath v)
                           (visitStat v)) (filepath_Walk env basePath)).
  { unfold listLocalFiles, filepath_ToSlash. rewrite Hstat.
    rewrite (walkLoop_clean _ _ Hwalk).
    unfold sendFileInfoToChannel at 1. rewrite Hdir. simpl.
    apply app_nil_r. }
  split; [exact H|]. rewrite H. apply Forall_forall. intros r Hr.
  apply list_elem_of_In, in_flat_map in Hr as (v & _ & Hr).
  apply list_elem_of_In, sendFileInfoToChannel_record in Hr
    as (st & _ & _ & ->).
  reflexivity.
Qed.

Lemma clean_walk_lists_files_only_witness :
  listLocalFiles Sample.env "/local"
  = flat_map (fun v => sendFileInfoToChannel "/local" (visitPath v)
                         (visitStat v)) (filepath_Walk Sample.env "/local")
  /\ Forall (fun r => err r = None) (listLocalFiles Sample.env "/local").
Proof.
  apply (clean_walk_lists_files_only Sample.env "/local" Sample.dirStat).
  - reflexivity.
  - reflexivity.
  - repeat constructor.
Defined.

(** X13.  Every record without an error that the local lister sends describes
    a file that is not a directory: the root itself, or an entry the walk
    visited without error; its size and its time are those of the file, and
    its name is what [Rel] makes of its path under the root. *)
Theorem local_records_come_from_files (env : Env) (basePath : string)
    (r : fileInfo) :
  r ∈ listLocalFiles env basePath ->
  err r = None ->
  exists st,
    IsDir st = false
    /\ r = {| err := None; name := (filepath_Rel basePath (path r)).1;
              path := path r; size := statSize st;
              lastModified := ModTime st |}
    /\ ((path r = basePath /\ os_Stat env basePath = inl st)
        \/ exists v, v ∈ filepath_Walk env basePath
             /\ visitPath v = path r /\ visitStat v = Some st
             /\ visitErr v = None).
Proof.
  unfold listLocalFiles, filepath_ToSlash. intros Hr Herr.
  destruct (os_Stat env basePath) as [stat|e] eqn:Hstat.
  - apply elem_of_app in Hr as [Hr|Hr].
    + apply sendFileInfoToChannel_record in Hr as (st & [= <-] & Hdir & ->).
      exists stat. simpl. auto.
    + destruct (IsDir stat); simpl in Hr; [|inversion Hr].
      destruct (walkLoop basePath (filepath_Walk env basePath))
        as [out we] eqn:Hw.
      apply elem_of_app in Hr as [Hr|Hr].
      * replace out
          with (walkLoop basePath (filepath_Walk env basePath)).1 in Hr
          by (rewrite Hw; reflexivity).
        apply walkLoop_visited in Hr as (v & Hv & Hok & Hr).
        apply sendFileInfoToChannel_record in Hr as (st & Hst & Hdir & ->).
        exists st. simpl. split; [exact Hdir|]. split; [reflexivity|].
        right. exists v. auto.
      * destruct we as [e|]; [|inversion Hr].
        apply list_elem_of_singleton in Hr. subst r. discriminate.
  - destruct (IsNotExist e); [inversion Hr|].
    apply list_elem_of_singleton in Hr. subst r. discriminate.
Qed.

Lemma local_records_come_from_files_witness :
  exists st,
    IsDir st = false
    /\ Store.localFile
       = {| err := None;
            name := (filepath_Rel "/local" (path Store.localFile)).1;
            path := path Store.localFile; size := statSize st;
            lastModified := ModTime st |}
    /\ ((path Store.localFile = "/local"
         /\ os_Stat Sample.env "/local" = inl st)
        \/ exists v, v ∈ filepath_Walk Sample.env "/local"
             /\ visitPath v = path Store.localFile
             /\ visitStat v = Some st /\ visitErr v = None).
Proof.
  apply (local_records_come_from_files Sample.env "/local" Store.localFile).
  - left.
  - reflexivity.
Defined.

(** ** One download *)

(** X14.  [download] performs its three steps in order and stops at the first
    that fails: the directory is always created, the file is created only
    when the directory was, the object is requested only when the file was
    created, and the call returns nil exactly when all three steps
    succeed. *)
Theorem download_fetches_only_after_create (env : Env) (file : fileInfo)
    (sourcePath : s3Path) (destPath : string) :
  let targetFilename := filepath_Join [destPath; name file] in
  let targetDir := filepath_Dir targetFilename in
  let key := filepath_Join [bucketPrefix sourcePath; name file] in
  let evs := (download env file sourcePath destPath).2 in
  evs `prefix_of` [IOMkdirAll targetDir; IOCreate targetFilename;
                   IOGetObject (bucket sourcePath) key]
  /\ IOMkdirAll targetDir ∈ evs
  /\ (IOCreate targetFilename ∈ evs <-> os_MkdirAll env targetDir = None)
  /\ (IOGetObject (bucket sourcePath) key ∈ evs
      <-> os_MkdirAll env targetDir = None
          /\ os_Create env targetFilename = None)
  /\ ((download env file sourcePath destPath).1 = None
      <-> os_MkdirAll env targetDir = None
          /\ os_Create env targetFilename = None
          /\ s3_Download env (bucket sourcePath) key targetFilename = None).
Proof.
  intros targetFilename targetDir key evs. subst evs.
  unfold download, getObjectInput.
  fold targetFilename. fold targetDir. fold key.
  destruct (os_MkdirAll env targetDir) as [e1|] eqn:H1.
  - simpl. split; [eexists; reflexivity|]. split; [left|]. split; [|split].
    + split; [|discriminate]. intros H.
      apply list_elem_of_singleton in H. discriminate.
    + split; [|intros [H _]; discriminate].
      intros H. apply list_elem_of_singleton in H. discriminate.
    + split; [discriminate|intros [H _]; discriminate].
  - destruct (os_Create env targetFilename) as [e2|] eqn:H2; simpl.
    + split; [eexists; reflexivity|]. split; [left|]. split; [|split].
      * split; [reflexivity|]. intros _. right. left.
      * split; [|intros [_ H]; discriminate].
        intros H. apply elem_of_cons in H as [H|H]; [discriminate|].
        apply list_elem_of_singleton in H. discriminate.
      * split; [discriminate|intros (_ & H & _); discriminate].
    + split; [exists []; reflexivity|]. split; [left|]. split; [|split].
      * split; [reflexivity|]. intros _. right. left.
      * split; [auto|]. intros _. right. right. left.
      * split; [auto|intros (_ & _ & H); exact H].
Qed.

(** ** The goroutines of one call *)

Lemma runGoroutines_errMsgs (env : Env) (sp : s3Path) (dp : string)
    (order : list fileInfo) (st : FetchState) :
  errMsgs (runGoroutines env sp dp order st)
  = errMsgs st ++ omap (failureOf env sp dp) order.
Proof.
  revert st. induction order as [|x order IH]; intros st.
  - simpl. rewrite app_nil_r. reflexivity.
  - change (runGoroutines env sp dp (x :: order) st)
      with (runGoroutines env sp dp order (goroutine env sp dp x st)).
    rewrite IH, goroutine_errMsgs, <- app_assoc. f_equal.
    simpl. destruct (failureOf env sp dp x); reflexivity.
Qed.

Lemma goroutine_ioLog (env : Env) (sp : s3Path) (dp : string)
    (source : fileInfo) (st : FetchState) :
  ioLog (goroutine env sp dp source st)
  = ioLog st ++ goroutineIO env sp dp source.
Proof.
  unfold goroutine, goroutineIO.
  destruct (err source) as [e|]; [simpl; rewrite app_nil_r; reflexivity|].
  destruct (download env source sp dp) as [[e|] evs]; reflexivity.
Qed.

Lemma runGoroutines_ioLog (env : Env) (sp : s3Path) (dp : string)
    (order : list fileInfo) (st : FetchState) :
  ioLog (runGoroutines env sp dp order st)
  = ioLog st ++ flat_map (goroutineIO env sp dp) order.
Proof.
  revert st. induction order as [|x order IH]; intros st.
  - simpl. rewrite app_nil_r. reflexivity.
  - change (runGoroutines env sp dp (x :: order) st)
      with (runGoroutines env sp dp order (goroutine env sp dp x st)).
    rewrite IH, goroutine_ioLog, <- app_assoc. reflexivity.
Qed.

Lemma joinErrors_None (msgs : list string) :
  joinErrors msgs = None <-> msgs = [].
Proof.
  unfold joinErrors. destruct msgs; simpl; split; congruence.
Qed.

Lemma omap_nil_iff {A B : Type} (f : A -> option B) (l : list A) :
  omap f l = [] <-> forall x, x ∈ l -> f x = None.
Proof.
  induction l as [|x l IH].
  - split; [intros _ y Hy; inversion Hy|reflexivity].
  - change (omap f (x :: l))
      with (match f x with Some y => y :: omap f l | None => omap f l end).
    destruct (f x) as [y|] eqn:Hx.
    + split; [discriminate|]. intros H.
      specialize (H x (list_elem_of_here _ _)). congruence.
    + rewrite IH. split.
      * intros H y Hy. apply elem_of_cons in Hy as [->|Hy]; auto.
      * intros H y Hy. apply H. right. exact Hy.
Qed.

(** X15.  When each goroutine runs once, [syncS3ToLocal] returns nil exactly
    when no record the filter forwarded carries an error and no download
    failed. *)
Theorem sync_succeeds_iff_no_failure (fuel : nat) (env : Env) (sp : s3Path)
    (dp : string) (remote : Listing) :
  listS3Files fuel env sp = Some remote ->
  (forall l, goroutineOrder env l ≡ₚ l) ->
  exists out,
    syncS3ToLocal fuel env sp dp = Some out
    /\ (result out = None
        <-> forall r,
              r ∈ filterFilesForSync (sent remote) (listLocalFiles env dp) ->
              failureOf env sp dp r = None).
Proof.
  intros Hl Hsched. unfold syncS3ToLocal. rewrite Hl.
  eexists. split; [reflexivity|]. simpl.
  rewrite joinErrors_None, runGoroutines_errMsgs. simpl.
  rewrite omap_nil_iff.
  split; intros H r Hr; apply H.
  - rewrite Hsched. exact Hr.
  - rewrite <- (Hsched _). exact Hr.
Qed.

Lemma sync_succeeds_iff_no_failure_witness :
  exists out,
    syncS3ToLocal 2 Store.env Sample.source "/local" = Some out
    /\ (result out = None
        <-> forall r,
              r ∈ filterFilesForSync (sent Store.listing)
                    (listLocalFiles Store.env "/local") ->
              failureOf Store.env Sample.source "/local" r = None).
Proof.
  apply (sync_succeeds_iff_no_failure 2 Store.env Sample.source "/local"
           Store.listing).
  - reflexivity.
  - intros l. reflexivity.
Defined.

(** ** What one call downloads *)

Lemma syncS3ToLocal_io (fuel : nat) (env : Env) (sp : s3Path) (dp : string)
    (remote : Listing) :
  listS3Files fuel env sp = Some remote ->
  exists out,
    syncS3ToLocal fuel env sp dp = Some out
    /\ result out
       = joinErrors
           (omap (failureOf env sp dp)
              (goroutineOrder env
                 (filterFilesForSync (sent remote) (listLocalFiles env dp))))
    /\ io out
       = map (IOListObjectsV2 sp) (requests remote)
         ++ listLocalFilesIO env dp
         ++ flat_map (goroutineIO env sp dp)
              (goroutineOrder env
                 (filterFilesForSync (sent remote) (listLocalFiles env dp))).
Proof.
  intros Hl. unfold syncS3ToLocal. rewrite Hl.
  eexists. split; [reflexivity|]. simpl.
  rewrite runGoroutines_errMsgs, runGoroutines_ioLog. auto.
Qed.

Lemma download_starts_with_MkdirAll (env : Env) (file : fileInfo)
    (sp : s3Path) (dp : string) :
  IOMkdirAll (filepath_Dir (filepath_Join [dp; name file]))
    ∈ (download env file sp dp).2.
Proof.
  unfold download.
  destruct (os_MkdirAll env _); [left|].
  destruct (os_Create env _); left.
Qed.

(** X16.  When each goroutine runs once, every record without an error that
    the filter forwarded has its download started, whatever happens to the
    others: the call creates the directory of its target. *)
Theorem every_dispatched_record_is_attempted (fuel : nat) (env : Env)
    (sp : s3Path) (dp : string) (remote : Listing) :
  listS3Files fuel env sp = Some remote ->
  (forall l, goroutineOrder env l ≡ₚ l) ->
  exists out,
    syncS3ToLocal fuel env sp dp = Some out
    /\ forall r,
         r ∈ filterFilesForSync (sent remote) (listLocalFiles env dp) ->
         err r = None ->
         IOMkdirAll (filepath_Dir (filepath_Join [dp; name r])) ∈ io out.
Proof.
  intros Hl Hsched.
  destruct (syncS3ToLocal_io fuel env sp dp remote Hl) as (out & Hout & _ & Hio).
  exists out. split; [exact Hout|]. intros r Hr Herr.
  rewrite Hio. apply elem_of_app. right. apply elem_of_app. right.
  apply list_elem_of_In, in_flat_map. exists r. split.
  - apply list_elem_of_In. rewrite Hsched. exact Hr.
  - apply list_elem_of_In. unfold goroutineIO. rewrite Herr.
    apply download_starts_with_MkdirAll.
Qed.

Lemma every_dispatched_record_is_attempted_witness :
  exists out,
    syncS3ToLocal 2 Store.env Sample.source "/missing" = Some out
    /\ forall r,
         r ∈ filterFilesForSync (sent Store.listing)
               (listLocalFiles Store.env "/missing") ->
         err r = None ->
         IOMkdirAll (filepath_Dir (filepath_Join ["/missing"; name r]))
           ∈ io out.
Proof.
  apply (every_dispatched_record_is_attempted 2 Store.env Sample.source
           "/missing" Store.listing).
  - reflexivity.
  - intros l. reflexivity.
Defined.

Lemma filterFilesForSync_from_source (src dst : list fileInfo)
    (r : fileInfo) :
  r ∈ filterFilesForSync src dst -> err r = None -> r ∈ src.
Proof.
  unfold filterFilesForSync.
  destruct (fileInfoChanToMap dst) as [m [e|]].
  - intros H. apply list_elem_of_singleton in H. subst r. discriminate.
  - intros H _. apply elem_of_filterLoop in H as [H _]. exact H.
Qed.

(** X17.  Every object a call requests from the bucket belongs to a record
    without an error that the remote lister sent and the filter forwarded;
    the request names the bucket of the source and the prefix joined with
    the name of that record. *)
Theorem downloads_only_listed_objects (fuel : nat) (env : Env)
    (sp : s3Path) (dp : string) (remote : Listing) (out : Outcome)
    (b k : string) :
  listS3Files fuel env sp = Some remote ->
  (forall l, goroutineOrder env l ≡ₚ l) ->
  syncS3ToLocal fuel env sp dp = Some out ->
  IOGetObject b k ∈ io out ->
  exists r,
    r ∈ sent remote
    /\ r ∈ filterFilesForSync (sent remote) (listLocalFiles env dp)
    /\ err r = None
    /\ b = bucket sp
    /\ k = filepath_Join [bucketPrefix sp; name r].
Proof.
  intros Hl Hsched Hout Hin.
  destruct (syncS3ToLocal_io fuel env sp dp remote Hl) as (out' & Hout' & _ & Hio).
  rewrite Hout in Hout'. injection Hout' as <-. rewrite Hio in Hin.
  apply elem_of_app in Hin as [Hin|Hin].
  { apply list_elem_of_In, in_map_iff in Hin as (t & Ht & _). discriminate. }
  apply elem_of_app in Hin as [Hin|Hin].
  { unfold listLocalFilesIO in Hin.
    apply elem_of_cons in Hin as [Hin|Hin]; [discriminate|].
    destruct (os_Stat env _) as [st|]; [|inversion Hin].
    destruct (IsDir st); [|inversion Hin].
    apply list_elem_of_singleton in Hin. discriminate. }
  apply list_elem_of_In, in_flat_map in Hin as (r & Hr & Hin).
  apply list_elem_of_In in Hr, Hin. rewrite Hsched in Hr.
  unfold goroutineIO in Hin.
  destruct (err r) as [e|] eqn:Herr; [inversion Hin|].
  apply download_GetObject in Hin. injection Hin as -> ->.
  exists r. split; [|auto].
  apply (filterFilesForSync_from_source _ _ _ Hr Herr).
Qed.

Lemma downloads_only_listed_objects_witness :
  exists r,
    r ∈ sent Store.listing
    /\ r ∈ filterFilesForSync (sent Store.listing)
             (listLocalFiles Store.env "/local")
    /\ err r = None
    /\ "bucket" = bucket Sample.source
    /\ "dir/b.txt" = filepath_Join [bucketPrefix Sample.source; name r].
Proof.
  apply (downloads_only_listed_objects 2 Store.env Sample.source "/local"
           Store.listing Store.synced).
  - reflexivity.
  - intros l. reflexivity.
  - vm_compute. reflexivity.
  - do 9 right. left.
Defined.

(** ** Failures of the listers, seen from the call *)

(** X18.  When the local lister sends a record with an error, the
    goroutines started for what the filter forwards, whatever the remote
    lister sent, append the text of the first such error and perform no
    I/O; so a call that completes created no directory and no file and
    requested no object, and returned one error with that text. *)
Theorem local_failure_aborts_call (fuel : nat) (env : Env) (sp : s3Path)
    (dp : string) (pre post : list fileInfo) (bad : fileInfo) (e : error) :
  listLocalFiles env dp = pre ++ bad :: post ->
  Forall (fun f => err f = None) pre ->
  err bad = Some e ->
  (forall l, goroutineOrder env l ≡ₚ l) ->
  (forall sourceFileChan,
     runGoroutines env sp dp
       (goroutineOrder env
          (filterFilesForSync sourceFileChan (listLocalFiles env dp)))
       {| errMsgs := []; ioLog := [] |}
     = {| errMsgs := [Error e]; ioLog := [] |})
  /\ (forall out,
        syncS3ToLocal fuel env sp dp = Some out ->
        result out = Some (errors_New (Error e))
        /\ Forall (fun ev => isDownloadEvent ev = false) (io out)).
Proof.
  intros Hlocal Hpre Hbad Hsched.
  assert (Hrun : forall src,
    runGoroutines env sp dp
      (goroutineOrder env (filterFilesForSync src (listLocalFiles env dp)))
      {| errMsgs := []; ioLog := [] |}
    = {| errMsgs := [Error e]; ioLog := [] |}).
  { intros src.
    assert (Hd : filterFilesForSync src (listLocalFiles env dp)
                 = [errorInfo e]).
    { unfold filterFilesForSync, fileInfoChanToMap. rewrite Hlocal.
      rewrite fileInfoChanToMap_loop_app by exact Hpre. simpl.
      rewrite Hbad. reflexivity. }
    rewrite Hd.
    assert (Ho : goroutineOrder env [errorInfo e] = [errorInfo e])
      by (apply Permutation_singleton_r, Hsched).
    rewrite Ho. reflexivity. }
  split; [exact Hrun|]. intros out Hout. unfold syncS3ToLocal in Hout.
  destruct (listS3Files fuel env sp) as [remote|]; [|discriminate].
  injection Hout as <-. cbn [result io]. rewrite Hrun. cbn [errMsgs ioLog].
  split; [reflexivity|]. rewrite app_nil_r.
  apply Forall_app. split.
  - apply Forall_forall. intros ev Hev.
    apply list_elem_of_In, in_map_iff in Hev as (t & <- & _). reflexivity.
  - unfold listLocalFilesIO. constructor; [reflexivity|].
    destruct (os_Stat env _) as [st|]; [|constructor].
    destruct (IsDir st); repeat constructor.
Qed.

Lemma local_failure_aborts_call_witness :
  (forall sourceFileChan,
     runGoroutines Store.env Sample.source "/denied"
       (goroutineOrder Store.env
          (filterFilesForSync sourceFileChan
             (listLocalFiles Store.env "/denied")))
       {| errMsgs := []; ioLog := [] |}
     = {| errMsgs := [Error Sample.walkFailed]; ioLog := [] |})
  /\ (forall out,
        syncS3ToLocal 2 Store.env Sample.source "/denied" = Some out ->
        result out = Some (errors_New (Error Sample.walkFailed))
        /\ Forall (fun ev => isDownloadEvent ev = false) (io out)).
Proof.
  apply (local_failure_aborts_call 2 Store.env Sample.source "/denied"
           [Store.deniedA] [] (errorInfo Sample.walkFailed)).
  - reflexivity.
  - repeat constructor.
  - reflexivity.
  - intros l. reflexivity.
Defined.

(** X19.  When a page request fails and the local index holds no record
    under the empty name, the call returns an error, and the text of the
    failed request is one of the messages joined in it. *)
Theorem listing_failure_reaches_result (fuel : nat) (env : Env)
    (sp : s3Path) (dp : string) (outs : list ListObjectsV2Output)
    (last : option string) (e : error) (destFiles : gmap string fileInfo) :
  pagesFetched env sp None outs last ->
  s3_ListObjectsV2 env sp last = inr e ->
  (length outs < fuel)%nat ->
  fileInfoChanToMap (listLocalFiles env dp) = (destFiles, None) ->
  destFiles !! "" = None ->
  (forall l, goroutineOrder env l ≡ₚ l) ->
  exists out msgs,
    syncS3ToLocal fuel env sp dp = Some out
    /\ result out = Some (errors_New (String.concat newline msgs))
    /\ Error e ∈ msgs.
Proof.
  intros Hpages Hfail Hfuel Hidx Hnone Hsched.
  pose proof (listing_from_stops_at_failed_page _ _ _ _ _ _ Hpages Hfail
                fuel Hfuel) as Hl.
  destruct (syncS3ToLocal_io fuel env sp dp _ Hl) as (out & Hout & Hres & _).
  simpl in Hres. rewrite (filterFilesForSync_ok _ _ _ Hidx) in Hres.
  set (order := goroutineOrder env _) in Hres.
  assert (Hin : errorInfo e ∈ order).
  { unfold order. rewrite Hsched. apply elem_of_filterLoop. split.
    - apply elem_of_app. right. left.
    - unfold needsSync. simpl. rewrite Hnone. reflexivity. }
  assert (Hmsg : Error e ∈ omap (failureOf env sp dp) order).
  { apply list_elem_of_omap. exists (errorInfo e). split; [exact Hin|].
    reflexivity. }
  exists out, (omap (failureOf env sp dp) order).
  split; [exact Hout|]. split; [|exact Hmsg].
  rewrite Hres. unfold joinErrors.
  destruct (omap (failureOf env sp dp) order) as [|m msgs];
    [inversion Hmsg|].
  rewrite strings_Join_concat. reflexivity.
Qed.

Lemma listing_failure_reaches_result_witness :
  exists out msgs,
    syncS3ToLocal 2 Sample.env Sample.source "/missing" = Some out
    /\ result out = Some (errors_New (String.concat newline msgs))
    /\ Error Sample.listFailed ∈ msgs.
Proof.
  apply (listing_failure_reaches_result 2 Sample.env Sample.source
           "/missing" [Sample.page1] (Some "t1") Sample.listFailed ∅).
  - apply (pagesFetched_cons _ _ None Sample.page1 "t1" [] (Some "t1"));
      [reflexivity|reflexivity|apply pagesFetched_nil].
  - reflexivity.
  - simpl. lia.
  - reflexivity.
  - reflexivity.
  - intros l. symmetry. apply Permutation.Permutation_rev.
Defined.

(** ** Names that lead below the root: list, download, list again *)

Lemma walkLoop_app (basePath : string) (pre rest : list Visit) :
  Forall (fun v => visitErr v = None) pre ->
  walkLoop basePath (pre ++ rest)
  = (flat_map (fun v => sendFileInfoToChannel basePath (visitPath v)
                          (visitStat v)) pre
     ++ (walkLoop basePath rest).1,
     (walkLoop basePath rest).2).
Proof.
  induction 1 as [|v pre Hv _ IH]; simpl.
  - destruct (walkLoop basePath rest); reflexivity.
  - rewrite Hv, IH. simpl. rewrite <- app_assoc. reflexivity.
Qed.

Lemma download_Create (env : Env) (file : fileInfo) (sp : s3Path)
    (dp target : string) :
  IOCreate target ∈ (download env file sp dp).2 ->
  target = filepath_Join [dp; name file].
Proof.
  unfold download. intros Hcreate.
  destruct (os_MkdirAll env _);
    [apply list_elem_of_singleton in Hcreate; discriminate|].
  destruct (os_Create env _); simpl in Hcreate;
    repeat (apply elem_of_cons in Hcreate as [Hcreate|Hcreate];
            [try discriminate; injection Hcreate as ->; reflexivity|]);
    inversion Hcreate.
Qed.

(** X20.  When the destination is a directory whose walk reaches, with no
    error before it, the file that [download] created for a record whose
    name consists of real path elements, the local lister run on that
    destination sends the file under the name of the record. *)
Theorem downloaded_file_relists_under_same_name (env : Env)
    (sourcePath : s3Path) (destPath target : string) (file : fileInfo)
    (N : list (list ascii)) (stat st : FileStat) (pre post : list Visit)
    (v : Visit) :
  Forall isName N -> N <> [] ->
  list_ascii_of_string (name file) = joinSep N ->
  IOCreate target ∈ (download env file sourcePath destPath).2 ->
  os_Stat env destPath = inl stat ->
  IsDir stat = true ->
  filepath_Walk env destPath = pre ++ v :: post ->
  Forall (fun v => visitErr v = None) pre ->
  visitErr v = None ->
  visitPath v = target ->
  visitStat v = Some st ->
  IsDir st = false ->
  {| err := None; name := name file; path := target;
     size := statSize st; lastModified := ModTime st |}
    ∈ listLocalFiles env destPath.
Proof.
  intros HN Hne Hn Hcreate Hstat Hdir Hwalk Hpre Hv Hpath Hvstat Hfile.
  apply download_Create in Hcreate.
  unfold listLocalFiles, filepath_ToSlash. rewrite Hstat, Hdir, Hwalk.
  rewrite (walkLoop_app _ _ _ Hpre). cbn [negb walkLoop]. rewrite Hv.
  destruct (walkLoop destPath post) as [out we]. cbn [fst snd].
  apply elem_of_app. right. apply elem_of_app. left.
  apply elem_of_app. right. apply elem_of_app. left.
  rewrite Hpath, Hvstat. unfold sendFileInfoToChannel. rewrite Hfile.
  rewrite Hcreate, (filepath_Rel_Join_down _ _ _ HN Hne Hn). left.
Qed.

Lemma downloaded_file_relists_under_same_name_witness :
  {| err := None; name := name Store.remoteFile; path := "/local/file.txt";
     size := statSize Sample.fileStat;
     lastModified := ModTime Sample.fileStat |}
    ∈ listLocalFiles Sample.env "/local".
Proof.
  apply (downloaded_file_relists_under_same_name Sample.env Sample.source
           "/local" "/local/file.txt" Store.remoteFile
           [list_ascii_of_string "file.txt"] Sample.dirStat Sample.fileStat
           [ {| visitPath := "/local"; visitStat := Some Sample.dirStat;
                visitErr := None |} ] []
           {| visitPath := "/local/file.txt";
              visitStat := Some Sample.fileStat; visitErr := None |}).
  - solve_names.
  - discriminate.
  - reflexivity.
  - vm_compute. right. left.
  - reflexivity.
  - reflexivity.
  - reflexivity.
  - repeat constructor.
  - reflexivity.
  - reflexivity.
  - reflexivity.
  - reflexivity.
Defined.

(** X21.  A record whose name consists of real path elements is not
    forwarded again once the file at its download target has the size of
    the record and a modification time that is not before the record's. *)
Theorem downloaded_file_not_fetched_again (destPath : string)
    (file : fileInfo) (N : list (list ascii)) (st : FileStat) :
  Forall isName N -> N <> [] ->
  list_ascii_of_string (name file) = joinSep N ->
  IsDir st = false ->
  statSize st = size file ->
  time_After (lastModified file) (ModTime st) = false ->
  filterFilesForSync [file]
    (sendFileInfoToChannel destPath (filepath_Join [destPath; name file])
       (Some st))
  = [].
Proof.
  intros HN Hne Hn Hdir Hsize Htime.
  unfold sendFileInfoToChannel. rewrite Hdir.
  rewrite (filepath_Rel_Join_down _ _ _ HN Hne Hn).
  unfold filterFilesForSync, fileInfoChanToMap. simpl.
  unfold needsSync. rewrite lookup_insert_eq. simpl.
  rewrite Hsize, Z.eqb_refl, Htime. reflexivity.
Qed.

Lemma downloaded_file_not_fetched_again_witness :
  filterFilesForSync [Sample.remoteA]
    (sendFileInfoToChannel "/local"
       (filepath_Join ["/local"; name Sample.remoteA])
       (Some Sample.fileStat))
  = [].
Proof.
  apply (downloaded_file_not_fetched_again "/local" Sample.remoteA
           [list_ascii_of_string "a.txt"]).
  - solve_names.
  - discriminate.
  - reflexivity.
  - reflexivity.
  - reflexivity.
  - reflexivity.
Defined.

(** X22.  An object whose key is the prefix joined with a path of real
    elements is sent under that path as its name, and a download of the
    record asks for the key of the object. *)
Theorem object_below_prefix_keeps_name_and_key (p : s3Path)
    (object : s3Object) (n : string) (N : list (list ascii)) :
  Forall isName N -> N <> [] ->
  list_ascii_of_string n = joinSep N ->
  Key object = filepath_Join [bucketPrefix p; n] ->
  let r := {| err := None; name := n; path := Key object;
              size := Size object; lastModified := LastModified object |} in
  sendObject p object = [r]
  /\ getObjectInput r p = (bucket p, Key object).
Proof.
  intros HN Hne Hn Hkey r. split.
  - subst r. unfold sendObject. rewrite Hkey.
    rewrite (filepath_Rel_Join_down _ _ _ HN Hne Hn). reflexivity.
  - subst r. unfold getObjectInput. simpl. rewrite Hkey. reflexivity.
Qed.

Lemma object_below_prefix_keeps_name_and_key_witness :
  sendObject Sample.dirSource Store.objectB
  = [ {| err := None; name := "b.txt"; path := Key Store.objectB;
         size := Size Store.objectB;
         lastModified := LastModified Store.objectB |} ]
  /\ getObjectInput
       {| err := None; name := "b.txt"; path := Key Store.objectB;
          size := Size Store.objectB;
          lastModified := LastModified Store.objectB |} Sample.dirSource
     = (bucket Sample.dirSource, Key Store.objectB).
Proof.
  apply (object_below_prefix_keeps_name_and_key Sample.dirSource
           Store.objectB "b.txt" [list_ascii_of_string "b.txt"]).
  - solve_names.
  - discriminate.
  - reflexivity.
  - reflexivity.
Defined.

(** ** Keys beside the prefix *)

Lemma stripCommon_branch P w k :
  w <> k -> stripCommon (P ++ [w]) (P ++ [k]) = ([w], [k]).
Proof.
  intros Hwk. induction P as [|x P IH]; simpl.
  - destruct (bytes_eqb k w) eqn:H; [|reflexivity].
    apply bytes_eqb_eq in H. congruence.
  - rewrite bytes_eqb_refl. exact IH.
Qed.

Lemma cleanState_names L :
  Forall isName L -> L <> [] ->
  isRooted (joinSep L) = false
  /\ cleanState (joinSep L) = {| ups := 0; names := rev L |}.
Proof.
  intros HL Hne.
  assert (Hr : isRooted (joinSep L) = false)
    by apply isRooted_joinSep, isName_Forall_isElem, HL.
  split; [exact Hr|]. unfold cleanState. rewrite Hr.
  rewrite comps_joinSep by (try apply isName_Forall_isElem; assumption).
  rewrite foldl_cleanStep_names by exact HL. simpl.
  rewrite app_nil_r. reflexivity.
Qed.

Lemma filepath_Clean_names n L :
  Forall isName L -> L <> [] -> list_ascii_of_string n = joinSep L ->
  filepath_Clean n = n.
Proof.
  intros HL Hne Hn. destruct (cleanState_names L HL Hne) as [Hr Hs].
  rewrite (filepath_Clean_of_state n false {| ups := 0; names := rev L |})
    by (rewrite Hn; assumption).
  unfold renderState, elems. simpl. rewrite rev_involutive.
  destruct L as [|w L]; [congruence|].
  rewrite <- Hn. apply bytes_string.
Qed.

(** [Rel] from a prefix to a key that differs from it in the last element:
    the name leads through the parent. *)
Lemma filepath_Rel_beside pfx key P w k :
  Forall isName P -> isName w -> isName k -> w <> k ->
  list_ascii_of_string pfx = joinSep (P ++ [w]) ->
  list_ascii_of_string key = joinSep (P ++ [k]) ->
  filepath_Rel pfx key
  = (string_of_list_ascii (joinSep [dotdot; k]), None).
Proof.
  intros HP Hw Hk Hwk Hp Hkey.
  assert (HPw : Forall isName (P ++ [w]))
    by (apply Forall_app; split; [exact HP|constructor; [exact Hw|constructor]]).
  assert (HPk : Forall isName (P ++ [k]))
    by (apply Forall_app; split; [exact HP|constructor; [exact Hk|constructor]]).
  assert (Hnw : P ++ [w] <> []) by (destruct P; discriminate).
  assert (Hnk : P ++ [k] <> []) by (destruct P; discriminate).
  destruct (cleanState_names _ HPw Hnw) as [Hrw Hsw].
  destruct (cleanState_names _ HPk Hnk) as [Hrk Hsk].
  rewrite filepath_Rel_spec.
  rewrite (filepath_Clean_names key _ HPk Hnk Hkey).
  rewrite (filepath_Clean_names pfx _ HPw Hnw Hp).
  destruct (String.eqb_spec key pfx) as [Heq|_].
  - exfalso. subst key. rewrite Hp in Hkey.
    apply (f_equal comps) in Hkey.
    rewrite !comps_joinSep in Hkey
      by (try apply isName_Forall_isElem; assumption).
    apply app_inj_tail in Hkey as [_ Hkey]. congruence.
  - rewrite Hp, Hkey, Hrw, Hrk, Hsw, Hsk. simpl negb. cbv iota.
    unfold elems. simpl. rewrite !rev_involutive.
    unfold relSpec. rewrite (stripCommon_branch P w k Hwk). simpl.
    destruct (bytes_eqb w dotdot) eqn:Hd; [|reflexivity].
    apply bytes_eqb_eq in Hd. destruct Hw as (_ & _ & _ & Hw). contradiction.
Qed.

(** Joining [../k] onto [parent/x] gives [parent/k]. *)
Lemma filepath_Join_beside parent xs ks nm x k :
  isName x -> isName k ->
  list_ascii_of_string xs = x ->
  list_ascii_of_string ks = k ->
  list_ascii_of_string nm = joinSep [dotdot; k] ->
  filepath_Join [filepath_Join [parent; xs]; nm] = filepath_Join [parent; ks].
Proof.
  intros Hx Hk Hxs Hks Hnm.
  assert (Hx1 : Forall isName [x]) by (constructor; [exact Hx|constructor]).
  assert (Hk1 : Forall isName [k]) by (constructor; [exact Hk|constructor]).
  destruct (filepath_Join_down parent xs [x] Hx1 ltac:(discriminate) Hxs)
    as [Hwf Hj].
  destruct (filepath_Join_down parent ks [k] Hk1 ltac:(discriminate) Hks)
    as [_ Hjk].
  set (r := isRooted (list_ascii_of_string parent)) in *.
  set (st := cleanState (list_ascii_of_string parent)) in *.
  change (rev [x] ++ names st) with (x :: names st) in Hwf, Hj.
  change (rev [k] ++ names st) with (k :: names st) in Hjk.
  rewrite Hjk.
  set (dest := filepath_Join [parent; xs]) in *.
  assert (Hb : list_ascii_of_string dest
               = renderState r {| ups := ups st; names := x :: names st |})
    by (rewrite Hj; apply string_bytes).
  assert (Hs : cleanState (list_ascii_of_string dest)
               = {| ups := ups st; names := x :: names st |})
    by (rewrite Hb; apply cleanState_renderState, Hwf).
  assert (Hr : isRooted (list_ascii_of_string dest) = r)
    by (rewrite Hb; apply isRooted_renderState, Hwf).
  assert (Hne : list_ascii_of_string dest <> []).
  { intros H. rewrite H in Hs. discriminate Hs. }
  assert (Hd : dest <> "") by (intros H; apply Hne; rewrite H; reflexivity).
  rewrite (filepath_Join_two _ _ Hd).
  destruct (cleanState_join (list_ascii_of_string dest)
              (list_ascii_of_string nm) Hne) as [Hr' Hs'].
  apply filepath_Clean_of_state.
  - rewrite !bytes_append.
    change (list_ascii_of_string "/") with [Separator]. simpl app at 2.
    rewrite Hr'. exact Hr.
  - rewrite !bytes_append.
    change (list_ascii_of_string "/") with [Separator]. simpl app at 2.
    rewrite Hs', Hs, Hr, Hnm.
    assert (He : Forall isElem [dotdot; k]).
    { constructor; [apply dotdot_isElem|].
      constructor; [apply isName_isElem, Hk|constructor]. }
    rewrite (comps_joinSep _ He) by discriminate.
    cbn [foldl]. rewrite cleanStep_up. cbn [names ups].
    rewrite cleanStep_name by exact Hk. reflexivity.
Qed.

(** X23.  A key that differs from the prefix in its last element, as the key
    [foobar] listed under the prefix [foo], is sent under a name that
    begins with [..]; joined with a destination [parent/x], the name gives
    a target beside the destination directory, not below it. *)
Theorem key_beside_prefix_lands_beside_destination (p : s3Path)
    (object : s3Object) (P : list (list ascii)) (w k x : list ascii)
    (parent : string) :
  Forall isName P -> isName w -> isName k -> isName x -> w <> k ->
  list_ascii_of_string (bucketPrefix p) = joinSep (P ++ [w]) ->
  list_ascii_of_string (Key object) = joinSep (P ++ [k]) ->
  let r := {| err := None;
              name := string_of_list_ascii (joinSep [dotdot; k]);
              path := Key object; size := Size object;
              lastModified := LastModified object |} in
  sendObject p object = [r]
  /\ filepath_Join
       [filepath_Join [parent; string_of_list_ascii x]; name r]
     = filepath_Join [parent; string_of_list_ascii k].
Proof.
  intros HP Hw Hk Hx Hwk Hp Hkey r. split.
  - unfold sendObject.
    rewrite (filepath_Rel_beside _ _ P w k HP Hw Hk Hwk Hp Hkey).
    reflexivity.
  - apply (filepath_Join_beside parent _ _ _ x k Hx Hk);
      apply string_bytes.
Qed.

Lemma key_beside_prefix_lands_beside_destination_witness :
  sendObject Store.fooSource Store.foobar
  = [ {| err := None; name := "../foobar"; path := "foobar";
         size := 5%Z; lastModified := Sample.t100 |} ]
  /\ filepath_Join [filepath_Join ["/local"; "foo"]; "../foobar"]
     = filepath_Join ["/local"; "foobar"].
Proof.
  apply (key_beside_prefix_lands_beside_destination Store.fooSource
           Store.foobar [] (list_ascii_of_string "foo")
           (list_ascii_of_string "foobar") (list_ascii_of_string "foo")
           "/local").
  - constructor.
  - solve_isName.
  - solve_isName.
  - solve_isName.
  - discriminate.
  - reflexivity.
  - reflexivity.
Defined.

(** ** Error sentinels and the local index *)

(** On the paths [filepath.Walk] hands out, [Rel] from the root does not
    fail. *)
Lemma filepath_Rel_walked (env : Env) (basePath : string) (v : Visit) :
  walksBelow env basePath ->
  v ∈ filepath_Walk env basePath ->
  (filepath_Rel basePath (visitPath v)).2 = None.
Proof.
  intros Hwalk Hv. destruct (Hwalk v Hv) as [->|(N & HN & Hne & ->)].
  - rewrite filepath_Rel_same_Clean by reflexivity. reflexivity.
  - rewrite (filepath_Rel_Join_down basePath _ N HN Hne)
      by apply string_bytes.
    reflexivity.
Qed.

(** So every record of the local lister that carries no error has a
    name. *)
Lemma listLocalFiles_named (env : Env) (basePath : string) (r : fileInfo) :
  walksBelow env basePath ->
  r ∈ listLocalFiles env basePath ->
  err r = None ->
  name r <> "".
Proof.
  intros Hwalk Hr Herr Hname.
  unfold listLocalFiles, filepath_ToSlash in Hr.
  destruct (os_Stat env basePath) as [stat|e] eqn:Hstat.
  - apply elem_of_app in Hr as [Hr|Hr].
    + apply (sendFileInfoToChannel_nameless _ _ _ _ Hr Hname).
      rewrite filepath_Rel_same_Clean by reflexivity. reflexivity.
    + destruct (IsDir stat); simpl in Hr; [|inversion Hr].
      destruct (walkLoop basePath (filepath_Walk env basePath))
        as [out we] eqn:Hw.
      apply elem_of_app in Hr as [Hr|Hr].
      * replace out
          with (walkLoop basePath (filepath_Walk env basePath)).1 in Hr
          by (rewrite Hw; reflexivity).
        apply walkLoop_visited in Hr as (v & Hv & _ & Hr).
        apply (sendFileInfoToChannel_nameless _ _ _ _ Hr Hname).
        exact (filepath_Rel_walked env basePath v Hwalk Hv).
      * destruct we as [e|]; [|inversion Hr].
        apply list_elem_of_singleton in Hr. subst r. discriminate.
  - destruct (IsNotExist e); [inversion Hr|].
    apply list_elem_of_singleton in Hr. subst r. discriminate.
Qed.

(** C5.  Whatever index the local lister leads to, it holds no record
    under the empty name, the name of an error sentinel; so every error
    sentinel of the remote sequence is forwarded, as it is. *)
Theorem sentinel_always_forwarded (env : Env) (basePath : string)
    (sourceFileChan : list fileInfo) (destFiles : gmap string fileInfo)
    (e : error) :
  walksBelow env basePath ->
  fileInfoChanToMap (listLocalFiles env basePath) = (destFiles, None) ->
  errorInfo e ∈ sourceFileChan ->
  destFiles !! "" = None
  /\ errorInfo e
       ∈ filterFilesForSync sourceFileChan (listLocalFiles env basePath).
Proof.
  intros Hwalk Hmap Hin.
  assert (Hnone : destFiles !! "" = None).
  { apply (fileInfoChanToMap_lookup_None _ _ _ Hmap). intros d Hd.
    apply (listLocalFiles_named env basePath d Hwalk Hd).
    apply fileInfoChanToMap_loop_ok in Hmap as [Hall _].
    rewrite List.Forall_forall in Hall. apply Hall.
    apply list_elem_of_In. exact Hd. }
  split; [exact Hnone|].
  apply (sentinel_forwarded_iff _ _ _ _ Hmap Hin). left. exact Hnone.
Qed.

Lemma sentinel_always_forwarded_witness :
  (fileInfoChanToMap (listLocalFiles Sample.env "/local")).1 !! "" = None
  /\ errorInfo Sample.listFailed
       ∈ filterFilesForSync [Sample.remoteA; errorInfo Sample.listFailed]
           (listLocalFiles Sample.env "/local").
Proof.
  apply (sentinel_always_forwarded Sample.env "/local").
  - intros v Hv. apply elem_of_cons in Hv as [->|Hv]; [left; reflexivity|].
    apply list_elem_of_singleton in Hv. subst v. right.
    exists [list_ascii_of_string "file.txt"].
    split; [solve_names|]. split; [discriminate|reflexivity].
  - reflexivity.
  - right. left.
Defined.
